(** * Cholla: parameter map, exact Riemann solver, disk-galaxy model and
      testing utilities

    A shallow embedding of parts of the Cholla sources and the properties
    proved about them:

    - [ParamDetails] and [ParameterMapModel]: [src/io/ParameterMap.cpp]
      (value conversion, key/value extraction, table bookkeeping, the
      constructor and [warn_unused_parameters]);
    - [ParameterMapAccess]: the accessors of [ParameterMap.h] ([try_get_],
      [value], [value_or], [param_has_type]);
    - [Exact]: the Toro exact Riemann solver of [exact.cpp]
      ([Calculate_Exact_Fluxes], [guessp], [prefun], [starpu], [sample]);
    - [DiskGalaxyModel]: the potentials and accelerations of [disk_galaxy.h];
    - [TestingUtilities]: [ulpsDistanceDbl] and [nearlyEqualDbl] of
      [testing_utilites.cpp]. *)

From Stdlib Require Import Bool Arith ZArith Lia List Ascii String.
From Stdlib Require Import Reals Lra SpecFloat Sorted.
From Stdlib Require DecimalString DecimalPos.
Import ListNotations.

(** ** Characters and string helpers shared by the parameter code *)

Module CStr.

Local Open Scope string_scope.
Local Open Scope nat_scope.

(** The double-quote character, used inside diagnostics. *)
Definition dq : string := String (ascii_of_nat 34) EmptyString.

(** [std::isspace] in the C locale: space, \t, \n, \v, \f, \r. *)
Definition isspace (c : ascii) : bool :=
  let n := nat_of_ascii c in
  (n =? 32) || ((9 <=? n) && (n <=? 13)).

Definition isdigit (c : ascii) : bool :=
  let n := nat_of_ascii c in (48 <=? n) && (n <=? 57).

(** [std::isalnum] in the C locale. *)
Definition isalnum (c : ascii) : bool :=
  let n := nat_of_ascii c in
  isdigit c || ((65 <=? n) && (n <=? 90)) || ((97 <=? n) && (n <=? 122)).

(** [s.find(ch)]: position of the first occurrence, [None] for [npos]. *)
Fixpoint find (ch : ascii) (s : string) : option nat :=
  match s with
  | EmptyString => None
  | String c s' =>
      if Ascii.eqb c ch then Some 0
      else match find ch s' with
           | Some p => Some (S p)
           | None => None
           end
  end.

(** [s.rfind(ch, start)]: the last position [p <= start] holding [ch]. *)
Fixpoint rfind (ch : ascii) (s : string) (start : nat) : option nat :=
  match s with
  | EmptyString => None
  | String c s' =>
      match start with
      | 0 => if Ascii.eqb c ch then Some 0 else None
      | S start' =>
          match rfind ch s' start' with
          | Some p => Some (S p)
          | None => if Ascii.eqb c ch then Some 0 else None
          end
      end
  end.

(** [s.back()] of a string; [None] when the string is empty. *)
Fixpoint back (s : string) : option ascii :=
  match s with
  | EmptyString => None
  | String c EmptyString => Some c
  | String _ s' => back s'
  end.

(** [s[0]]. *)
Definition front (s : string) : option ascii :=
  match s with
  | EmptyString => None
  | String c _ => Some c
  end.

Definition is_empty (s : string) : bool :=
  match s with EmptyString => true | _ => false end.

(** [s.substr(pos)]. *)
Fixpoint drop (pos : nat) (s : string) : string :=
  match pos, s with
  | 0, _ => s
  | S p, String _ s' => drop p s'
  | S _, EmptyString => EmptyString
  end.

(** [rstrip]: drops the trailing run of whitespace. *)
Fixpoint rstrip (s : string) : string :=
  match s with
  | EmptyString => EmptyString
  | String c s' =>
      match rstrip s' with
      | EmptyString => if isspace c then EmptyString else String c EmptyString
      | r => String c r
      end
  end.

Fixpoint lstrip (s : string) : string :=
  match s with
  | EmptyString => EmptyString
  | String c s' => if isspace c then lstrip s' else s
  end.

(** [my_trim]: removes the leading, then the trailing whitespace. *)
Definition my_trim (s : string) : string := rstrip (lstrip s).

(** The content of a character array read as a C string: the characters
    before the first NUL.  This is what a [std::string_view] built from a
    character pointer sees of a buffer; [fgets] itself stores the NUL bytes of
    the file like any other character. *)
Fixpoint c_str (s : string) : string :=
  match s with
  | EmptyString => EmptyString
  | String c s' => if Ascii.eqb c Ascii.zero then EmptyString else String c (c_str s')
  end.

(** Count of the characters satisfying [p]. *)
Fixpoint count (p : ascii -> bool) (s : string) : nat :=
  match s with
  | EmptyString => 0
  | String c s' => (if p c then 1 else 0) + count p s'
  end.

End CStr.

(** ** [param_details]: converting a parameter string to a typed value *)

Module ParamDetails.

Import CStr.
Local Open Scope string_scope.

(** [enum class TypeErr]. *)
Inductive TypeErr : Set := none | generic | boolean | out_of_range.

(** [try_bool_(str, val)]: [val] is a reference, so the model takes the
    old content and returns the new one next to the error code. *)
Definition try_bool_ (str : string) (val : bool) : TypeErr * bool :=
  if String.eqb str "true" then (none, true)
  else if String.eqb str "false" then (none, false)
  else (boolean, val).

Definition LLONG_MIN : Z := (- 2 ^ 63)%Z.
Definition LLONG_MAX : Z := (2 ^ 63 - 1)%Z.

(** Number of leading whitespace characters. *)
Fixpoint span_space (s : string) : nat :=
  match s with
  | String c s' => if isspace c then S (span_space s') else 0
  | EmptyString => 0
  end.

Definition digit_val (c : ascii) : Z := Z.of_nat (nat_of_ascii c - 48).

(** Reads the leading run of decimal digits: the value accumulated on top of
    [acc] and the number of digits read. *)
Fixpoint read_digits (s : string) (acc : Z) : Z * nat :=
  match s with
  | String c s' =>
      if isdigit c
      then let '(v, n) := read_digits s' (10 * acc + digit_val c)%Z in (v, S n)
      else (acc, 0)
  | EmptyString => (acc, 0)
  end.

(** The outcome of [std::strtoll(str.data(), &ptr_end, 10)]. *)
Record strtoll_result : Set := mk_strtoll
  { st_value : Z;        (* the returned [long long] *)
    st_end : nat;        (* [ptr_end - str.data()] *)
    st_erange : bool }.  (* whether [errno] was set to [ERANGE] *)

(** [strtoll] in base 10: leading whitespace, an optional sign, then decimal
    digits.  Without any digit no conversion is performed: the result is 0 and
    [ptr_end] is the start of the string.  A value outside of the range of
    [long long] is clamped and reported through [ERANGE]. *)
Definition strtoll (s : string) : strtoll_result :=
  let ws := span_space s in
  let after_ws := drop ws s in
  let '(neg, body, sign_len) :=
    match after_ws with
    | String "-"%char r => (true, r, 1)
    | String "+"%char r => (false, r, 1)
    | _ => (false, after_ws, 0)
    end in
  let '(magnitude, ndigits) := read_digits body 0%Z in
  if (ndigits =? 0)%nat then mk_strtoll 0%Z 0 false
  else
    let v := if neg : bool then (- magnitude)%Z else magnitude in
    let e := ws + sign_len + ndigits in
    if (v <? LLONG_MIN)%Z then mk_strtoll LLONG_MIN e true
    else if (LLONG_MAX <? v)%Z then mk_strtoll LLONG_MAX e true
    else mk_strtoll v e false.

(** [try_int64_(str, val)].  [long long] is taken to be 64 bits wide, so the
    preprocessor-guarded branch is absent. *)
Definition try_int64_ (str : string) (val : Z) : TypeErr * Z :=
  let r := strtoll str in
  if st_erange r then (out_of_range, val)
  else if negb (String.length str =? st_end r)%nat then (generic, val)
  else (none, st_value r).

(** [try_string_]. *)
Definition try_string_ (str : string) (val : string) : TypeErr * string :=
  (none, str).

End ParamDetails.

(** ** [ParameterMap]: construction and the unused-parameter report *)

Module ParameterMapModel.

Import CStr.
Local Open Scope string_scope.

(** [struct ParamEntry]. *)
Record ParamEntry : Set := mkEntry { param_str : string; accessed : bool }.

(** [std::map<std::string, ParamEntry>]: an association list kept in
    increasing key order, which is the order a range-for visits it in. *)
Definition entries_map : Set := list (string * ParamEntry).

Fixpoint map_find (k : string) (m : entries_map) : option ParamEntry :=
  match m with
  | [] => None
  | (k', v) :: m' => if String.eqb k k' then Some v else map_find k m'
  end.

Definition map_has (k : string) (m : entries_map) : bool :=
  match map_find k m with Some _ => true | None => false end.

(** [m[k] = v]. *)
Fixpoint map_assign (k : string) (v : ParamEntry) (m : entries_map) : entries_map :=
  match m with
  | [] => [(k, v)]
  | (k', v') :: m' =>
      match String.compare k k' with
      | Lt => (k, v) :: m
      | Eq => (k, v) :: m'
      | Gt => (k', v') :: map_assign k v m'
      end
  end.

(** [std::set<std::string>]: only membership and insertion are used. *)
Definition string_set : Set := list string.

Definition set_mem (k : string) (s : string_set) : bool :=
  existsb (String.eqb k) s.

Definition set_insert (k : string) (s : string_set) : string_set :=
  if set_mem k s then s else k :: s.

(** [struct KeyValueViews]. *)
Record KeyValueViews : Set := mkKV { key : string; value : string }.

(** [Try_Extract_Key_Value_View(buffer)]. *)
Definition Try_Extract_Key_Value_View (buffer : string) : KeyValueViews :=
  let full_view := c_str buffer in
  match find "="%char full_view with
  | None => mkKV EmptyString EmptyString            (* there is no '=' sign *)
  | Some pos =>
      if (pos =? 0)%nat || (pos + 1 =? String.length full_view)%nat
      then mkKV EmptyString EmptyString
      else mkKV (substring 0 pos full_view) (drop (pos + 1) full_view)
  end.

Definition allowed_char (ch : ascii) : bool :=
  Ascii.eqb ch "."%char || Ascii.eqb ch "_"%char || Ascii.eqb ch "-"%char || isalnum ch.

(** The [while (true)] loop of [Process_Full_Name].  [rfind_start] strictly
    decreases, so [fuel > rfind_start] iterations are enough (see
    [name_loop_fuel]).  The result is the message and the updated set. *)
Fixpoint name_loop (fuel : nat) (full_name : string) (rfind_start : nat)
    (full_table_set : string_set) (param_entries : entries_map)
    : string * string_set :=
  match fuel with
  | O => (EmptyString, full_table_set)
  | S fuel' =>
      let size_minus_1 := (String.length full_name - 1)%nat in
      match rfind "."%char full_name rfind_start with
      | None => (EmptyString, full_table_set)
      | Some pos =>
          if (pos =? size_minus_1)%nat then ("ends with a '.' character", full_table_set)
          else if (pos =? 0)%nat then ("start with a '.' character", full_table_set)
          else if (pos =? rfind_start)%nat
          then ("contains contiguous '.' characters", full_table_set)
          else
            let table_name_prefix := substring 0 pos full_name in
            if set_mem table_name_prefix full_table_set
            then (EmptyString, full_table_set)
            else
              let full_table_set' := set_insert table_name_prefix full_table_set in
              if map_has table_name_prefix param_entries
              then ("the (sub)table name collides with the existing " ++ dq
                      ++ table_name_prefix ++ dq ++ " parameter", full_table_set')
              else name_loop fuel' full_name (pos - 1) full_table_set' param_entries
      end
  end.

(** [Process_Full_Name(full_name, full_table_set, param_entries)]: the
    returned message is empty when there is no problem; the table set is
    passed by reference and its new content is returned too. *)
Definition Process_Full_Name (full_name : string) (full_table_set : string_set)
    (param_entries : entries_map) : string * string_set :=
  if (0 <? count (fun ch => negb (allowed_char ch)) full_name)%nat
  then ("contains an unallowed character", full_table_set)
  else name_loop (String.length full_name) full_name (String.length full_name - 1)
         full_table_set param_entries.

(** *** The constructor

    [ParameterMap::ParameterMap(fp, argc, argv)] reads the file with
    [fgets(buff, sizeof buff, fp)], one buffer at a time, and then walks over
    [argv].  A thrown [std::runtime_error] is the left summand. *)

Inductive exn : Set := runtime_error (what : string).

(** The locals of the constructor together with [this->entries_]. *)
Record ctor_state : Set := mkState
  { entries_ : entries_map;
    explicit_tables : string_set;
    all_tables : string_set;
    cur_table_header : string }.

Definition initial_state : ctor_state := mkState [] [] [] EmptyString.

Definition throw {A : Type} (what : string) : exn + A := inl (runtime_error what).

(** The branch [buff[0] == '['] of the reading loop. *)
Definition parse_table_header (st : ctor_state) (buff : string) : exn + ctor_state :=
  let view := rstrip (c_str buff) in
  match back view with
  | Some "]"%char =>
      let hdr := substring 1 (String.length view - 2) view in
      if (String.length hdr =? 0)%nat
      then throw "empty parameter-table headers (e.g. []) aren't allowed"
      else if set_mem hdr (explicit_tables st)
      then throw ("the [" ++ hdr ++ "] header appears more than once")
      else if map_has hdr (entries_ st)
      then throw ("the [" ++ hdr ++ "] header collides with a parameter of the same name")
      else
        let '(msg, tables) := Process_Full_Name hdr (all_tables st) (entries_ st) in
        if negb (is_empty msg)
        then throw ("problem encountered while parsing [" ++ hdr ++ "] table header: " ++ msg)
        else inr (mkState (entries_ st) (set_insert hdr (explicit_tables st))
                    (set_insert hdr tables) hdr)
  | _ => throw "problem parsing a parameter-table header"
  end.

(** The [else] branch of the reading loop: a name/value pair. *)
Definition parse_param_line (st : ctor_state) (buff : string) : exn + ctor_state :=
  let kv_pair := Try_Extract_Key_Value_View buff in
  if is_empty (key kv_pair) then inr st
  else
    let val := my_trim (value kv_pair) in
    match find "."%char (key kv_pair) with
    | Some _ =>
        throw ("the " ++ dq ++ key kv_pair ++ dq ++
               " parameter in the contains a '.'. This isn't currently allowed in the parameter file")
    | None =>
        let full_param_name :=
          (if negb (is_empty (cur_table_header st))
           then cur_table_header st ++ "." else EmptyString) ++ key kv_pair in
        let '(msg, tables) := Process_Full_Name full_param_name (all_tables st) (entries_ st) in
        if is_empty msg
        then inr (mkState (map_assign full_param_name (mkEntry val false) (entries_ st))
                    (explicit_tables st) tables (cur_table_header st))
        else if is_empty (cur_table_header st)
        then throw ("problem encountered while parsing the " ++ dq ++ full_param_name ++ dq
                    ++ " parameter: " ++ msg)
        else throw ("problem encountered while parsing the " ++ dq ++ key kv_pair ++ dq
                    ++ " parameter in the [" ++ cur_table_header st
                    ++ "] parameter-table (aka " ++ dq ++ full_param_name ++ dq ++ "): " ++ msg)
    end.

(** One iteration of the [while (fgets ...)] loop on the buffer [buff].  The
    tests on [buff[0]] look at the array itself; the two branches below wrap it
    in a [std::string_view], which ends at the first NUL. *)
Definition parse_line (st : ctor_state) (buff : string) : exn + ctor_state :=
  match front buff with
  | Some c =>
      if Ascii.eqb c (ascii_of_nat 10) || Ascii.eqb c "#"%char || Ascii.eqb c ";"%char
      then inr st                                   (* blank line or comment *)
      else if Ascii.eqb c "["%char then parse_table_header st buff
      else parse_param_line st buff
  | None => parse_param_line st buff
  end.

(** One iteration of the loop over [argv] (the [chprintf] echo is not
    part of the state). *)
Definition parse_cli_arg (st : ctor_state) (arg : string) : exn + ctor_state :=
  let kv_pair := Try_Extract_Key_Value_View arg in
  if is_empty (key kv_pair) then inr st
  else
    let val := my_trim (value kv_pair) in
    let key_str := key kv_pair in
    let '(msg, tables) := Process_Full_Name key_str (all_tables st) (entries_ st) in
    if negb (is_empty msg)
    then throw ("problem parsing " ++ dq ++ key_str ++ dq
                ++ " parameter from the command-line: " ++ msg)
    else inr (mkState (map_assign key_str (mkEntry val false) (entries_ st))
                (explicit_tables st) tables (cur_table_header st)).

(** Runs [step] over the inputs, stopping at the first exception. *)
Fixpoint run_all (step : ctor_state -> string -> exn + ctor_state)
    (st : ctor_state) (inputs : list string) : exn + ctor_state :=
  match inputs with
  | [] => inr st
  | x :: rest =>
      match step st x with
      | inl e => inl e
      | inr st' => run_all step st' rest
      end
  end.

(** The constructor on the sequence of buffers [fgets] produces and on
    [argv]; the result is the content of [entries_]. *)
Definition ParameterMap_ctor (buffers : list string) (argv : list string)
    : exn + entries_map :=
  match run_all parse_line initial_state buffers with
  | inl e => inl e
  | inr st =>
      match run_all parse_cli_arg st argv with
      | inl e => inl e
      | inr st' => inr (entries_ st')
      end
  end.

(** The buffers successive [fgets(buff, 256, fp)] calls return on a file with
    content [s]: each ends after a newline or after 255 characters.  [cur] is
    the part of the current buffer already read, [room] what is left in it. *)
Fixpoint fgets_buffers (s : string) (cur : string) (room : nat) : list string :=
  match s with
  | EmptyString => if is_empty cur then [] else [cur]
  | String c s' =>
      let cur' := cur ++ String c EmptyString in
      if Ascii.eqb c (ascii_of_nat 10) || (room =? 1)%nat
      then cur' :: fgets_buffers s' EmptyString 255
      else fgets_buffers s' cur' (room - 1)
  end.

Definition ParameterMap_of_file (content : string) (argv : list string)
    : exn + entries_map :=
  ParameterMap_ctor (fgets_buffers content EmptyString 255) argv.

(** *** [warn_unused_parameters] *)

(** How the call ends: it returns the count, or [CHOLLA_ERROR] aborts the
    program with a message. *)
Inductive warn_outcome : Set :=
| Returned (unused_params : nat)
| Aborted (message : string).

Definition pair_text (name val : string) : string :=
  name ++ "/" ++ val ++ ":  Unknown parameter/value pair!".

Definition warning_line (name val : string) : string :=
  "WARNING: " ++ pair_text name val ++ String (ascii_of_nat 10) EmptyString.

(** The condition of the [if] in the loop body. *)
Definition is_unused (ignore_params : string_set) (kv : string * ParamEntry) : bool :=
  negb (accessed (snd kv)) && negb (set_mem (fst kv) ignore_params).

(** The range-for over [entries_]; [unused_params] is the running count and
    [printed] the lines [chprintf] has written so far. *)
Fixpoint warn_loop (entries : entries_map) (ignore_params : string_set)
    (abort_on_warning suppress_warning_msg : bool)
    (unused_params : nat) (printed : list string) : warn_outcome * list string :=
  match entries with
  | [] => (Returned unused_params, printed)
  | kv :: rest =>
      if is_unused ignore_params kv
      then
        if abort_on_warning
        then (Aborted (pair_text (fst kv) (param_str (snd kv))), printed)
        else
          warn_loop rest ignore_params abort_on_warning suppress_warning_msg
            (S unused_params)
            (if suppress_warning_msg then printed
             else printed ++ [warning_line (fst kv) (param_str (snd kv))])
      else warn_loop rest ignore_params abort_on_warning suppress_warning_msg
             unused_params printed
  end.

Definition warn_unused_parameters (entries : entries_map) (ignore_params : string_set)
    (abort_on_warning suppress_warning_msg : bool) : warn_outcome * list string :=
  warn_loop entries ignore_params abort_on_warning suppress_warning_msg 0 [].

End ParameterMapModel.

(** ** The exact Riemann solver of [exact.cpp]

    [Real] is read as the field of real numbers: the model follows the
    arithmetic of the code operation by operation, without rounding, overflow
    or NaN.  Where a C operation has no real value (a division by zero, the
    square root of a negative number, [pow] outside of its domain) the model
    takes the value of the corresponding total function of the library. *)

Module Exact.

Local Open Scope R_scope.

(** [pow(x, y)] of [math.h]: [exp (y * ln x)] on a positive base; a zero base
    gives 0 for a positive exponent and 1 for the exponent 0; a negative base
    is raised to an integral exponent as a signed power (and has no value for
    any other exponent, where the model takes 0). *)
Definition pow (x y : R) : R :=
  if Rlt_dec 0 x then Rpower x y
  else if Req_dec_T x 0
       then (if Rlt_dec 0 y then 0 else if Req_dec_T y 0 then 1 else 0)
       else (if Req_dec_T (IZR (Int_part y)) y then powerRZ x (Int_part y) else 0).

Definition fmax (a b : R) : R := Rmax a b.
Definition fabs (a : R) : R := Rabs a.

(** [const Real TOL = 1.0e-6] (in [guessp] and in [starpu]). *)
Definition TOL : R := 1.0e-6.

(** [const int nriter = 20]. *)
Definition nriter : nat := 20.

(** [guessp]: the guessed value of the pressure in the star region. *)
Definition guessp (dl vxl pl cl dr vxr pr cr gamma : R) : R :=
  (* guess pressure from the PVRS Riemann solver *)
  let ppv := 0.5 * (pl + pr) + 0.125 * (vxl - vxr) * (dl + dr) * (cl + cr) in
  let ppv := if Rlt_dec ppv 0.0 then 0.0 else ppv in
  (* two-shock Riemann solver with PVRS as estimate *)
  let gl := sqrt ((2.0 / ((gamma + 1.0) * dl)) / (((gamma - 1.0) / (gamma + 1.0)) * pl + ppv)) in
  let gr := sqrt ((2.0 / ((gamma + 1.0) * dr)) / (((gamma - 1.0) / (gamma + 1.0)) * pr + ppv)) in
  let p_0 := (gl * pl + gr * pr - (vxr - vxl)) / (gl + gr) in
  if Rlt_dec p_0 0.0 then TOL else p_0.

(** [prefun]: the pressure function [f] of one side and its derivative [fd]. *)
Definition prefun (p dk pk ck gamma : R) : R * R :=
  if Rle_dec p pk then
    (* rarefaction wave *)
    let pratio := p / pk in
    ((2.0 / (gamma - 1.0)) * ck * (pow pratio ((gamma - 1.0) / (2.0 * gamma)) - 1.0),
     (1.0 / (dk * ck)) * pow pratio (- ((gamma + 1.0) / (2.0 * gamma))))
  else
    (* shock wave *)
    let ak := (2.0 / (gamma + 1.0)) / dk in
    let bk := ((gamma - 1.0) / (gamma + 1.0)) * pk in
    let qrt := sqrt (ak / (bk + p)) in
    ((p - pk) * qrt, (1.0 - 0.5 * (p - pk) / (bk + p)) * qrt).

(** What the [for] loop of [starpu] leaves behind: [*p], the last [fl] and
    [fr], how many times the body ran and whether it was left by [break]. *)
Record newton_result : Type := mkNewton
  { nr_p : R; nr_fl : R; nr_fr : R; nr_iterations : nat; nr_break : bool }.

(** The loop [for (i = 0; i <= nriter; i++)] of [starpu], entered with [pold]
    and with [more] further passes allowed after this one; [done] counts the
    passes already made.

    When [fld + frd] or [p + pold] vanishes the code goes on with an
    infinity or a NaN, and a NaN fails the test [change <= TOL]; the model
    reads the quotient as 0 there and may leave the loop earlier than the
    code does.  The evaluations of the loop proved below are on inputs where
    neither divisor vanishes. *)
Fixpoint newton_loop (dl vxl pl cl dr vxr pr cr gamma : R)
    (more : nat) (done : nat) (pold : R) : newton_result :=
  let '(fl, fld) := prefun pold dl pl cl gamma in
  let '(fr, frd) := prefun pold dr pr cr gamma in
  let p := pold - (fl + fr + vxr - vxl) / (fld + frd) in
  let change := 2.0 * fabs ((p - pold) / (p + pold)) in
  if Rle_dec change TOL then mkNewton p fl fr (S done) true
  else
    let p := if Rlt_dec p 0.0 then TOL else p in
    match more with
    | O => mkNewton p fl fr (S done) false
    | S more' => newton_loop dl vxl pl cl dr vxr pr cr gamma more' (S done) p
    end.

(** The loop of [starpu] started from the guess: [i] runs from 0 to
    [nriter], both included. *)
Definition starpu_loop (dl vxl pl cl dr vxr pr cr gamma : R) : newton_result :=
  newton_loop dl vxl pl cl dr vxr pr cr gamma nriter 0
    (guessp dl vxl pl cl dr vxr pr cr gamma).

(** [starpu]: pressure [*p] and velocity [*u] in the star region. *)
Definition starpu (dl vxl pl cl dr vxr pr cr gamma : R) : R * R :=
  let r := starpu_loop dl vxl pl cl dr vxr pr cr gamma in
  (nr_p r, 0.5 * (vxl + vxr + nr_fr r - nr_fl r)).

(** [sample]: the solution [(d, u, p)] at the interface, given the pressure
    [pm] and the velocity [vm] of the star region. *)
Definition sample (pm vm dl vxl pl cl dr vxr pr cr gamma : R) : R * R * R :=
  if Rge_dec vm 0 then
    (* sampling point lies to the left of the contact discontinuity *)
    if Rle_dec pm pl then
      (* left rarefaction *)
      if Rge_dec (vxl - cl) 0 then (dl, vxl, pl)
      else
        let cml := cl * pow (pm / pl) ((gamma - 1.0) / (2.0 * gamma)) in
        if Rlt_dec (vm - cml) 0 then (dl * pow (pm / pl) (1.0 / gamma), vm, pm)
        else
          let u := (2.0 / (gamma + 1.0)) * (cl + ((gamma - 1.0) / 2.0) * vxl) in
          let c := (2.0 / (gamma + 1.0)) * (cl + ((gamma - 1.0) / 2.0) * vxl) in
          (dl * pow (c / cl) (2.0 / (gamma - 1.0)), u,
           pl * pow (c / cl) (2.0 * gamma / (gamma - 1.0)))
    else
      (* left shock *)
      let pml := pm / pl in
      let sl := vxl - cl * sqrt (((gamma + 1.0) / (2.0 * gamma)) * pml
                                 + ((gamma - 1.0) / (2.0 * gamma))) in
      if Rge_dec sl 0 then (dl, vxl, pl)
      else (dl * (pml + ((gamma - 1.0) / (gamma + 1.0)))
               / (pml * ((gamma - 1.0) / (gamma + 1.0)) + 1.0), vm, pm)
  else
    (* sampling point lies to the right of the contact discontinuity *)
    if Rgt_dec pm pr then
      (* right shock *)
      let pmr := pm / pr in
      let sr := vxr + cr * sqrt (((gamma + 1.0) / (2.0 * gamma)) * pmr
                                 + ((gamma - 1.0) / (2.0 * gamma))) in
      if Rle_dec sr 0 then (dr, vxr, pr)
      else (dr * (pmr + ((gamma - 1.0) / (gamma + 1.0)))
               / (pmr * ((gamma - 1.0) / (gamma + 1.0)) + 1.0), vm, pm)
    else
      (* right rarefaction *)
      if Rle_dec (vxr + cr) 0 then (dr, vxr, pr)
      else
        let cmr := cr * pow (pm / pr) ((gamma - 1.0) / (2.0 * gamma)) in
        if Rge_dec (vm + cmr) 0 then (dr * pow (pm / pr) (1.0 / gamma), vm, pm)
        else
          let u := (2.0 / (gamma + 1.0)) * (- cr + ((gamma - 1.0) / 2.0) * vxr) in
          let c := (2.0 / (gamma + 1.0)) * (cr - ((gamma - 1.0) / 2.0) * vxr) in
          (dr * pow (c / cr) (2.0 / (gamma - 1.0)), u,
           pr * pow (c / cr) (2.0 * gamma / (gamma - 1.0))).

Section Fluxes.

(** [TINY_NUMBER] is a macro of [global.h]; the solver only uses it as the
    floor of the two pressures, so it is a parameter here. *)
Variable TINY_NUMBER : R.

(** [cW[i]]. *)
Definition at_ (cW : list R) (i : nat) : R := nth i cW 0.

(** The primitive variables [Calculate_Exact_Fluxes] derives from [cW]. *)
Record primitives : Type := mkPrim
  { dl : R; vxl : R; vyl : R; vzl : R; pl : R; cl : R; gel : R;
    dr : R; vxr : R; vyr : R; vzr : R; pr : R; cr : R; ger : R }.

Definition primitives_of (cW : list R) (gamma : R) : primitives :=
  let dl := at_ cW 0 in
  let dr := at_ cW 1 in
  let vxl := at_ cW 2 / dl in
  let vxr := at_ cW 3 / dr in
  let vyl := at_ cW 4 / dl in
  let vyr := at_ cW 5 / dr in
  let vzl := at_ cW 6 / dl in
  let vzr := at_ cW 7 / dr in
  let pl := (at_ cW 8 - 0.5 * dl * (vxl * vxl + vyl * vyl + vzl * vzl)) * (gamma - 1.0) in
  let pl := fmax pl TINY_NUMBER in
  let pr := (at_ cW 9 - 0.5 * dr * (vxr * vxr + vyr * vyr + vzr * vzr)) * (gamma - 1.0) in
  let pr := fmax pr TINY_NUMBER in
  let gel := at_ cW 10 / dl in
  let ger := at_ cW 11 / dr in
  (* sound speeds in the left (cell i-1) and right (cell i) regions *)
  let cl := sqrt (gamma * pl / dl) in
  let cr := sqrt (gamma * pr / dr) in
  mkPrim dl vxl vyl vzl pl cl gel dr vxr vyr vzr pr cr ger.

(** The star region [(pm, um)] computed by the call of [starpu]. *)
Definition star_region (cW : list R) (gamma : R) : R * R :=
  let w := primitives_of cW gamma in
  starpu (dl w) (vxl w) (pl w) (cl w) (dr w) (vxr w) (pr w) (cr w) gamma.

(** The sampled [(ds, us, ps)] computed by the call of [sample]. *)
Definition interface_state (cW : list R) (gamma : R) : R * R * R :=
  let w := primitives_of cW gamma in
  let '(pm, um) := star_region cW gamma in
  sample pm um (dl w) (vxl w) (pl w) (cl w) (dr w) (vxr w) (pr w) (cr w) gamma.

(** [Calculate_Exact_Fluxes(cW, fluxes, gamma)] with [DE] defined: the result
    is the content of [fluxes[0..5]]. *)
Definition Calculate_Exact_Fluxes (cW : list R) (gamma : R) : list R :=
  let w := primitives_of cW gamma in
  let '(ds, us, ps) := interface_state cW gamma in
  let f0 := ds * us in
  let f1 := ds * us * us + ps in
  let '(f2, f3, f5, Es) :=
    if Rge_dec us 0
    then (ds * us * vyl w, ds * us * vzl w, ds * us * gel w,
          (ps / (gamma - 1.0)) + 0.5 * ds * (us * us + vyl w * vyl w + vzl w * vzl w))
    else (ds * us * vyr w, ds * us * vzr w, ds * us * ger w,
          (ps / (gamma - 1.0)) + 0.5 * ds * (us * us + vyr w * vyr w + vzr w * vzr w)) in
  let f4 := (Es + ps) * us in
  [f0; f1; f2; f3; f4; f5].

End Fluxes.

End Exact.

(** ** [testingUtilities]: the round-off comparison of the tests

    A [double] is its object representation: the 64 bits of the IEEE 754
    binary64 format, as an unsigned number.  Arithmetic and comparisons go
    through the value the bits denote ([SpecFloat], precision 53, [emax]
    1024, rounding to nearest even). *)

Module TestingUtilities.

Local Open Scope Z_scope.

Definition prec : Z := 53.
Definition emax : Z := 1024.

Definition double : Set := Z.

(** The bit patterns a [double] object can hold. *)
Definition is_double (a : double) : Prop := 0 <= a < 2 ^ 64.

Definition sign_bit (a : double) : bool := Z.testbit a 63.
Definition exponent_field (a : double) : Z := Z.land (Z.shiftr a 52) 2047.
Definition fraction_field (a : double) : Z := Z.land a (2 ^ 52 - 1).

(** The value denoted by the bits. *)
Definition value_of (a : double) : spec_float :=
  let s := sign_bit a in
  let e := exponent_field a in
  let m := fraction_field a in
  if e =? 0 then
    match m with
    | Zpos p => S754_finite s p (-1074)       (* subnormal *)
    | _ => S754_zero s
    end
  else if e =? 2047 then
    (if m =? 0 then S754_infinity s else S754_nan)
  else
    match m + 2 ^ 52 with
    | Zpos p => S754_finite s p (e - 1075)    (* normal *)
    | _ => S754_nan
    end.

(** [a == b] on doubles. *)
Definition dbl_eq (a b : double) : bool := SFeqb (value_of a) (value_of b).

(** [std::isnan] and [std::isinf]. *)
Definition isnan (a : double) : bool :=
  match value_of a with S754_nan => true | _ => false end.

Definition isinf (a : double) : bool :=
  match value_of a with S754_infinity _ => true | _ => false end.

Definition INT64_MAX : Z := 2 ^ 63 - 1.

(** Reduction of an integer to the range of [int64_t] (two's complement). *)
Definition wrap64 (z : Z) : Z := (z + 2 ^ 63) mod 2 ^ 64 - 2 ^ 63.

(** [std::memcpy(&ia, &a, sizeof(double))]: the same 64 bits read as an
    [int64_t]. *)
Definition memcpy_int64 (a : double) : Z := wrap64 a.

(** [ulpsDistanceDbl(a, b)]. *)
Definition ulpsDistanceDbl (a b : double) : Z :=
  (* Save work if the floats are equal.  Also handles +0 == -0 *)
  if dbl_eq a b then 0
  else
    let maxInt := INT64_MAX in
    (* If either one is NaN then they are not equal, max distance. *)
    if isnan a || isnan b then maxInt
    (* If one's infinite and they're not equal, max distance. *)
    else if isinf a || isinf b then maxInt
    else
      let ia := memcpy_int64 a in
      let ib := memcpy_int64 b in
      (* Don't compare differently-signed floats. *)
      if negb (Bool.eqb (ia <? 0) (ib <? 0)) then maxInt
      else
        (* Return the absolute value of the distance in ULPs. *)
        let distance := wrap64 (ia - ib) in
        let distance := if distance <? 0 then wrap64 (- distance) else distance in
        distance.

(** [std::abs(a - b)] on doubles. *)
Definition abs_diff (a b : double) : spec_float :=
  SFabs (SFsub prec emax (value_of a) (value_of b)).

(** [nearlyEqualDbl(a, b, absoluteDiff, ulpsDiff, fixedEpsilon, ulpsEpsilon)]:
    the returned flag with the two output arguments.  [ulpsEpsilon] is an
    [int], converted to [int64_t] by the comparison. *)
Definition nearlyEqualDbl (a b : double) (fixedEpsilon : double) (ulpsEpsilon : Z)
    : bool * spec_float * Z :=
  (* Compute differences *)
  let ulpsDiff := ulpsDistanceDbl a b in
  let absoluteDiff := abs_diff a b in
  (* Perform the ULP check which is for numbers far from zero *)
  if ulpsDiff <=? ulpsEpsilon then (true, absoluteDiff, ulpsDiff)
  (* Perform the absolute check which is for numbers near zero *)
  else if SFleb absoluteDiff (value_of fixedEpsilon) then (true, absoluteDiff, ulpsDiff)
  (* if none of the checks have passed indicate test failure *)
  else (false, absoluteDiff, ulpsDiff).

(** The default arguments, as the definition of [nearlyEqualDbl] records them
    ([= 1E-14 by default], [= 4 by default]): the double nearest to 1E-14 is
    [0x3D06849B86A12B9B]. *)
Definition default_fixedEpsilon : double := 4397347889687374747.
Definition default_ulpsEpsilon : Z := 4.

Definition nearlyEqualDbl_default (a b : double) : bool * spec_float * Z :=
  nearlyEqualDbl a b default_fixedEpsilon default_ulpsEpsilon.

(** Some doubles used in the examples. *)
Definition dbl_pos_zero : double := 0.
Definition dbl_neg_zero : double := 2 ^ 63.
Definition dbl_pos_inf : double := 9218868437227405312.   (* 0x7FF0000000000000 *)
Definition dbl_neg_inf : double := 18442240474082181120.  (* 0xFFF0000000000000 *)
Definition dbl_nan : double := 9221120237041090560.       (* 0x7FF8000000000000 *)
Definition dbl_one : double := 4607182418800017408.       (* 0x3FF0000000000000 *)

End TestingUtilities.

(** ** [ParameterMap]: the accessors of [ParameterMap.h]

    The accessors are templates over the value type [T].  The header has the
    converters [param_details::try_*_] return a [std::optional<T>] and
    deliver the error code by reference; their bodies are not part of the
    header, so [try_get_] is modelled over any converter of that shape. *)

Module ParameterMapAccess.

Import CStr ParamDetails ParameterMapModel.
Local Open Scope string_scope.

(** How a call ends: normally, with a result and the map as the call leaves
    it, or in [CHOLLA_ERROR], which aborts the program with a message. *)
Inductive outcome (A : Type) : Type :=
| Normal (result : A) (entries : entries_map)
| Abort (message : string).

Arguments Normal {A} result entries.
Arguments Abort {A} message.

(** [(keyvalue_pair->second).accessed = true] on the entry [find] located. *)
Fixpoint mark_accessed (param : string) (m : entries_map) : entries_map :=
  match m with
  | [] => []
  | (k, e) :: m' =>
      if String.eqb param k then (k, mkEntry (param_str e) true) :: m'
      else (k, e) :: mark_accessed param m'
  end.

(** The text of [formatted_type_err_]. *)
Definition type_err_reason (err : TypeErr) : string :=
  match err with
  | none => EmptyString
  | generic => "invalid value"
  | boolean => "boolean values must be " ++ dq ++ "true" ++ dq ++ " or " ++ dq ++ "false" ++ dq
  | out_of_range => "out of range"
  end.

Definition formatted_type_err_ (param str dtype : string) (err : TypeErr) : string :=
  "error interpretting " ++ dq ++ str ++ dq ++ ", the value of the " ++ dq ++ param ++ dq
  ++ " parameter, as a " ++ dtype ++ ": " ++ type_err_reason err.

Section Accessors.

Variable T : Type.

(** The converter selected by [if constexpr] and the name of its type. *)
Variable convert : string -> option T * TypeErr.
Variable dtype_name : string.

(** [try_get_<T>(param, is_type_check)]. *)
Definition try_get_ (entries : entries_map) (param : string) (is_type_check : bool)
    : outcome (option T) :=
  match map_find param entries with
  | None => Normal None entries
  | Some e =>
      let str := param_str e in
      let '(out, err) := convert str in
      if is_type_check then Normal out entries   (* never records the access *)
      else
        match err with
        | none => Normal out (mark_accessed param entries)
        | _ => Abort (formatted_type_err_ param str dtype_name err)
        end
  end.

(** [param_has_type<T>(param)]. *)
Definition param_has_type (entries : entries_map) (param : string) : bool :=
  match try_get_ entries param true with
  | Normal (Some _) _ => true
  | _ => false
  end.

(** [value<T>(param)]. *)
Definition value_ (entries : entries_map) (param : string) : outcome T :=
  match try_get_ entries param false with
  | Abort msg => Abort msg
  | Normal None _ =>
      Abort ("The " ++ dq ++ param ++ dq ++ " parameter was not specified.")
  | Normal (Some v) entries' => Normal v entries'
  end.

(** [value_or(param, default_val)]. *)
Definition value_or (entries : entries_map) (param : string) (default_val : T)
    : outcome T :=
  match try_get_ entries param false with
  | Abort msg => Abort msg
  | Normal None entries' => Normal default_val entries'
  | Normal (Some v) entries' => Normal v entries'
  end.

End Accessors.

Arguments try_get_ {T} convert dtype_name entries param is_type_check.
Arguments param_has_type {T} convert dtype_name entries param.
Arguments value_ {T} convert dtype_name entries param.
Arguments value_or {T} convert dtype_name entries param default_val.

(** [size()] and [has_param(param)]. *)
Definition size (entries : entries_map) : nat := List.length entries.

Definition has_param (entries : entries_map) (param : string) : bool :=
  map_has param entries.

End ParameterMapAccess.

(** ** The analytic disk-galaxy model of [disk_galaxy.h]

    As for the Riemann solver, [Real] is read as the field of real numbers;
    [log] is [ln] and [pow] is the function of [Exact]. *)

Module DiskGalaxyModel.

Local Open Scope R_scope.

Section Galaxy.

(** [GN], the gravitational constant, is a macro of [global.h]. *)
Variable GN : R.

(** The private members of [class DiskGalaxy]. *)
Record DiskGalaxy : Type := mkGalaxy
  { M_vir : R; M_d : R; R_d : R; Z_d : R; R_vir : R; c_vir : R; r_cool : R;
    M_h : R; R_h : R }.

Definition log_func (y : R) : R := ln (1 + y) - y / (1 + y).

(** The constructor [DiskGalaxy(md, rd, zd, mvir, rvir, cvir, rcool)]. *)
Definition make (md rd zd mvir rvir cvir rcool : R) : DiskGalaxy :=
  mkGalaxy mvir md rd zd rvir cvir rcool (mvir - md) (rvir / cvir).

(** Radial acceleration in Miyamoto-Nagai. *)
Definition gr_disk_D3D (g : DiskGalaxy) (r z : R) : R :=
  let A := R_d g + sqrt (Z_d g * Z_d g + z * z) in
  let B := Exact.pow (A * A + r * r) 1.5 in
  - GN * M_d g * r / B.

(** Radial acceleration in the NFW halo. *)
Definition gr_halo_D3D (g : DiskGalaxy) (r z : R) : R :=
  let rs := sqrt (r * r + z * z) in   (* spherical radius *)
  let x := rs / R_h g in
  let r_comp := r / rs in
  let A := log_func x in
  let B := 1.0 / (rs * rs) in
  let C := GN * M_h g / log_func (c_vir g) in
  - C * A * B * r_comp.

Definition gr_total_D3D (g : DiskGalaxy) (r z : R) : R :=
  gr_disk_D3D g r z + gr_halo_D3D g r z.

(** Potential of the NFW halo. *)
Definition phi_halo_D3D (g : DiskGalaxy) (r z : R) : R :=
  let rs := sqrt (r * r + z * z) in   (* spherical radius *)
  let x := rs / R_h g in
  let C := GN * M_h g / (R_h g * log_func (c_vir g)) in
  (* limit x to non-zero value *)
  let x := if Rlt_dec x 1.0e-9 then 1.0e-9 else x in
  - C * ln (1 + x) / x.

(** Miyamoto-Nagai potential. *)
Definition phi_disk_D3D (g : DiskGalaxy) (r z : R) : R :=
  let A := sqrt (z * z + Z_d g * Z_d g) in
  let B := R_d g + A in
  let C := sqrt (r * r + B * B) in
  - GN * M_d g / C.

Definition phi_total_D3D (g : DiskGalaxy) (r z : R) : R :=
  phi_halo_D3D g r z + phi_disk_D3D g r z.

Definition getM_d (g : DiskGalaxy) : R := M_d g.
Definition getR_d (g : DiskGalaxy) : R := R_d g.
Definition getZ_d (g : DiskGalaxy) : R := Z_d g.

End Galaxy.

(** [namespace Galaxies]: all masses in M_sun and all distances in kpc. *)
Definition MW : DiskGalaxy := make 6.5e10 3.5 (3.5 / 5.0) 1.0e12 261 20 157.0.
Definition M82 : DiskGalaxy := make 1.0e10 0.8 0.15 5.0e10 (0.8 / 0.015) 10 100.0.

End DiskGalaxyModel.

(** ** Notions used to state the properties *)

Module ParamSpec.

Import CStr ParameterMapModel.
Local Open Scope string_scope.

Definition newline : string := String (ascii_of_nat 10) EmptyString.

(** The entries the report is about, in the order the loop visits them. *)
Definition unused_entries (entries : entries_map) (ignore_params : string_set)
  : entries_map := filter (is_unused ignore_params) entries.

Definition warning_of (kv : string * ParamEntry) : string :=
  warning_line (fst kv) (param_str (snd kv)).

(** The three cases in which no key/value pair is extracted: there is no
    ['='], or the first ['='] is the first or the last character of the
    buffer. *)
Definition equals_sign_unusable (buffer : string) : bool :=
  match find "="%char buffer with
  | None => true
  | Some pos => (pos =? 0)%nat || (pos + 1 =? String.length buffer)%nat
  end.

(** The text between the brackets of a well-formed heading buffer. *)
Definition heading_of (buff : string) : option string :=
  let view := rstrip (c_str buff) in
  match back view with
  | Some "]"%char => Some (substring 1 (String.length view - 2) view)
  | _ => None
  end.

End ParamSpec.

Module ExactSpec.

Import Exact.
Local Open Scope R_scope.

(** The pressure of the primitive-variable Riemann solver (PVRS). *)
Definition pvrs_pressure (dl vxl pl cl dr vxr pr cr : R) : R :=
  / 2 * (pl + pr) + / 8 * (vxl - vxr) * (dl + dr) * (cl + cr).

(** The pressure of the two-shock Riemann solver built on the estimate
    [p_est]. *)
Definition two_shock_pressure (p_est dl vxl pl dr vxr pr gamma : R) : R :=
  let gl := sqrt ((2 / ((gamma + 1) * dl)) / (((gamma - 1) / (gamma + 1)) * pl + p_est)) in
  let gr := sqrt ((2 / ((gamma + 1) * dr)) / (((gamma - 1) / (gamma + 1)) * pr + p_est)) in
  (gl * pl + gr * pr - (vxr - vxl)) / (gl + gr).

(** The conserved input of [Calculate_Exact_Fluxes] whose two cells hold the
    same primitive state [(d, vx, vy, vz, p)] with specific internal energy
    [ge]. *)
Definition total_energy (d vx vy vz p gamma : R) : R :=
  p / (gamma - 1) + / 2 * d * (vx * vx + vy * vy + vz * vz).

Definition identical_input (d vx vy vz p gamma ge : R) : list R :=
  let E := total_energy d vx vy vz p gamma in
  [d; d; d * vx; d * vx; d * vy; d * vy; d * vz; d * vz; E; E; d * ge; d * ge].

(** The analytic flux [F(W)] of the state, with the flux of the advected
    internal energy in the last place. *)
Definition analytic_flux (d vx vy vz p gamma ge : R) : list R :=
  let E := total_energy d vx vy vz p gamma in
  [d * vx; d * vx * vx + p; d * vx * vy; d * vx * vz; (E + p) * vx; d * vx * ge].

(** A pair of states that generates vacuum: two cells of density 1 and
    pressure 3 (sound speed 3 for [gamma = 3]) that move apart with the
    velocities -4 and 20.  The total energies are [p / (gamma - 1) + d v^2 / 2]. *)
Definition vacuum_cW : list R :=
  [1; 1; -4; 20; 0; 0; 0; 0; 19 / 2; 403 / 2; 0; 0].

(** The same pair with tangential velocities 2 and 3 and specific internal
    energies 5 and 7 in the left and in the right cell; the total energies
    keep both pressures at 3. *)
Definition vacuum_de_cW : list R :=
  [1; 1; -4; 20; 2; 3; 0; 0; 23 / 2; 206; 5; 7].

(** The two powers of the pressure ratio [TOL / 3] the rarefaction branch of
    [prefun] evaluates for these states. *)
Definition pratio_a : R := pow (TOL / 3) ((3 - 1.0) / (2.0 * 3)).
Definition pratio_b : R := pow (TOL / 3) (- ((3 + 1.0) / (2.0 * 3))).

End ExactSpec.

(** ** Notions used to state the further properties *)

Module ParamNotions.

Import CStr ParameterMapModel.
Local Open Scope string_scope.

(** Every character of the string satisfies [p]. *)
Fixpoint string_forallb (p : ascii -> bool) (s : string) : bool :=
  match s with
  | EmptyString => true
  | String c s' => p c && string_forallb p s'
  end.

(** The string neither starts nor ends with a whitespace character. *)
Definition no_outer_space (s : string) : bool :=
  match front s, back s with
  | Some a, Some b => negb (isspace a) && negb (isspace b)
  | _, _ => true
  end.

(** A key as the constructor stores them: not empty, made of letters,
    digits, ['_'], ['-'] and ['.'] only, and not ending with a ['.']. *)
Definition valid_key (k : string) : bool :=
  negb (is_empty k) && string_forallb allowed_char k
  && match back k with Some c => negb (Ascii.eqb c "."%char) | None => true end.

(** The keys increase strictly along the list, as they do in a
    [std::map]. *)
Definition key_lt (a b : string * ParamEntry) : Prop :=
  String.compare (fst a) (fst b) = Lt.

Definition keys_sorted (m : entries_map) : Prop := StronglySorted key_lt m.

(** An entry as the constructor leaves it, and the invariant of its loops. *)
Definition entry_ok (kv : string * ParamEntry) : Prop :=
  accessed (snd kv) = false /\ valid_key (fst kv) = true.

Definition state_ok (st : ctor_state) : Prop :=
  Forall entry_ok (entries_ st) /\ keys_sorted (entries_ st).

(** A buffer the reading loop treats as a name/value line: it does not start
    with a newline, ['#'], [';'] or ['[']. *)
Definition is_pair_line (buff : string) : bool :=
  match front buff with
  | Some c =>
      negb (Ascii.eqb c (ascii_of_nat 10) || Ascii.eqb c "#"%char || Ascii.eqb c ";"%char
            || Ascii.eqb c "["%char)
  | None => true
  end.

(** A buffer is not empty, holds at most 255 characters, and a newline can
    only be its last character. *)
Definition buffer_ok (b : string) : Prop :=
  1 <= String.length b <= 255 /\
  (forall pos, find (ascii_of_nat 10) b = Some pos -> pos + 1 = String.length b).

(** [n] copies of the character [c]. *)
Fixpoint repeat_char (c : ascii) (n : nat) : string :=
  match n with
  | O => EmptyString
  | S n' => String c (repeat_char c n')
  end.

(** The decimal notation of an integer: an optional ['-'] and the digits,
    without leading zeros. *)
Definition decimal (z : Z) : string :=
  DecimalString.NilEmpty.string_of_int (Z.to_int z).

End ParamNotions.

Module ConvertNotions.

Import CStr ParamDetails.

(** What [strtoll] does once the whitespace and the sign are behind it:
    [neg] tells whether a ['-'] was read, [body] is what follows and
    [consumed] the number of characters before it. *)
Definition strtoll_finish (neg : bool) (body : string) (consumed : nat) : strtoll_result :=
  let '(magnitude, ndigits) := read_digits body 0%Z in
  if (ndigits =? 0)%nat then mk_strtoll 0%Z 0 false
  else
    let v := if neg then (- magnitude)%Z else magnitude in
    let e := consumed + ndigits in
    if (v <? LLONG_MIN)%Z then mk_strtoll LLONG_MIN e true
    else if (LLONG_MAX <? v)%Z then mk_strtoll LLONG_MAX e true
    else mk_strtoll v e false.

End ConvertNotions.

(** * Properties of the parameter map *)

Module ParamProofs.

Import CStr ParamDetails ParameterMapModel ParamSpec.
Local Open Scope string_scope.
Local Open Scope list_scope.

(** ** The loop of [Process_Full_Name] ends *)

Lemma rfind_le (ch : ascii) (s : string) :
  forall start pos, rfind ch s start = Some pos -> pos <= start.
Proof.
  induction s as [| c s IH]; intros start pos; simpl; [discriminate |].
  destruct start as [| start].
  - destruct (Ascii.eqb c ch); intros H; inversion H; lia.
  - destruct (rfind ch s start) as [q |] eqn:Hq.
    + intros H. inversion H. apply IH in Hq. lia.
    + destruct (Ascii.eqb c ch); intros H; inversion H; lia.
Qed.

(** Any amount of fuel above [rfind_start] gives the same result: the loop
    is never cut short by the fuel [Process_Full_Name] provides. *)
Lemma name_loop_fuel (full_name : string) (entries : entries_map) :
  forall fuel1 fuel2 start tables,
    start < fuel1 -> start < fuel2 ->
    name_loop fuel1 full_name start tables entries
    = name_loop fuel2 full_name start tables entries.
Proof.
  induction fuel1 as [| fuel1 IH]; intros fuel2 start tables H1 H2; [lia |].
  destruct fuel2 as [| fuel2]; [lia |]. simpl.
  destruct (rfind "."%char full_name start) as [pos |] eqn:Hr; [| reflexivity].
  apply rfind_le in Hr.
  destruct (pos =? String.length full_name - 1)%nat; [reflexivity |].
  destruct (Nat.eqb_spec pos 0); [reflexivity |].
  destruct (pos =? start)%nat; [reflexivity |].
  destruct (set_mem (substring 0 pos full_name) tables); [reflexivity |].
  destruct (map_has (substring 0 pos full_name) entries); [reflexivity |].
  apply IH; lia.
Qed.

(** What [fgets] hands to the loop for a small file. *)
Example fgets_buffers_sample :
  fgets_buffers ("[grid]" ++ newline ++ "nx=4" ++ newline ++ "ny=8")%string EmptyString 255
  = [("[grid]" ++ newline)%string; ("nx=4" ++ newline)%string; "ny=8"].
Proof. reflexivity. Qed.

(** ** Value conversion *)

(** [try_bool_] accepts exactly the two spellings and reports [boolean]
    on anything else, leaving [val] alone. *)
Lemma try_bool_accepts (str : string) (val : bool) :
  (fst (try_bool_ str val) = none <-> str = "true" \/ str = "false") /\
  (fst (try_bool_ str val) <> none -> try_bool_ str val = (boolean, val)) /\
  try_bool_ "true" val = (none, true) /\
  try_bool_ "false" val = (none, false).
Proof.
  unfold try_bool_.
  destruct (String.eqb_spec str "true") as [Ht | Ht];
    [| destruct (String.eqb_spec str "false") as [Hf | Hf]]; simpl;
    repeat split; intros; auto; try congruence.
  destruct H; congruence.
Qed.

(** A parameter line whose value is blank stores the empty string. *)
Lemma blank_value_is_stored :
  ParameterMap_of_file ("n= " ++ newline)%string [] = inr [("n", mkEntry EmptyString false)].
Proof. reflexivity. Qed.

(** C7. [try_int64_] on the empty string: [strtoll] converts nothing and
    leaves [ptr_end] at the start, which is also the end of the string, so
    the call reports success (no error) with the value 0, although the string
    is not a base-10 integer. *)
Theorem try_int64_empty_string_succeeds (val : Z) :
  try_int64_ EmptyString val = (none, 0%Z).
Proof. reflexivity. Qed.

(** Among the strings [strtoll] converts nothing of, the empty one is the
    only one that is accepted. *)
Lemma no_conversion_accepted_only_when_empty (str : string) (val : Z) :
  strtoll str = mk_strtoll 0%Z 0 false ->
  (fst (try_int64_ str val) = none <-> str = EmptyString).
Proof.
  intros Hs. unfold try_int64_. rewrite Hs. cbn [st_erange st_end].
  destruct str as [| c str']; simpl; split; intros H; try reflexivity; discriminate.
Qed.

(** Where the conversion behaves as announced. *)
Example try_int64_samples :
  try_int64_ "42" 7 = (none, 42%Z) /\
  try_int64_ "-9223372036854775808" 7 = (none, (-9223372036854775808)%Z) /\
  try_int64_ "9223372036854775808" 7 = (out_of_range, 7%Z) /\
  try_int64_ "123abc" 7 = (generic, 7%Z) /\
  try_int64_ "1.5" 7 = (generic, 7%Z) /\
  try_int64_ "abc" 7 = (generic, 7%Z).
Proof. repeat split; reflexivity. Qed.

(** ** The unused-parameter report *)

Lemma warn_loop_no_abort (entries : entries_map) (ign : string_set) (sup : bool) :
  forall (n : nat) (printed : list string),
    warn_loop entries ign false sup n printed =
    (Returned (n + List.length (unused_entries entries ign)),
     printed ++ (if sup then [] else map warning_of (unused_entries entries ign))).
Proof.
  induction entries as [| kv rest IH]; intros n printed; simpl.
  - rewrite Nat.add_0_r. destruct sup; now rewrite app_nil_r.
  - destruct (is_unused ign kv) eqn:Hu.
    + rewrite IH. simpl. f_equal.
      * f_equal. lia.
      * destruct sup; [reflexivity |]. now rewrite <- app_assoc.
    + apply IH.
Qed.

Lemma warn_loop_abort (entries : entries_map) (ign : string_set) (sup : bool) :
  forall (n : nat) (printed : list string),
    warn_loop entries ign true sup n printed =
    match unused_entries entries ign with
    | [] => (Returned n, printed)
    | kv :: _ => (Aborted (pair_text (fst kv) (param_str (snd kv))), printed)
    end.
Proof.
  induction entries as [| kv rest IH]; intros n printed; simpl; [reflexivity |].
  destruct (is_unused ign kv) eqn:Hu; [reflexivity | apply IH].
Qed.

(** C8 (as amended).  Without [abort_on_warning] the call returns the number
    of entries that were never accessed and are not ignored, and prints one
    warning with the name and the value of each of them, in order, unless
    [suppress_warning_msg] is set, in which case nothing is printed.  With
    [abort_on_warning] it prints nothing, aborts on the first such entry and
    returns 0 when there is none.  Accessed and ignored entries are never
    reported. *)
Theorem warn_unused_parameters_report
    (entries : entries_map) (ignore_params : string_set)
    (abort_on_warning suppress_warning_msg : bool) :
  let unused := unused_entries entries ignore_params in
  (forall kv, In kv unused <->
     In kv entries /\ accessed (snd kv) = false /\ set_mem (fst kv) ignore_params = false) /\
  warn_unused_parameters entries ignore_params abort_on_warning suppress_warning_msg =
    if abort_on_warning
    then match unused with
         | [] => (Returned 0, [])
         | kv :: _ => (Aborted (pair_text (fst kv) (param_str (snd kv))), [])
         end
    else (Returned (List.length unused),
          if suppress_warning_msg then [] else map warning_of unused).
Proof.
  intros unused. split.
  - intros kv. unfold unused, unused_entries. rewrite filter_In. unfold is_unused.
    rewrite andb_true_iff, !negb_true_iff. tauto.
  - unfold warn_unused_parameters. destruct abort_on_warning.
    + apply warn_loop_abort.
    + rewrite warn_loop_no_abort. reflexivity.
Qed.

(** C8, the claim as written fails: with [suppress_warning_msg] an entry that
    was never accessed is counted, yet no warning is printed for it and the
    call does not abort. *)
Lemma warn_unused_parameters_silent :
  warn_unused_parameters [("n_steps", mkEntry "10" false)] [] false true
  = (Returned 1, []).
Proof. reflexivity. Qed.

(** ** Lines and tokens without a usable ['='] *)

(** The C string of a buffer is a prefix of it: a character found in the
    former is found at the same place in the latter. *)
Lemma find_c_str (ch : ascii) (s : string) :
  forall pos, find ch (c_str s) = Some pos -> find ch s = Some pos.
Proof.
  induction s as [| c s IH]; intros pos; simpl; [discriminate |].
  destruct (Ascii.eqb c Ascii.zero); simpl; [discriminate |].
  destruct (Ascii.eqb c ch); [auto |].
  destruct (find ch (c_str s)) as [p |]; [| discriminate].
  now rewrite (IH p eq_refl).
Qed.

Lemma c_str_length (s : string) : String.length (c_str s) <= String.length s.
Proof.
  induction s as [| c s IH]; simpl; [lia |].
  destruct (Ascii.eqb c Ascii.zero); simpl; lia.
Qed.

Lemma find_lt (ch : ascii) (s : string) :
  forall pos, find ch s = Some pos -> pos < String.length s.
Proof.
  induction s as [| c s IH]; intros pos; simpl; [discriminate |].
  destruct (Ascii.eqb c ch); [intros H; inversion H; lia |].
  destruct (find ch s) as [p |]; [| discriminate].
  intros H. inversion H. specialize (IH p eq_refl). lia.
Qed.

Lemma unusable_gives_empty_key (buffer : string) :
  equals_sign_unusable buffer = true ->
  Try_Extract_Key_Value_View buffer = mkKV EmptyString EmptyString.
Proof.
  unfold equals_sign_unusable, Try_Extract_Key_Value_View. cbv zeta.
  destruct (find "="%char (c_str buffer)) as [pos |] eqn:Hf; [| reflexivity].
  rewrite (find_c_str _ _ _ Hf). intros Hu.
  pose proof (find_lt _ _ _ Hf) as Hlt. pose proof (c_str_length buffer) as Hle.
  destruct (Nat.eqb_spec pos 0) as [-> | Hp]; [reflexivity |]. simpl in Hu.
  apply Nat.eqb_eq in Hu.
  replace (pos + 1 =? String.length (c_str buffer))%nat with true
    by (symmetry; apply Nat.eqb_eq; lia).
  reflexivity.
Qed.

Lemma run_all_app (step : ctor_state -> string -> exn + ctor_state)
    (pre post : list string) :
  forall st,
    run_all step st (pre ++ post) =
    match run_all step st pre with
    | inl e => inl e
    | inr st' => run_all step st' post
    end.
Proof.
  induction pre as [| x pre IH]; intros st; simpl; [reflexivity |].
  destruct (step st x); [reflexivity | apply IH].
Qed.

Lemma run_all_skip (step : ctor_state -> string -> exn + ctor_state)
    (x : string) (pre post : list string) :
  (forall st, step st x = inr st) ->
  forall st, run_all step st (pre ++ x :: post) = run_all step st (pre ++ post).
Proof.
  intros Hskip st. rewrite !run_all_app.
  destruct (run_all step st pre) as [e | st']; [reflexivity |].
  simpl. now rewrite Hskip.
Qed.

(** C9 (as amended).  When the buffer holds no ['='], or its first ['='] is
    its first or its last character, the extracted key is empty; such a
    command-line token, and such a file buffer that does not start a table
    heading, is skipped: the step neither throws nor changes anything, and the
    constructed map is the one obtained without it. *)
Theorem unusable_input_is_skipped (buffer : string) :
  equals_sign_unusable buffer = true ->
  key (Try_Extract_Key_Value_View buffer) = EmptyString /\
  (forall st, parse_cli_arg st buffer = inr st) /\
  (forall buffers pre post,
      ParameterMap_ctor buffers (pre ++ buffer :: post)
      = ParameterMap_ctor buffers (pre ++ post)) /\
  (front buffer <> Some "["%char ->
   (forall st, parse_line st buffer = inr st) /\
   (forall pre post argv,
      ParameterMap_ctor (pre ++ buffer :: post) argv
      = ParameterMap_ctor (pre ++ post) argv)).
Proof.
  intros Hu. pose proof (unusable_gives_empty_key buffer Hu) as Hkv.
  assert (Hcli : forall st, parse_cli_arg st buffer = inr st).
  { intros st. unfold parse_cli_arg. rewrite Hkv. reflexivity. }
  split; [now rewrite Hkv |]. split; [exact Hcli |]. split.
  - intros buffers pre post. unfold ParameterMap_ctor.
    destruct (run_all parse_line initial_state buffers) as [e | st]; [reflexivity |].
    now rewrite (run_all_skip parse_cli_arg buffer pre post Hcli).
  - intros Hfront.
    assert (Hline : forall st, parse_line st buffer = inr st).
    { intros st. unfold parse_line, parse_param_line. rewrite Hkv. simpl.
      destruct (front buffer) as [c |] eqn:Hc; [| reflexivity].
      destruct (Ascii.eqb c (ascii_of_nat 10) || Ascii.eqb c "#" || Ascii.eqb c ";");
        [reflexivity |].
      destruct (Ascii.eqb_spec c "["%char) as [-> | _]; [congruence | reflexivity]. }
    split; [exact Hline |].
    intros pre post argv. unfold ParameterMap_ctor.
    now rewrite (run_all_skip parse_line buffer pre post Hline).
Qed.

Lemma unusable_input_is_skipped_witness :
  equals_sign_unusable "nx" = true /\
  key (Try_Extract_Key_Value_View "nx") = EmptyString /\
  parse_cli_arg initial_state "nx" = inr initial_state /\
  parse_line initial_state "nx" = inr initial_state.
Proof.
  assert (Hu : equals_sign_unusable "nx" = true) by reflexivity.
  destruct (unusable_input_is_skipped "nx" Hu) as (Hk & Hcli & _ & Hline).
  split; [exact Hu |]. split; [exact Hk |]. split; [apply Hcli |].
  apply Hline. discriminate.
Defined.

(** C9, the claim as written fails on file lines.  A line without any ['=']
    that opens with ['['] is read as a table heading and makes the
    constructor throw; and in a line that ends right after its ['='] the
    buffer still holds the newline, so the pair is stored with an empty
    value. *)
Lemma unusable_line_not_skipped :
  (equals_sign_unusable ("[x" ++ newline)%string = true /\
   ParameterMap_of_file ("[x" ++ newline)%string []
   = inl (runtime_error "problem parsing a parameter-table header")) /\
  (find "="%char "key=" = Some 3 /\ String.length "key=" = 4 /\
   ParameterMap_of_file ("key=" ++ newline)%string []
   = inr [("key", mkEntry EmptyString false)]).
Proof. repeat split; reflexivity. Qed.

(** ** Table headings and name collisions *)

(** A heading that was already declared makes the step throw. *)
Lemma repeated_heading_throws (st : ctor_state) (buff hdr : string) :
  heading_of buff = Some hdr ->
  set_mem hdr (explicit_tables st) = true ->
  exists what, parse_table_header st buff = inl (runtime_error what).
Proof.
  unfold heading_of, parse_table_header. intros Hh Hmem.
  destruct (back (rstrip (c_str buff))) as [c |]; [| discriminate].
  destruct (Ascii.eqb_spec c "]"%char) as [-> | Hne].
  - injection Hh as Hh. rewrite Hh.
    destruct (String.length hdr =? 0)%nat; [eexists; reflexivity |].
    rewrite Hmem. eexists; reflexivity.
  - exfalso. revert Hh. clear - Hne.
    destruct c as [[] [] [] [] [] [] [] []]; try discriminate. congruence.
Qed.

(** A heading that is the name of a stored parameter makes the step throw. *)
Lemma heading_parameter_collision_throws (st : ctor_state) (buff hdr : string) :
  heading_of buff = Some hdr ->
  map_has hdr (entries_ st) = true ->
  exists what, parse_table_header st buff = inl (runtime_error what).
Proof.
  unfold heading_of, parse_table_header. intros Hh Hmem.
  destruct (back (rstrip (c_str buff))) as [c |]; [| discriminate].
  destruct (Ascii.eqb_spec c "]"%char) as [-> | Hne].
  - injection Hh as Hh. rewrite Hh.
    destruct (String.length hdr =? 0)%nat; [eexists; reflexivity |].
    destruct (set_mem hdr (explicit_tables st)); [eexists; reflexivity |].
    rewrite Hmem. eexists; reflexivity.
  - exfalso. revert Hh. clear - Hne.
    destruct c as [[] [] [] [] [] [] [] []]; try discriminate. congruence.
Qed.

(** A name whose innermost table prefix is the name of a stored parameter,
    and not yet a known table, is reported. *)
Lemma unregistered_prefix_collision_reported
    (full_name : string) (tables : string_set) (entries : entries_map) (pos : nat) :
  count (fun ch => negb (allowed_char ch)) full_name = 0 ->
  rfind "."%char full_name (String.length full_name - 1) = Some pos ->
  pos <> String.length full_name - 1 -> pos <> 0 ->
  set_mem (substring 0 pos full_name) tables = false ->
  map_has (substring 0 pos full_name) entries = true ->
  is_empty (fst (Process_Full_Name full_name tables entries)) = false.
Proof.
  intros Hc Hr Hend Hstart Hset Hmap. unfold Process_Full_Name. rewrite Hc. simpl.
  destruct (String.length full_name) as [| n] eqn:Hn.
  - destruct full_name; simpl in *; discriminate.
  - cbn [name_loop]. rewrite Hn, Hr.
    rewrite (proj2 (Nat.eqb_neq _ _) Hend), (proj2 (Nat.eqb_neq _ _) Hstart).
    rewrite Hset, Hmap. reflexivity.
Qed.

(** The file-level checks at work. *)
Example heading_collisions_in_files :
  ParameterMap_of_file ("[grid]" ++ newline ++ "[grid]  " ++ newline)%string []
  = inl (runtime_error "the [grid] header appears more than once") /\
  ParameterMap_of_file ("grid=1" ++ newline ++ "[grid]" ++ newline)%string []
  = inl (runtime_error "the [grid] header collides with a parameter of the same name") /\
  (exists what,
     ParameterMap_of_file ("grid=1" ++ newline ++ "[grid.x]" ++ newline)%string []
     = inl (runtime_error what)).
Proof. repeat split; try reflexivity. eexists; reflexivity. Qed.

(** C6.  The heading [a] is registered as a table; the token [a=2] is then
    stored as a parameter named [a] (nothing compares a parameter name with
    the known tables), and the token [a.y=3], whose table prefix [a] is by
    now the name of a stored parameter, is accepted as well because
    [Process_Full_Name] stops at a prefix that is a known table before it
    looks at the parameters.  The constructor returns normally with all three
    entries. *)
Theorem table_prefix_collision_is_stored :
  ParameterMap_of_file ("[a]" ++ newline ++ "x=1" ++ newline)%string ["a=2"; "a.y=3"]
  = inr [("a", mkEntry "2" false); ("a.x", mkEntry "1" false); ("a.y", mkEntry "3" false)].
Proof. reflexivity. Qed.

End ParamProofs.

(** * Properties of the round-off comparison *)

Module TestingProofs.

Import TestingUtilities.
Local Open Scope Z_scope.

(** ** The default tolerance *)

(** [default_fixedEpsilon] is the double of the literal [1E-14]: the
    correctly rounded quotient of 1 by 10^14, both of which are doubles. *)
Example default_fixedEpsilon_value :
  is_double default_fixedEpsilon /\
  value_of default_fixedEpsilon
  = SFdiv prec emax (value_of dbl_one)
      (binary_normalize prec emax 100000000000000 0 false).
Proof. split; [unfold is_double, default_fixedEpsilon; lia | reflexivity]. Qed.

(** ** Comparison of values *)

Lemma SFcompare_swap (f1 f2 : spec_float) :
  SFcompare f2 f1 = option_map CompOpp (SFcompare f1 f2).
Proof.
  destruct f1 as [s1 | s1 | | s1 m1 e1], f2 as [s2 | s2 | | s2 m2 e2];
    try destruct s1; try destruct s2; simpl; try reflexivity.
  - rewrite (Z.compare_antisym e1 e2).
    destruct (e1 ?= e2); simpl; try reflexivity.
    f_equal. rewrite CompOpp_involutive.
    now rewrite Pos.compare_cont_antisym.
  - rewrite (Z.compare_antisym e1 e2).
    destruct (e1 ?= e2); simpl; try reflexivity.
    f_equal. now rewrite Pos.compare_cont_antisym.
Qed.

Lemma dbl_eq_sym (a b : double) : dbl_eq a b = dbl_eq b a.
Proof.
  unfold dbl_eq, SFeqb. rewrite (SFcompare_swap (value_of a) (value_of b)).
  destruct (SFcompare (value_of a) (value_of b)) as [[] |]; reflexivity.
Qed.

(** ** The reinterpreted bits *)

Lemma wrap64_range (z : Z) : - 2 ^ 63 <= wrap64 z < 2 ^ 63.
Proof.
  unfold wrap64. pose proof (Z.mod_pos_bound (z + 2 ^ 63) (2 ^ 64) ltac:(lia)). lia.
Qed.

Lemma wrap64_small (z : Z) : - 2 ^ 63 <= z < 2 ^ 63 -> wrap64 z = z.
Proof.
  intros Hz. unfold wrap64. rewrite Z.mod_small; lia.
Qed.

(** The sign of the reinterpreted integer is the sign bit of the double. *)
Lemma memcpy_int64_sign (a : double) :
  is_double a -> (memcpy_int64 a <? 0) = sign_bit a.
Proof.
  unfold is_double, memcpy_int64, sign_bit, wrap64. intros Ha.
  rewrite Z.testbit_eqb by lia.
  destruct (Z_lt_ge_dec a (2 ^ 63)) as [Hlt | Hge].
  - rewrite (Z.div_small a (2 ^ 63)) by lia.
    rewrite (Z.mod_small (a + 2 ^ 63)) by lia.
    simpl. apply Z.ltb_ge. lia.
  - assert (Hq : a / 2 ^ 63 = 1).
    { symmetry. apply (Z.div_unique a (2 ^ 63) 1 (a - 2 ^ 63)); lia. }
    rewrite Hq.
    assert (Hm : (a + 2 ^ 63) mod 2 ^ 64 = a - 2 ^ 63).
    { symmetry. apply (Z.mod_unique (a + 2 ^ 63) (2 ^ 64) 1 (a - 2 ^ 63)); lia. }
    rewrite Hm. simpl. apply Z.ltb_lt. lia.
Qed.

(** The distance computed from two integers of the same sign does not wrap:
    it is the absolute value of their difference. *)
Lemma same_sign_distance (ia ib : Z) :
  - 2 ^ 63 <= ia < 2 ^ 63 -> - 2 ^ 63 <= ib < 2 ^ 63 ->
  (ia <? 0) = (ib <? 0) ->
  (if wrap64 (ia - ib) <? 0 then wrap64 (- wrap64 (ia - ib)) else wrap64 (ia - ib))
  = Z.abs (ia - ib).
Proof.
  intros Ha Hb Hs.
  assert (Hd : - 2 ^ 63 < ia - ib < 2 ^ 63).
  { destruct (Z.ltb_spec ia 0), (Z.ltb_spec ib 0); try discriminate; lia. }
  rewrite (wrap64_small (ia - ib)) by lia.
  destruct (Z.ltb_spec (ia - ib) 0).
  - rewrite wrap64_small by lia. lia.
  - lia.
Qed.

Lemma ulpsDistanceDbl_sym (a b : double) :
  ulpsDistanceDbl a b = ulpsDistanceDbl b a.
Proof.
  unfold ulpsDistanceDbl. rewrite (dbl_eq_sym b a).
  destruct (dbl_eq a b); [reflexivity |].
  rewrite (orb_comm (isnan b)), (orb_comm (isinf b)).
  destruct (isnan a || isnan b); [reflexivity |].
  destruct (isinf a || isinf b); [reflexivity |].
  destruct (Bool.eqb (memcpy_int64 a <? 0) (memcpy_int64 b <? 0)) eqn:Hs.
  - rewrite (eqb_true_iff _ _) in Hs.
    replace (Bool.eqb (memcpy_int64 b <? 0) (memcpy_int64 a <? 0)) with true
      by (symmetry; apply eqb_true_iff; congruence).
    simpl negb. cbv iota zeta.
    rewrite (same_sign_distance (memcpy_int64 a) (memcpy_int64 b));
      auto using wrap64_range.
    rewrite (same_sign_distance (memcpy_int64 b) (memcpy_int64 a));
      auto using wrap64_range.
    lia.
  - replace (Bool.eqb (memcpy_int64 b <? 0) (memcpy_int64 a <? 0)) with false.
    + reflexivity.
    + symmetry. apply eqb_false_iff. apply eqb_false_iff in Hs. congruence.
Qed.

(** C10 (as amended).  With the default tolerances [nearlyEqualDbl] returns
    true exactly when the ULP distance is at most 4 or [|a - b| <= 1e-14]; it
    hands back that distance and that difference; the distance is symmetric,
    is 0 when [a == b], and for [a != b] it is the largest [int64_t] as soon
    as one argument is a NaN or an infinity or the two sign bits differ, and
    the absolute difference of the reinterpreted bits otherwise. *)
Theorem nearlyEqualDbl_default_spec (a b : double) :
  is_double a -> is_double b ->
  let '(result, absoluteDiff, ulpsDiff) := nearlyEqualDbl_default a b in
  ulpsDiff = ulpsDistanceDbl a b /\
  absoluteDiff = abs_diff a b /\
  (result = true <->
     ulpsDistanceDbl a b <= 4 \/
     SFleb (abs_diff a b) (value_of default_fixedEpsilon) = true) /\
  ulpsDistanceDbl a b = ulpsDistanceDbl b a /\
  (dbl_eq a b = true -> ulpsDistanceDbl a b = 0) /\
  (dbl_eq a b = false ->
   isnan a = true \/ isnan b = true \/ isinf a = true \/ isinf b = true \/
   sign_bit a <> sign_bit b ->
   ulpsDistanceDbl a b = INT64_MAX) /\
  (dbl_eq a b = false ->
   isnan a = false -> isnan b = false -> isinf a = false -> isinf b = false ->
   sign_bit a = sign_bit b ->
   ulpsDistanceDbl a b = Z.abs (memcpy_int64 a - memcpy_int64 b)).
Proof.
  intros Ha Hb.
  assert (Hres :
    nearlyEqualDbl_default a b =
    ((ulpsDistanceDbl a b <=? 4) || SFleb (abs_diff a b) (value_of default_fixedEpsilon),
     abs_diff a b, ulpsDistanceDbl a b)).
  { unfold nearlyEqualDbl_default, nearlyEqualDbl, default_ulpsEpsilon.
    destruct (ulpsDistanceDbl a b <=? 4); [reflexivity |].
    destruct (SFleb (abs_diff a b) (value_of default_fixedEpsilon)); reflexivity. }
  rewrite Hres. split; [reflexivity |]. split; [reflexivity |]. split.
  { rewrite orb_true_iff, Z.leb_le. tauto. }
  split; [apply ulpsDistanceDbl_sym |].
  unfold ulpsDistanceDbl.
  rewrite <- (memcpy_int64_sign a Ha), <- (memcpy_int64_sign b Hb).
  split; [intros ->; reflexivity |]. split.
  - intros -> H.
    destruct (isnan a); [reflexivity |]. destruct (isnan b); [reflexivity |].
    destruct (isinf a); [reflexivity |]. destruct (isinf b); [reflexivity |].
    simpl.
    destruct H as [H | [H | [H | [H | H]]]]; try discriminate.
    apply eqb_false_iff in H. rewrite H. reflexivity.
  - intros -> -> -> -> -> Hs. simpl orb. cbv iota.
    rewrite (proj2 (eqb_true_iff _ _) Hs). simpl negb. cbv iota zeta.
    apply same_sign_distance; auto using wrap64_range.
Qed.

Lemma nearlyEqualDbl_default_spec_witness :
  fst (fst (nearlyEqualDbl_default dbl_one (dbl_one + 3))) = true /\
  ulpsDistanceDbl dbl_one (dbl_one + 3) = 3 /\
  ulpsDistanceDbl (dbl_one + 3) dbl_one = 3.
Proof.
  assert (Ha : is_double dbl_one) by (unfold is_double, dbl_one; lia).
  assert (Hb : is_double (dbl_one + 3)) by (unfold is_double, dbl_one; lia).
  pose proof (nearlyEqualDbl_default_spec dbl_one (dbl_one + 3) Ha Hb) as H.
  destruct (nearlyEqualDbl_default dbl_one (dbl_one + 3)) as [[res ad] ud] eqn:E.
  destruct H as (Hu & _ & Hr & Hsym & _).
  assert (Hd : ulpsDistanceDbl dbl_one (dbl_one + 3) = 3) by reflexivity.
  split; [cbn [fst]; apply Hr; left; rewrite Hd; lia |].
  split; [exact Hd |]. rewrite <- Hsym. exact Hd.
Defined.

(** C10, the claim as written fails: two equal infinities are at distance 0
    although both arguments are infinite, and so are the two zeros although
    their signs differ. *)
Lemma ulps_distance_of_equal_infinities :
  is_double dbl_pos_inf /\ isinf dbl_pos_inf = true /\
  ulpsDistanceDbl dbl_pos_inf dbl_pos_inf = 0 /\
  ulpsDistanceDbl dbl_pos_inf dbl_pos_inf <> INT64_MAX /\
  sign_bit dbl_pos_zero <> sign_bit dbl_neg_zero /\
  ulpsDistanceDbl dbl_pos_zero dbl_neg_zero = 0.
Proof.
  unfold is_double, dbl_pos_inf.
  repeat split; try reflexivity; try lia; try discriminate.
Qed.

End TestingProofs.

(** * Properties of the exact Riemann solver *)

Module ExactProofs.

Import Exact ExactSpec.
Local Open Scope R_scope.

(** Decimal literals are unfolded to quotients of integers before the
    arithmetic tactics run. *)
Ltac lits := unfold Q2R in *; cbn [QArith_base.Qnum QArith_base.Qden] in *.

Lemma TOL_pos : 0 < TOL.
Proof. unfold TOL. lits. lra. Qed.

Lemma TOL_value : TOL = / 1000000.
Proof. unfold TOL. lits. lra. Qed.

(** ** The initial guess *)

Lemma guessp_unfold (dl vxl pl cl dr vxr pr cr gamma : R) :
  guessp dl vxl pl cl dr vxr pr cr gamma =
  let ts := two_shock_pressure (Rmax 0 (pvrs_pressure dl vxl pl cl dr vxr pr cr))
              dl vxl pl dr vxr pr gamma in
  if Rlt_dec ts 0 then TOL else ts.
Proof.
  unfold guessp, two_shock_pressure, pvrs_pressure.
  assert (Hppv : forall x : R, (if Rlt_dec x 0.0 then 0.0 else x) = Rmax 0 x).
  { intros x. unfold Rmax.
    destruct (Rlt_dec x 0.0), (Rle_dec 0 x); lits; lra. }
  rewrite Hppv. lits.
  replace (5 * / 10) with (/ 2) by lra.
  replace (125 * / 1000) with (/ 8) by lra.
  replace (20 * / 10) with 2 by lra.
  replace (10 * / 10) with 1 by lra.
  replace (0 * / 10) with 0 by lra.
  reflexivity.
Qed.

(** The floor of [guessp] at work: a negative two-shock value is replaced by
    [TOL], so the guess is never negative. *)
Lemma guessp_never_negative (dl vxl pl cl dr vxr pr cr gamma : R) :
  0 <= guessp dl vxl pl cl dr vxr pr cr gamma.
Proof.
  rewrite guessp_unfold. cbv zeta. pose proof TOL_pos.
  destruct (Rlt_dec _ 0); lra.
Qed.

(** C5.  For two states of density 1, pressure 2 and sound speed 2
    ([gamma = 2]) that move apart with the speeds -2 and 2, [guessp] returns
    exactly 0: the PVRS pressure is negative and is clamped to 0, the
    two-shock value built on it is 0, and the test [p_0 < 0.0] that installs
    [TOL] lets it through.  The guess is not positive. *)
Theorem guessp_zero_guess :
  sqrt (2 * 2 / 1) = 2 /\
  guessp 1 (-2) 2 2 1 2 2 2 2 = 0 /\
  ~ 0 < guessp 1 (-2) 2 2 1 2 2 2 2.
Proof.
  assert (Hg : guessp 1 (-2) 2 2 1 2 2 2 2 = 0).
  { rewrite guessp_unfold. unfold two_shock_pressure, pvrs_pressure.
    replace (/ 2 * (2 + 2) + / 8 * (-2 - 2) * (1 + 1) * (2 + 2)) with (-2) by lra.
    rewrite Rmax_left by lra.
    replace (2 / ((2 + 1) * 1) / ((2 - 1) / (2 + 1) * 2 + 0)) with 1 by field.
    rewrite sqrt_1. cbv zeta.
    replace ((1 * 2 + 1 * 2 - (2 - -2)) / (1 + 1)) with 0 by lra.
    destruct (Rlt_dec 0 0); lra. }
  split; [| split; [exact Hg | rewrite Hg; lra]].
  replace (2 * 2 / 1) with (2 * 2) by lra. apply sqrt_square. lra.
Qed.

(** ** Identical left and right states *)

Lemma lit_zero : 0.0 = 0.
Proof. lits. lra. Qed.

Lemma lit_one : 1.0 = 1.
Proof. lits. lra. Qed.

Lemma lit_two : 2.0 = 2.
Proof. lits. lra. Qed.

Lemma lit_half : 0.5 = / 2.
Proof. lits. lra. Qed.

Ltac norm_lits := rewrite ?lit_zero, ?lit_one, ?lit_two, ?lit_half.

(** Equality of two lists of reals of the same length, entry by entry. *)
Ltac list_eq := repeat (apply (f_equal2 (@cons R)); [try lra |]); try reflexivity.

Lemma pow_pos_base (x y : R) : 0 < x -> pow x y = Rpower x y.
Proof.
  intros Hx. unfold pow. destruct (Rlt_dec 0 x); [reflexivity | contradiction].
Qed.

Lemma pow_one_base (y : R) : pow 1 y = 1.
Proof.
  rewrite pow_pos_base by lra. unfold Rpower. rewrite ln_1, Rmult_0_r. apply exp_0.
Qed.

(** At [p = pk] the pressure function vanishes. *)
Lemma prefun_at_pk (dk pk ck gamma : R) :
  0 < pk -> prefun pk dk pk ck gamma = (0, 1 / (dk * ck)).
Proof.
  intros Hp. unfold prefun.
  destruct (Rle_dec pk pk) as [_ | H]; [| exfalso; apply H; lra].
  replace (pk / pk) with 1 by (field; lra).
  rewrite !pow_one_base. norm_lits. f_equal; ring.
Qed.

Lemma guessp_identical (d v p c gamma : R) :
  0 < d -> 0 < p -> 1 < gamma -> guessp d v p c d v p c gamma = p.
Proof.
  intros Hd Hp Hg. rewrite guessp_unfold. unfold two_shock_pressure, pvrs_pressure.
  replace (/ 2 * (p + p) + / 8 * (v - v) * (d + d) * (c + c)) with p by lra.
  rewrite Rmax_right by lra.
  set (g := sqrt (2 / ((gamma + 1) * d) / ((gamma - 1) / (gamma + 1) * p + p))).
  assert (Hgpos : 0 < g).
  { apply sqrt_lt_R0. apply Rdiv_lt_0_compat.
    - apply Rdiv_lt_0_compat; [lra |]. apply Rmult_lt_0_compat; lra.
    - assert (0 < (gamma - 1) / (gamma + 1)) by (apply Rdiv_lt_0_compat; lra).
      assert (0 < (gamma - 1) / (gamma + 1) * p) by (apply Rmult_lt_0_compat; lra).
      lra. }
  cbv zeta.
  replace ((g * p + g * p - (v - v)) / (g + g)) with p by (field; lra).
  destruct (Rlt_dec p 0); lra.
Qed.

(** One pass of the loop of [starpu]. *)
Lemma newton_loop_eq (dl vxl pl cl dr vxr pr cr gamma : R) (more done : nat) (pold : R) :
  newton_loop dl vxl pl cl dr vxr pr cr gamma more done pold =
  let '(fl, fld) := prefun pold dl pl cl gamma in
  let '(fr, frd) := prefun pold dr pr cr gamma in
  let p := pold - (fl + fr + vxr - vxl) / (fld + frd) in
  let change := 2.0 * fabs ((p - pold) / (p + pold)) in
  if Rle_dec change TOL then mkNewton p fl fr (S done) true
  else
    let p := if Rlt_dec p 0.0 then TOL else p in
    match more with
    | O => mkNewton p fl fr (S done) false
    | S more' => newton_loop dl vxl pl cl dr vxr pr cr gamma more' (S done) p
    end.
Proof. destruct more; reflexivity. Qed.

(** With identical states the loop of [starpu] stops in its first pass, on
    the pressure of the states. *)
Lemma starpu_loop_identical (d v p c gamma : R) :
  0 < d -> 0 < p -> 1 < gamma ->
  starpu_loop d v p c d v p c gamma = mkNewton p 0 0 1 true.
Proof.
  intros Hd Hp Hg. unfold starpu_loop. rewrite guessp_identical by assumption.
  rewrite newton_loop_eq. rewrite prefun_at_pk by assumption. cbv zeta.
  replace (p - (0 + 0 + v - v) / (1 / (d * c) + 1 / (d * c))) with p
    by (unfold Rdiv; ring).
  replace ((p - p) / (p + p)) with 0 by (unfold Rdiv; ring).
  unfold fabs. rewrite Rabs_R0, Rmult_0_r.
  destruct (Rle_dec 0 TOL) as [_ | H]; [reflexivity |].
  exfalso. apply H. pose proof TOL_pos. lra.
Qed.

Lemma starpu_identical (d v p c gamma : R) :
  0 < d -> 0 < p -> 1 < gamma ->
  starpu d v p c d v p c gamma = (p, v).
Proof.
  intros Hd Hp Hg. unfold starpu. rewrite starpu_loop_identical by assumption.
  simpl. norm_lits. f_equal. lra.
Qed.

Lemma sample_identical (d v p c gamma : R) :
  0 < p -> sample p v d v p c d v p c gamma = (d, v, p).
Proof.
  intros Hp. unfold sample.
  replace (p / p) with 1 by (field; lra). rewrite !pow_one_base, !Rmult_1_r.
  destruct (Rge_dec v 0).
  - destruct (Rle_dec p p) as [_ | H]; [| exfalso; apply H; lra].
    destruct (Rge_dec (v - c) 0); [reflexivity |].
    destruct (Rlt_dec (v - c) 0) as [_ | H]; [reflexivity | exfalso; lra].
  - destruct (Rgt_dec p p) as [H | _]; [exfalso; lra |].
    destruct (Rle_dec (v + c) 0); [reflexivity |].
    destruct (Rge_dec (v + c) 0) as [_ | H]; [reflexivity | exfalso; lra].
Qed.

(** The primitives read back from [identical_input], before the floor. *)
Lemma primitives_of_identical (tiny d vx vy vz p gamma ge : R) :
  0 < d -> 1 < gamma ->
  primitives_of tiny (identical_input d vx vy vz p gamma ge) gamma =
  let pf := fmax p tiny in
  let c := sqrt (gamma * pf / d) in
  mkPrim d vx vy vz pf c ge d vx vy vz pf c ge.
Proof.
  intros Hd Hg. unfold primitives_of, identical_input, total_energy, at_. simpl nth.
  norm_lits.
  replace (d * vx / d) with vx by (field; lra).
  replace (d * vy / d) with vy by (field; lra).
  replace (d * vz / d) with vz by (field; lra).
  replace (d * ge / d) with ge by (field; lra).
  replace ((p / (gamma - 1) + / 2 * d * (vx * vx + vy * vy + vz * vz)
            - / 2 * d * (vx * vx + vy * vy + vz * vz)) * (gamma - 1))
    with p by (field; lra).
  reflexivity.
Qed.

(** What the solver returns on [identical_input]: the analytic flux of the
    state whose pressure is the floored one. *)
Lemma identical_states_floored_flux (tiny d vx vy vz p gamma ge : R) :
  0 < d -> 0 < fmax p tiny -> 1 < gamma ->
  let cW := identical_input d vx vy vz p gamma ge in
  star_region tiny cW gamma = (fmax p tiny, vx) /\
  interface_state tiny cW gamma = (d, vx, fmax p tiny) /\
  Calculate_Exact_Fluxes tiny cW gamma =
  [d * vx; d * vx * vx + fmax p tiny; d * vx * vy; d * vx * vz;
   (total_energy d vx vy vz (fmax p tiny) gamma + fmax p tiny) * vx; d * vx * ge].
Proof.
  intros Hd Hp Hg cW.
  assert (Hstar : star_region tiny cW gamma = (fmax p tiny, vx)).
  { unfold star_region, cW. rewrite primitives_of_identical by assumption.
    cbv zeta. cbn [dl vxl pl cl dr vxr pr cr]. now apply starpu_identical. }
  assert (Hint : interface_state tiny cW gamma = (d, vx, fmax p tiny)).
  { unfold interface_state. rewrite Hstar. unfold cW.
    rewrite primitives_of_identical by assumption.
    cbv zeta. cbn [dl vxl pl cl dr vxr pr cr]. now apply sample_identical. }
  split; [exact Hstar |]. split; [exact Hint |].
  unfold Calculate_Exact_Fluxes. rewrite Hint. unfold cW.
  rewrite primitives_of_identical by assumption.
  cbv zeta. cbn [vyl vzl gel vyr vzr ger]. unfold total_energy. norm_lits.
  destruct (Rge_dec vx 0); reflexivity.
Qed.

(** C2 (as amended).  For a state of positive density whose pressure is
    positive and not below the floor [TINY_NUMBER], and an adiabatic index
    above 1, the solver fed with this state on both sides finds the star
    region [p* = p], [u* = u], samples the state itself and returns the
    analytic flux [(rho u, rho u^2 + p, rho u v_y, rho u v_z, (E + p) u)],
    the advected internal energy being carried with the mass flux. *)
Theorem identical_states_give_analytic_flux (TINY_NUMBER d vx vy vz p gamma ge : R) :
  0 < d -> 0 < p -> TINY_NUMBER <= p -> 1 < gamma ->
  let cW := identical_input d vx vy vz p gamma ge in
  star_region TINY_NUMBER cW gamma = (p, vx) /\
  interface_state TINY_NUMBER cW gamma = (d, vx, p) /\
  Calculate_Exact_Fluxes TINY_NUMBER cW gamma = analytic_flux d vx vy vz p gamma ge.
Proof.
  intros Hd Hp Ht Hg cW.
  assert (Hf : fmax p TINY_NUMBER = p) by (unfold fmax; apply Rmax_left; lra).
  pose proof (identical_states_floored_flux TINY_NUMBER d vx vy vz p gamma ge Hd) as H.
  rewrite Hf in H. apply H; assumption.
Qed.

Lemma identical_states_give_analytic_flux_witness :
  Calculate_Exact_Fluxes 1.0e-20 (identical_input 1 1 0 0 1 2 0) 2
  = analytic_flux 1 1 0 0 1 2 0.
Proof.
  apply (identical_states_give_analytic_flux 1.0e-20 1 1 0 0 1 2 0); lits; lra.
Defined.

(** C2, the claim as written fails below the pressure floor: with the floor
    at 1e-20, the state of density 1 at rest with the pressure 1e-21
    ([gamma = 2]) yields the momentum flux 1e-20 instead of its pressure
    1e-21. *)
Lemma identical_states_below_floor :
  0 < 1.0e-21 /\
  Calculate_Exact_Fluxes 1.0e-20 (identical_input 1 0 0 0 1.0e-21 2 0) 2
  = [0; 1.0e-20; 0; 0; 0; 0] /\
  analytic_flux 1 0 0 0 1.0e-21 2 0 = [0; 1.0e-21; 0; 0; 0; 0] /\
  Calculate_Exact_Fluxes 1.0e-20 (identical_input 1 0 0 0 1.0e-21 2 0) 2
  <> analytic_flux 1 0 0 0 1.0e-21 2 0.
Proof.
  assert (Hf : fmax 1.0e-21 1.0e-20 = 1.0e-20).
  { unfold fmax. apply Rmax_right. lits. lra. }
  assert (Hc : Calculate_Exact_Fluxes 1.0e-20 (identical_input 1 0 0 0 1.0e-21 2 0) 2
               = [0; 1.0e-20; 0; 0; 0; 0]).
  { assert (Hpos : 0 < fmax 1.0e-21 1.0e-20) by (rewrite Hf; lits; lra).
    destruct (identical_states_floored_flux 1.0e-20 1 0 0 0 1.0e-21 2 0
                ltac:(lra) Hpos ltac:(lra)) as (_ & _ & H).
    rewrite H, Hf. unfold total_energy. list_eq. }
  assert (Ha : analytic_flux 1 0 0 0 1.0e-21 2 0 = [0; 1.0e-21; 0; 0; 0; 0]).
  { unfold analytic_flux, total_energy. list_eq. }
  split; [lits; lra |]. split; [exact Hc |]. split; [exact Ha |].
  rewrite Hc, Ha. intros H. injection H as H. lits. lra.
Qed.

(** ** Upwinding of the transverse and advected quantities *)

(** The side the fluxes are taken from is chosen by the sign of the sampled
    velocity [us]: the flux of the dual-energy variable is the density flux
    [ds * us] times the specific internal energy of the left cell
    ([cW[10] / cW[0]]) when [us] is non-negative and times the one of the
    right cell ([cW[11] / cW[1]]) otherwise, and the two tangential momentum
    fluxes are the density flux times the tangential velocities of the same
    side. *)
Lemma fluxes_follow_sampled_velocity (TINY_NUMBER : R) (cW : list R) (gamma : R) :
  let w := primitives_of TINY_NUMBER cW gamma in
  let '(ds, us, ps) := interface_state TINY_NUMBER cW gamma in
  let fluxes := Calculate_Exact_Fluxes TINY_NUMBER cW gamma in
  at_ fluxes 0 = ds * us /\
  gel w = at_ cW 10 / at_ cW 0 /\ ger w = at_ cW 11 / at_ cW 1 /\
  vyl w = at_ cW 4 / at_ cW 0 /\ vyr w = at_ cW 5 / at_ cW 1 /\
  vzl w = at_ cW 6 / at_ cW 0 /\ vzr w = at_ cW 7 / at_ cW 1 /\
  at_ fluxes 5 = at_ fluxes 0 * (if Rge_dec us 0 then gel w else ger w) /\
  at_ fluxes 2 = at_ fluxes 0 * (if Rge_dec us 0 then vyl w else vyr w) /\
  at_ fluxes 3 = at_ fluxes 0 * (if Rge_dec us 0 then vzl w else vzr w).
Proof.
  intros w. unfold Calculate_Exact_Fluxes. fold w.
  destruct (interface_state TINY_NUMBER cW gamma) as [[ds us] ps].
  cbv zeta. destruct (Rge_dec us 0); unfold at_; simpl nth; repeat split; reflexivity.
Qed.

(** ** The vacuum-generating pair *)

Lemma Rpower_below_one (x y : R) : 0 < x < 1 -> 0 < y -> 0 < Rpower x y < 1.
Proof.
  intros [Hx0 Hx1] Hy. unfold Rpower. split; [apply exp_pos |].
  rewrite <- exp_0. apply exp_increasing.
  pose proof (ln_increasing x 1 Hx0 Hx1) as Hln. rewrite ln_1 in Hln. nra.
Qed.

Lemma Rpower_neg_exponent (x b : R) :
  0 < x < 1 -> 0 < b <= 1 -> 1 < Rpower x (- b) <= / x.
Proof.
  intros [Hx0 Hx1] [Hb0 Hb1]. unfold Rpower.
  pose proof (ln_increasing x 1 Hx0 Hx1) as Hln. rewrite ln_1 in Hln. split.
  - rewrite <- exp_0. apply exp_increasing. nra.
  - rewrite <- (exp_ln x Hx0) at 2. rewrite <- exp_Ropp.
    destruct (Req_dec (- b * ln x) (- ln x)) as [-> | Hne]; [lra |].
    left. apply exp_increasing. nra.
Qed.

Lemma pow_neg_base_int (x : R) (n : Z) : x < 0 -> pow x (IZR n) = powerRZ x n.
Proof.
  intros Hx. unfold pow.
  destruct (Rlt_dec 0 x); [lra |]. destruct (Req_dec_T x 0); [lra |].
  assert (Hn : Int_part (IZR n) = n) by (symmetry; apply Int_part_spec; lra).
  rewrite Hn. destruct (Req_dec_T (IZR n) (IZR n)); [reflexivity | contradiction].
Qed.

Lemma pratio_a_bounds : 0 < pratio_a < 1.
Proof.
  unfold pratio_a. pose proof TOL_pos. rewrite TOL_value in *.
  rewrite pow_pos_base by lra. apply Rpower_below_one; lits; lra.
Qed.

Lemma pratio_b_bounds : 1 < pratio_b <= 3000000.
Proof.
  unfold pratio_b. rewrite TOL_value. rewrite pow_pos_base by lra.
  replace 3000000 with (/ (/ 1000000 / 3)) by (field; lra).
  apply Rpower_neg_exponent; lits; lra.
Qed.

Lemma prefun_vacuum :
  prefun TOL 1 3 3 3 = ((2.0 / (3 - 1.0)) * 3 * (pratio_a - 1.0), (1.0 / (1 * 3)) * pratio_b).
Proof.
  unfold prefun. destruct (Rle_dec TOL 3) as [_ | H]; [reflexivity |].
  exfalso. apply H. rewrite TOL_value. lra.
Qed.

(** A pass that starts from [TOL] and lands below [-TOL] is not a
    converged one. *)
Lemma change_above_tolerance (p : R) :
  p < - TOL -> ~ 2.0 * fabs ((p - TOL) / (p + TOL)) <= TOL.
Proof.
  intros Hp. pose proof TOL_pos as Ht. rewrite TOL_value in *.
  assert (Hq : 1 < (p - / 1000000) / (p + / 1000000)).
  { apply Rmult_lt_reg_r with (- (p + / 1000000)); [lra |].
    replace ((p - / 1000000) / (p + / 1000000) * - (p + / 1000000))
      with (- (p - / 1000000)) by (field; lra).
    lra. }
  unfold fabs. rewrite Rabs_right by lra. norm_lits. lra.
Qed.

(** When the pass from [TOL] lands below [-TOL], the iterate is reset to
    [TOL], so every pass is the same and the loop runs until the counter ends
    it. *)
Lemma newton_loop_stuck (dl vxl pl cl dr vxr pr cr gamma fl fld fr frd : R) :
  prefun TOL dl pl cl gamma = (fl, fld) ->
  prefun TOL dr pr cr gamma = (fr, frd) ->
  TOL - (fl + fr + vxr - vxl) / (fld + frd) < - TOL ->
  forall more done,
    newton_loop dl vxl pl cl dr vxr pr cr gamma more done TOL
    = mkNewton TOL fl fr (S (done + more)) false.
Proof.
  intros Hl Hr Hp. pose proof TOL_pos as Ht.
  induction more as [| more IH]; intros done;
    rewrite newton_loop_eq, Hl, Hr; cbv zeta;
    (destruct (Rle_dec _ TOL) as [Hc | _];
     [exfalso; exact (change_above_tolerance _ Hp Hc) |]);
    (destruct (Rlt_dec _ 0.0) as [_ | Hn]; [| exfalso; apply Hn; norm_lits; lra]).
  - f_equal. lia.
  - rewrite IH. f_equal. lia.
Qed.

(** The number of passes never exceeds the bound of the loop counter. *)
Lemma newton_loop_iterations (dl vxl pl cl dr vxr pr cr gamma : R) :
  forall more done pold,
    (done < nr_iterations (newton_loop dl vxl pl cl dr vxr pr cr gamma more done pold)
     <= S (done + more))%nat.
Proof.
  induction more as [| more IH]; intros done pold; rewrite newton_loop_eq;
    destruct (prefun pold dl pl cl gamma) as [fl fld];
    destruct (prefun pold dr pr cr gamma) as [fr frd]; cbv zeta;
    destruct (Rle_dec _ TOL); simpl; try lia.
  match goal with |- context [newton_loop _ _ _ _ _ _ _ _ _ more (S done) ?q] =>
    specialize (IH (S done) q) end.
  lia.
Qed.

Lemma guessp_vacuum : guessp 1 (-4) 3 3 1 20 3 3 3 = TOL.
Proof.
  rewrite guessp_unfold. unfold two_shock_pressure, pvrs_pressure.
  replace (/ 2 * (3 + 3) + / 8 * (-4 - 20) * (1 + 1) * (3 + 3)) with (-33) by lra.
  rewrite Rmax_left by lra.
  set (g := sqrt (2 / ((3 + 1) * 1) / ((3 - 1) / (3 + 1) * 3 + 0))).
  assert (Hg : 0 < g <= 1).
  { unfold g. replace (2 / ((3 + 1) * 1) / ((3 - 1) / (3 + 1) * 3 + 0)) with (/ 3)
      by (field; lra).
    split; [apply sqrt_lt_R0; lra |].
    rewrite <- sqrt_1. apply sqrt_le_1_alt. lra. }
  cbv zeta.
  assert (Hts : (g * 3 + g * 3 - (20 - -4)) / (g + g) < 0).
  { apply Rdiv_neg_pos; lra. }
  destruct (Rlt_dec _ 0); [reflexivity | contradiction].
Qed.

Lemma starpu_loop_vacuum :
  starpu_loop 1 (-4) 3 3 1 20 3 3 3
  = mkNewton TOL ((2.0 / (3 - 1.0)) * 3 * (pratio_a - 1.0))
      ((2.0 / (3 - 1.0)) * 3 * (pratio_a - 1.0)) 21 false.
Proof.
  unfold starpu_loop. rewrite guessp_vacuum.
  rewrite (newton_loop_stuck 1 (-4) 3 3 1 20 3 3 3 _ _ _ _ prefun_vacuum prefun_vacuum).
  - reflexivity.
  - pose proof pratio_a_bounds as [Ha0 Ha1]. pose proof pratio_b_bounds as [Hb0 Hb1].
    rewrite TOL_value. norm_lits.
    set (N := 2 / (3 - 1) * 3 * (pratio_a - 1) + 2 / (3 - 1) * 3 * (pratio_a - 1) + 20 - -4).
    set (D := 1 / (1 * 3) * pratio_b + 1 / (1 * 3) * pratio_b).
    assert (HN : 18 < N) by (unfold N; lra).
    assert (HD : 0 < D <= 2000000) by (unfold D; lra).
    assert (Hinv : / 2000000 <= / D) by (apply Rinv_le_contravar; lra).
    assert (HND : 18 * / 2000000 < N / D).
    { unfold Rdiv. apply Rlt_le_trans with (N * / 2000000); [lra |].
      apply Rmult_le_compat_l; lra. }
    lra.
Qed.

Lemma starpu_vacuum : starpu 1 (-4) 3 3 1 20 3 3 3 = (TOL, 8).
Proof.
  unfold starpu. rewrite starpu_loop_vacuum. cbn [nr_p nr_fl nr_fr].
  f_equal. norm_lits. lra.
Qed.

(** C3.  On the vacuum-generating pair the body of the loop of [starpu] runs
    21 times, one more than [nriter = 20]: the counter starts at 0 and the
    loop goes on while [i <= nriter].  No pass meets the tolerance, the last
    iterate is negative and is replaced by [TOL], and the star velocity is
    [0.5 * (vxl + vxr + fr - fl) = 8]. *)
Theorem starpu_runs_21_passes :
  nr_iterations (starpu_loop 1 (-4) 3 3 1 20 3 3 3) = 21%nat /\
  (nriter < nr_iterations (starpu_loop 1 (-4) 3 3 1 20 3 3 3))%nat /\
  nr_break (starpu_loop 1 (-4) 3 3 1 20 3 3 3) = false /\
  starpu 1 (-4) 3 3 1 20 3 3 3 = (TOL, 8).
Proof.
  rewrite starpu_vacuum, starpu_loop_vacuum. cbn [nr_iterations nr_break].
  unfold nriter. repeat split; lia.
Qed.

(** The loop never runs more than [nriter + 1] times, and runs once at
    least. *)
Lemma starpu_loop_iterations (dl vxl pl cl dr vxr pr cr gamma : R) :
  (1 <= nr_iterations (starpu_loop dl vxl pl cl dr vxr pr cr gamma) <= nriter + 1)%nat.
Proof.
  unfold starpu_loop.
  pose proof (newton_loop_iterations dl vxl pl cl dr vxr pr cr gamma nriter 0
                (guessp dl vxl pl cl dr vxr pr cr gamma)).
  lia.
Qed.

(** The two pressures handed to the solver are never below the floor. *)
Lemma pressure_floor_applied (TINY_NUMBER : R) (cW : list R) (gamma : R) :
  TINY_NUMBER <= pl (primitives_of TINY_NUMBER cW gamma) /\
  TINY_NUMBER <= pr (primitives_of TINY_NUMBER cW gamma).
Proof.
  unfold primitives_of, fmax. cbn [pl pr]. split; apply Rmax_r.
Qed.

Lemma primitives_of_vacuum (TINY_NUMBER : R) :
  TINY_NUMBER <= 3 ->
  primitives_of TINY_NUMBER vacuum_cW 3 = mkPrim 1 (-4) 0 0 3 3 0 1 20 0 0 3 3 0.
Proof.
  intros Ht. unfold primitives_of, vacuum_cW, at_. simpl nth. norm_lits.
  replace ((19 / 2 - / 2 * 1 * (-4 / 1 * (-4 / 1) + 0 / 1 * (0 / 1) + 0 / 1 * (0 / 1)))
           * (3 - 1)) with 3 by lra.
  replace ((403 / 2 - / 2 * 1 * (20 / 1 * (20 / 1) + 0 / 1 * (0 / 1) + 0 / 1 * (0 / 1)))
           * (3 - 1)) with 3 by lra.
  unfold fmax. rewrite Rmax_left by lra.
  replace (3 * 3 / 1) with (3 * 3) by lra. rewrite sqrt_square by lra.
  f_equal; lra.
Qed.

(** The sample taken in the star region found for the vacuum-generating
    pair: the point falls in the branch of the left fan. *)
Lemma sample_vacuum :
  sample TOL 8 1 (-4) 3 3 1 20 3 3 3 = (- / 6, - / 2, - / 72).
Proof.
  unfold sample. pose proof pratio_a_bounds as [Ha0 Ha1]. fold pratio_a.
  destruct (Rge_dec 8 0) as [_ | H]; [| exfalso; lra].
  destruct (Rle_dec TOL 3) as [_ | H]; [| exfalso; apply H; rewrite TOL_value; lra].
  destruct (Rge_dec (-4 - 3) 0) as [H | _]; [exfalso; lra |].
  destruct (Rlt_dec (8 - 3 * pratio_a) 0) as [H | _]; [exfalso; lra |].
  norm_lits.
  replace (2 / (3 + 1) * (3 + (3 - 1) / 2 * -4)) with (- / 2) by lra.
  replace (- / 2 / 3) with (- / 6) by lra.
  replace (2 / (3 - 1)) with (IZR 1) by lra.
  replace (2 * 3 / (3 - 1)) with (IZR 3) by lra.
  rewrite !pow_neg_base_int by lra. simpl powerRZ.
  f_equal; [f_equal |]; lra.
Qed.

(** C1.  The vacuum-generating pair has the densities 1 and the pressures 3
    on both sides ([gamma = 3]); the solver finds the star region
    [(1e-6, 8)], and the state it samples at the interface has the density
    -1/6 and the pressure -1/72: both are negative. *)
Theorem vacuum_pair_samples_negative_state (TINY_NUMBER : R) :
  TINY_NUMBER <= 3 ->
  primitives_of TINY_NUMBER vacuum_cW 3 = mkPrim 1 (-4) 0 0 3 3 0 1 20 0 0 3 3 0 /\
  star_region TINY_NUMBER vacuum_cW 3 = (TOL, 8) /\
  interface_state TINY_NUMBER vacuum_cW 3 = (- / 6, - / 2, - / 72) /\
  (let '(ds, us, ps) := interface_state TINY_NUMBER vacuum_cW 3 in ds < 0 /\ ps < 0).
Proof.
  intros Ht.
  assert (Hs : star_region TINY_NUMBER vacuum_cW 3 = (TOL, 8)).
  { unfold star_region. rewrite primitives_of_vacuum by assumption.
    cbn [dl vxl pl cl dr vxr pr cr]. apply starpu_vacuum. }
  assert (H : interface_state TINY_NUMBER vacuum_cW 3 = (- / 6, - / 2, - / 72)).
  { unfold interface_state. rewrite Hs, primitives_of_vacuum by assumption.
    cbn [dl vxl pl cl dr vxr pr cr]. apply sample_vacuum. }
  split; [now apply primitives_of_vacuum |]. split; [exact Hs |].
  split; [exact H |]. rewrite H. lra.
Qed.

Lemma vacuum_pair_samples_negative_state_witness :
  interface_state 1.0e-20 vacuum_cW 3 = (- / 6, - / 2, - / 72).
Proof.
  apply (vacuum_pair_samples_negative_state 1.0e-20). lits. lra.
Defined.

(** The fluxes assembled from that sample, upwinded from the right cell
    since the sampled velocity is negative. *)
Lemma vacuum_pair_fluxes (TINY_NUMBER : R) :
  TINY_NUMBER <= 3 ->
  Calculate_Exact_Fluxes TINY_NUMBER vacuum_cW 3 = [/ 12; - / 18; 0; 0; / 48; 0].
Proof.
  intros Ht. unfold Calculate_Exact_Fluxes.
  assert (Hi : interface_state TINY_NUMBER vacuum_cW 3 = (- / 6, - / 2, - / 72)).
  { unfold interface_state, star_region. rewrite primitives_of_vacuum by assumption.
    cbn [dl vxl pl cl dr vxr pr cr]. rewrite starpu_vacuum. apply sample_vacuum. }
  rewrite Hi, primitives_of_vacuum by assumption. cbn [vyl vzl gel vyr vzr ger].
  destruct (Rge_dec (- / 2) 0) as [H | _]; [exfalso; lra |].
  norm_lits. list_eq.
Qed.

(** The primitives of the pair that carries tangential velocities and
    internal energies. *)
Lemma primitives_of_vacuum_de (TINY_NUMBER : R) :
  TINY_NUMBER <= 3 ->
  primitives_of TINY_NUMBER vacuum_de_cW 3 = mkPrim 1 (-4) 2 0 3 3 5 1 20 3 0 3 3 7.
Proof.
  intros Ht. unfold primitives_of, vacuum_de_cW, at_. simpl nth. norm_lits.
  replace ((23 / 2 - / 2 * 1 * (-4 / 1 * (-4 / 1) + 2 / 1 * (2 / 1) + 0 / 1 * (0 / 1)))
           * (3 - 1)) with 3 by lra.
  replace ((206 - / 2 * 1 * (20 / 1 * (20 / 1) + 3 / 1 * (3 / 1) + 0 / 1 * (0 / 1)))
           * (3 - 1)) with 3 by lra.
  unfold fmax. rewrite Rmax_left by lra.
  replace (3 * 3 / 1) with (3 * 3) by lra. rewrite sqrt_square by lra.
  f_equal; lra.
Qed.

Lemma star_region_vacuum_de (TINY_NUMBER : R) :
  TINY_NUMBER <= 3 -> star_region TINY_NUMBER vacuum_de_cW 3 = (TOL, 8).
Proof.
  intros Ht. unfold star_region. rewrite primitives_of_vacuum_de by assumption.
  cbn [dl vxl pl cl dr vxr pr cr]. apply starpu_vacuum.
Qed.

Lemma interface_state_vacuum_de (TINY_NUMBER : R) :
  TINY_NUMBER <= 3 ->
  interface_state TINY_NUMBER vacuum_de_cW 3 = (- / 6, - / 2, - / 72).
Proof.
  intros Ht. unfold interface_state.
  rewrite star_region_vacuum_de, primitives_of_vacuum_de by assumption.
  cbn [dl vxl pl cl dr vxr pr cr]. apply sample_vacuum.
Qed.

Lemma vacuum_de_fluxes (TINY_NUMBER : R) :
  TINY_NUMBER <= 3 ->
  Calculate_Exact_Fluxes TINY_NUMBER vacuum_de_cW 3
  = [/ 12; - / 18; / 4; 0; 19 / 48; 7 / 12].
Proof.
  intros Ht. unfold Calculate_Exact_Fluxes.
  rewrite interface_state_vacuum_de, primitives_of_vacuum_de by assumption.
  cbn [vyl vzl gel vyr vzr ger].
  destruct (Rge_dec (- / 2) 0) as [H | _]; [exfalso; lra |].
  norm_lits. list_eq.
Qed.

(** C4.  On the vacuum-generating pair with the specific internal energies 5
    (left) and 7 (right) and the tangential velocities 2 and 3, the solver
    finds the star region [(1e-6, 8)]: the contact wave moves to the right.
    The state sampled in the left fan has the velocity -1/2, so the test
    [us >= 0] fails and the fluxes are taken from the right cell: the flux of
    the dual-energy variable is the density flux 1/12 times 7, not times 5,
    and the tangential momentum flux is the density flux times 3, not
    times 2. *)
Theorem vacuum_pair_upwinds_against_contact (TINY_NUMBER : R) :
  TINY_NUMBER <= 3 ->
  let w := primitives_of TINY_NUMBER vacuum_de_cW 3 in
  let fluxes := Calculate_Exact_Fluxes TINY_NUMBER vacuum_de_cW 3 in
  (gel w = 5 /\ ger w = 7 /\ vyl w = 2 /\ vyr w = 3) /\
  star_region TINY_NUMBER vacuum_de_cW 3 = (TOL, 8) /\
  snd (star_region TINY_NUMBER vacuum_de_cW 3) >= 0 /\
  interface_state TINY_NUMBER vacuum_de_cW 3 = (- / 6, - / 2, - / 72) /\
  at_ fluxes 0 = / 12 /\
  at_ fluxes 5 = at_ fluxes 0 * ger w /\ at_ fluxes 5 <> at_ fluxes 0 * gel w /\
  at_ fluxes 2 = at_ fluxes 0 * vyr w /\ at_ fluxes 2 <> at_ fluxes 0 * vyl w.
Proof.
  intros Ht w fluxes. unfold w, fluxes.
  rewrite vacuum_de_fluxes, primitives_of_vacuum_de, star_region_vacuum_de,
    interface_state_vacuum_de by assumption.
  cbn [gel ger vyl vyr snd]. unfold at_. simpl nth.
  repeat split; try reflexivity; lra.
Qed.

Lemma vacuum_pair_upwinds_against_contact_witness :
  star_region 1.0e-20 vacuum_de_cW 3 = (TOL, 8) /\
  at_ (Calculate_Exact_Fluxes 1.0e-20 vacuum_de_cW 3) 5
  = at_ (Calculate_Exact_Fluxes 1.0e-20 vacuum_de_cW 3) 0
    * ger (primitives_of 1.0e-20 vacuum_de_cW 3).
Proof.
  assert (Ht : 1.0e-20 <= 3) by (lits; lra).
  pose proof (vacuum_pair_upwinds_against_contact 1.0e-20 Ht) as H. cbv zeta in H.
  destruct H as (_ & Hs & _ & _ & _ & H5 & _). split; [exact Hs | exact H5].
Defined.

End ExactProofs.

(** * Further properties of the parameter map *)

Module ParamExtraProofs.

Import CStr ParamDetails ParameterMapModel ParamSpec ParamNotions ParamProofs.
Local Open Scope string_scope.
Local Open Scope list_scope.

(** ** Key/value extraction *)

Lemma length_drop (n : nat) :
  forall s, String.length (drop n s) = String.length s - n.
Proof.
  induction n as [| n IH]; intros s; simpl.
  - lia.
  - destruct s as [| c s]; simpl; [reflexivity | apply IH].
Qed.

(** The first occurrence found by [find] splits the string around it. *)
Lemma find_split (ch : ascii) :
  forall s pos,
    find ch s = Some pos ->
    s = (substring 0 pos s ++ String ch (drop (pos + 1) s))%string /\
    find ch (substring 0 pos s) = None /\
    String.length (substring 0 pos s) = pos /\
    pos < String.length s.
Proof.
  induction s as [| c s IH]; intros pos; simpl; [discriminate |].
  destruct (Ascii.eqb_spec c ch) as [-> | Hne].
  - intros H. inversion H; subst. simpl. repeat split; try lia.
  - destruct (find ch s) as [p |] eqn:Hf; [| discriminate].
    intros H. inversion H; subst. destruct (IH p eq_refl) as (H1 & H2 & H3 & H4).
    simpl. rewrite H2.
    destruct (Ascii.eqb_spec c ch) as [Heq | _]; [contradiction |].
    repeat split; try lia. now rewrite <- H1.
Qed.

(** X1.  When [Try_Extract_Key_Value_View] extracts a key, the C string in
    the buffer is the key, one ['='] and the value: the key holds no ['='],
    and neither part is empty. *)
Theorem extracted_pair_rebuilds_buffer (buffer : string) :
  is_empty (key (Try_Extract_Key_Value_View buffer)) = false ->
  let kv := Try_Extract_Key_Value_View buffer in
  c_str buffer = (key kv ++ "=" ++ value kv)%string /\
  find "="%char (key kv) = None /\
  is_empty (value kv) = false.
Proof.
  unfold Try_Extract_Key_Value_View. cbv zeta.
  destruct (find "="%char (c_str buffer)) as [pos |] eqn:Hf; [| discriminate].
  destruct (find_split _ _ _ Hf) as (Hs & Hk & Hl & Hlt).
  destruct (Nat.eqb_spec pos 0) as [-> | Hp0]; [discriminate |].
  destruct (Nat.eqb_spec (pos + 1) (String.length (c_str buffer))) as [He | Hne];
    [discriminate |].
  simpl. intros _. split; [exact Hs |]. split; [exact Hk |].
  pose proof (length_drop (pos + 1) (c_str buffer)) as Hd.
  destruct (drop (pos + 1) (c_str buffer)); simpl in *; [lia | reflexivity].
Qed.

Lemma extracted_pair_rebuilds_buffer_witness :
  Try_Extract_Key_Value_View "gamma=1.4" = mkKV "gamma" "1.4" /\
  c_str "gamma=1.4" = ("gamma" ++ "=" ++ "1.4")%string.
Proof.
  split; [reflexivity |].
  apply (extracted_pair_rebuilds_buffer "gamma=1.4"). reflexivity.
Defined.

(** ** Trimming *)

Lemma lstrip_split (s : string) :
  exists l, s = (l ++ lstrip s)%string /\ string_forallb isspace l = true.
Proof.
  induction s as [| c s (l & Hl & Hsp)]; simpl.
  - exists EmptyString. split; reflexivity.
  - destruct (isspace c) eqn:Hc.
    + exists (String c l). simpl. rewrite Hc, Hsp. split; [now rewrite <- Hl | reflexivity].
    + exists EmptyString. split; reflexivity.
Qed.

Lemma lstrip_front (s : string) :
  match front (lstrip s) with Some c => isspace c = false | None => True end.
Proof.
  induction s as [| c s IH]; simpl; [exact I |].
  destruct (isspace c) eqn:Hc; [exact IH | simpl; exact Hc].
Qed.

Lemma rstrip_split (s : string) :
  exists r, s = (rstrip s ++ r)%string /\ string_forallb isspace r = true.
Proof.
  induction s as [| c s (r & Hr & Hsp)]; simpl.
  - exists EmptyString. split; reflexivity.
  - destruct (rstrip s) as [| c' t] eqn:Ht.
    + destruct (isspace c) eqn:Hc.
      * exists (String c r). simpl in *. rewrite Hc, Hsp. split; [now rewrite <- Hr | reflexivity].
      * exists r. simpl in *. split; [now rewrite <- Hr | exact Hsp].
    + exists r. split; [| exact Hsp]. simpl in *. now f_equal.
Qed.

Lemma rstrip_back (s : string) :
  match back (rstrip s) with Some c => isspace c = false | None => True end.
Proof.
  induction s as [| c s IH]; simpl; [exact I |].
  destruct (rstrip s) as [| c' t] eqn:Ht.
  - destruct (isspace c) eqn:Hc; simpl; [exact I | exact Hc].
  - simpl in *. exact IH.
Qed.

(** [rstrip] keeps the first character of a string that does not start with
    whitespace. *)
Lemma rstrip_front (s : string) :
  match front s with
  | Some c => isspace c = false -> front (rstrip s) = Some c
  | None => True
  end.
Proof.
  destruct s as [| c s]; simpl; [exact I |]. intros Hc.
  destruct (rstrip s); [rewrite Hc |]; reflexivity.
Qed.

(** A string without outer whitespace is left alone. *)
Lemma lstrip_fixed (s : string) :
  match front s with Some c => isspace c = false | None => True end -> lstrip s = s.
Proof.
  destruct s as [| c s]; simpl; [reflexivity |]. now intros ->.
Qed.

Lemma rstrip_fixed (s : string) :
  match back s with Some c => isspace c = false | None => True end -> rstrip s = s.
Proof.
  induction s as [| c s IH]; simpl; [reflexivity |].
  destruct s as [| c' s'].
  - simpl. now intros ->.
  - intros H. rewrite (IH H). reflexivity.
Qed.

(** X2.  [my_trim] removes a run of whitespace on each side and nothing
    else: the string is the trimmed one between two runs of whitespace, the
    trimmed string neither starts nor ends with whitespace, and trimming it
    again changes nothing. *)
Theorem my_trim_removes_outer_whitespace (s : string) :
  (exists l r, s = (l ++ my_trim s ++ r)%string /\
               string_forallb isspace l = true /\ string_forallb isspace r = true) /\
  no_outer_space (my_trim s) = true /\
  my_trim (my_trim s) = my_trim s.
Proof.
  unfold my_trim.
  destruct (lstrip_split s) as (l & Hl & Hlsp).
  destruct (rstrip_split (lstrip s)) as (r & Hr & Hrsp).
  pose proof (lstrip_front s) as Hf. pose proof (rstrip_back (lstrip s)) as Hb.
  pose proof (rstrip_front (lstrip s)) as Hrf.
  assert (Hfront : match front (rstrip (lstrip s)) with
                   | Some c => isspace c = false | None => True end).
  { destruct (front (lstrip s)) as [c |] eqn:Hc.
    - rewrite (Hrf Hf). exact Hf.
    - destruct (lstrip s); [exact I | discriminate]. }
  split; [| split].
  - exists l, r. split; [| split; assumption]. rewrite <- Hr. exact Hl.
  - unfold no_outer_space.
    destruct (front (rstrip (lstrip s))) as [a |]; [| reflexivity].
    destruct (back (rstrip (lstrip s))) as [b |]; [| reflexivity].
    now rewrite Hfront, Hb.
  - rewrite (lstrip_fixed _ Hfront). apply rstrip_fixed. exact Hb.
Qed.

(** ** Lookup and assignment in the map *)

Lemma ascii_compare_refl (a : ascii) : Ascii.compare a a = Eq.
Proof. unfold Ascii.compare. apply N.compare_refl. Qed.

Lemma string_compare_refl (s : string) : String.compare s s = Eq.
Proof.
  induction s as [| c s IH]; simpl; [reflexivity |]. now rewrite ascii_compare_refl.
Qed.

Lemma string_compare_lt_trans :
  forall s1 s2 s3 : string,
    String.compare s1 s2 = Lt -> String.compare s2 s3 = Lt -> String.compare s1 s3 = Lt.
Proof.
  induction s1 as [| c1 s1 IH]; intros [| c2 s2] [| c3 s3]; simpl;
    try discriminate; try reflexivity.
  destruct (Ascii.compare c1 c2) eqn:E12; try discriminate;
    destruct (Ascii.compare c2 c3) eqn:E23; try discriminate; intros H1 H2.
  - apply Ascii.compare_eq_iff in E12, E23. subst.
    rewrite ascii_compare_refl. now apply IH with s2.
  - apply Ascii.compare_eq_iff in E12. subst. now rewrite E23.
  - apply Ascii.compare_eq_iff in E23. subst. now rewrite E12.
  - unfold Ascii.compare in *. rewrite N.compare_lt_iff in *.
    assert (Hlt : (N_of_ascii c1 < N_of_ascii c3)%N) by lia.
    apply N.compare_lt_iff in Hlt. now rewrite Hlt.
Qed.

Lemma compare_not_eq_eqb (k k' : string) :
  String.compare k k' <> Eq -> String.eqb k k' = false.
Proof.
  intros H. apply String.eqb_neq. intros ->. apply H, string_compare_refl.
Qed.

(** Looking up the key just assigned gives the assigned entry. *)
Lemma map_find_assign_same (k : string) (v : ParamEntry) (m : entries_map) :
  map_find k (map_assign k v m) = Some v.
Proof.
  induction m as [| [k' v'] m IH]; simpl.
  - now rewrite String.eqb_refl.
  - destruct (String.compare k k') eqn:Hc; simpl.
    + now rewrite String.eqb_refl.
    + now rewrite String.eqb_refl.
    + rewrite compare_not_eq_eqb by congruence. exact IH.
Qed.

(** The other keys are not affected. *)
Lemma map_find_assign_other (k k0 : string) (v : ParamEntry) (m : entries_map) :
  k0 <> k -> map_find k0 (map_assign k v m) = map_find k0 m.
Proof.
  intros Hne. induction m as [| [k' v'] m IH]; simpl.
  - now rewrite (proj2 (String.eqb_neq k0 k) Hne).
  - destruct (String.compare k k') eqn:Hc; simpl.
    + apply String.compare_eq_iff in Hc. subst k'.
      now rewrite (proj2 (String.eqb_neq k0 k) Hne).
    + now rewrite (proj2 (String.eqb_neq k0 k) Hne).
    + destruct (String.eqb k0 k'); [reflexivity | exact IH].
Qed.

Lemma map_assign_Forall (P : string * ParamEntry -> Prop) (k : string) (v : ParamEntry)
    (m : entries_map) :
  P (k, v) -> Forall P m -> Forall P (map_assign k v m).
Proof.
  intros Hk. induction m as [| [k' v'] m IH]; intros Hm; simpl.
  - now constructor.
  - inversion Hm; subst. destruct (String.compare k k'); constructor; auto.
Qed.

(** Assignment keeps the keys strictly increasing. *)
Lemma map_assign_sorted (k : string) (v : ParamEntry) (m : entries_map) :
  keys_sorted m -> keys_sorted (map_assign k v m).
Proof.
  unfold keys_sorted. induction m as [| [k' v'] m IH]; intros Hs; simpl.
  - constructor; constructor.
  - inversion Hs as [| ? ? Hs' Hall]; subst.
    destruct (String.compare k k') eqn:Hc.
    + apply String.compare_eq_iff in Hc. subst k'. constructor; [exact Hs' |].
      exact Hall.
    + constructor; [exact Hs |]. constructor; [exact Hc |].
      eapply Forall_impl; [| exact Hall]. intros [k2 v2] H. unfold key_lt in *. simpl in *.
      now apply string_compare_lt_trans with k'.
    + constructor; [now apply IH |].
      apply map_assign_Forall; [| exact Hall].
      unfold key_lt. simpl. rewrite String.compare_antisym, Hc. reflexivity.
Qed.

(** ** [Process_Full_Name] *)

Lemma set_mem_insert (t k : string) (s : string_set) :
  set_mem t s = true -> set_mem t (set_insert k s) = true.
Proof.
  unfold set_insert. destruct (set_mem k s); [auto |].
  intros H. unfold set_mem in *. simpl. rewrite H. apply orb_true_r.
Qed.

Lemma set_mem_insert_same (k : string) (s : string_set) :
  set_mem k (set_insert k s) = true.
Proof.
  unfold set_insert. destruct (set_mem k s) eqn:H; [exact H |].
  unfold set_mem. simpl. now rewrite String.eqb_refl.
Qed.

Lemma name_loop_keeps_tables (full_name : string) (entries : entries_map) (t : string) :
  forall fuel start tables,
    set_mem t tables = true ->
    set_mem t (snd (name_loop fuel full_name start tables entries)) = true.
Proof.
  induction fuel as [| fuel IH]; intros start tables Ht; simpl; [exact Ht |].
  destruct (rfind "."%char full_name start) as [pos |]; [| exact Ht].
  destruct (pos =? String.length full_name - 1)%nat; [exact Ht |].
  destruct (pos =? 0)%nat; [exact Ht |].
  destruct (pos =? start)%nat; [exact Ht |].
  destruct (set_mem (substring 0 pos full_name) tables); [exact Ht |].
  destruct (map_has (substring 0 pos full_name) entries); simpl.
  - now apply set_mem_insert.
  - apply IH. now apply set_mem_insert.
Qed.

Lemma rfind_back (ch : ascii) (s : string) :
  back s = Some ch ->
  rfind ch s (String.length s - 1) = Some (String.length s - 1).
Proof.
  induction s as [| c s IH]; [discriminate |].
  destruct s as [| c' s'].
  - simpl. intros H. inversion H; subst. now rewrite Ascii.eqb_refl.
  - intros H. change (back (String c' s') = Some ch) in H.
    specialize (IH H). set (X := String c' s') in *.
    assert (HX : String.length X = S (String.length s')) by reflexivity.
    replace (String.length (String c X) - 1) with (S (String.length X - 1))
      by (simpl; lia).
    cbn [rfind]. now rewrite IH.
Qed.

Lemma count_zero_forallb (s : string) :
  count (fun ch => negb (allowed_char ch)) s = 0 ->
  string_forallb allowed_char s = true.
Proof.
  induction s as [| c s IH]; simpl; [reflexivity |].
  destruct (allowed_char c); simpl; [exact IH | discriminate].
Qed.

Lemma Process_Full_Name_keeps_tables
    (full_name : string) (tables : string_set) (entries : entries_map) (t : string) :
  set_mem t tables = true ->
  set_mem t (snd (Process_Full_Name full_name tables entries)) = true.
Proof.
  unfold Process_Full_Name.
  destruct (0 <? count (fun ch => negb (allowed_char ch)) full_name)%nat; simpl; [auto |].
  apply name_loop_keeps_tables.
Qed.

Lemma Process_Full_Name_ok
    (full_name : string) (tables : string_set) (entries : entries_map) :
  is_empty (fst (Process_Full_Name full_name tables entries)) = true ->
  string_forallb allowed_char full_name = true /\
  back full_name <> Some "."%char /\
  (forall pos, rfind "."%char full_name (String.length full_name - 1) = Some pos ->
     set_mem (substring 0 pos full_name)
       (snd (Process_Full_Name full_name tables entries)) = true).
Proof.
  unfold Process_Full_Name.
  destruct (count (fun ch => negb (allowed_char ch)) full_name) as [| n] eqn:Hc; simpl;
    [| discriminate].
  intros Hok. split; [now apply count_zero_forallb |].
  destruct (String.length full_name) as [| len] eqn:Hlen.
  { destruct full_name; [| discriminate]. split; [discriminate |]. discriminate. }
  cbn [name_loop] in *. rewrite Hlen in *. simpl Nat.sub in *. rewrite Nat.sub_0_r in *.
  split.
  - intros Hb. pose proof (rfind_back _ _ Hb) as Hr.
    rewrite Hlen in Hr. simpl in Hr. rewrite Nat.sub_0_r in Hr.
    rewrite Hr, Nat.eqb_refl in Hok. discriminate.
  - intros pos Hr. rewrite Hr in *.
    destruct (pos =? len)%nat; [discriminate |].
    destruct (pos =? 0)%nat; [discriminate |].
    destruct (set_mem (substring 0 pos full_name) tables) eqn:Hm; [exact Hm |].
    destruct (map_has (substring 0 pos full_name) entries); [discriminate |].
    apply name_loop_keeps_tables, set_mem_insert_same.
Qed.

(** X3.  Whatever the state, [Process_Full_Name] never removes a table from
    the set; and when it reports no problem, the name holds allowed
    characters only, does not end with a ['.'], and the table the name sits
    in directly (the text before its last ['.']) is in the set afterwards. *)
Theorem Process_Full_Name_accepts_only_valid_names
    (full_name : string) (tables : string_set) (entries : entries_map) :
  let r := Process_Full_Name full_name tables entries in
  (forall t, set_mem t tables = true -> set_mem t (snd r) = true) /\
  (is_empty (fst r) = true ->
   string_forallb allowed_char full_name = true /\
   back full_name <> Some "."%char /\
   (forall pos, rfind "."%char full_name (String.length full_name - 1) = Some pos ->
                set_mem (substring 0 pos full_name) (snd r) = true)).
Proof.
  split.
  - intros t. apply Process_Full_Name_keeps_tables.
  - apply Process_Full_Name_ok.
Qed.

Lemma Process_Full_Name_accepts_only_valid_names_witness :
  string_forallb allowed_char "grid.nx" = true /\
  set_mem "grid" (snd (Process_Full_Name "grid.nx" [] [])) = true.
Proof.
  destruct (Process_Full_Name_accepts_only_valid_names "grid.nx" [] []) as [_ H].
  destruct (H eq_refl) as (Hv & _ & Ht). split; [exact Hv |].
  apply (Ht 4). reflexivity.
Defined.

(** ** Invariants of the constructor *)

Lemma is_empty_append (a b : string) :
  is_empty b = false -> is_empty (a ++ b)%string = false.
Proof. destruct a; simpl; auto. Qed.

Lemma accepted_name_is_valid
    (full_name : string) (tables : string_set) (entries : entries_map) :
  is_empty full_name = false ->
  is_empty (fst (Process_Full_Name full_name tables entries)) = true ->
  valid_key full_name = true.
Proof.
  intros Hne Hok. destruct (Process_Full_Name_ok _ _ _ Hok) as (Hc & Hb & _).
  unfold valid_key. rewrite Hne, Hc. simpl.
  destruct (back full_name) as [c |]; [| reflexivity].
  destruct (Ascii.eqb_spec c "."%char) as [-> | _]; [congruence | reflexivity].
Qed.

Lemma state_ok_assign (st : ctor_state) (k val : string) (ex al : string_set) (cur : string) :
  state_ok st -> valid_key k = true ->
  state_ok (mkState (map_assign k (mkEntry val false) (entries_ st)) ex al cur).
Proof.
  intros [Hall Hs] Hk. split; simpl.
  - apply map_assign_Forall; [split; [reflexivity | exact Hk] | exact Hall].
  - now apply map_assign_sorted.
Qed.

(** The heading branch, with the test on the closing bracket factored out. *)
Lemma parse_table_header_eq (st : ctor_state) (buff : string) :
  parse_table_header st buff =
  match heading_of buff with
  | None => throw "problem parsing a parameter-table header"
  | Some hdr =>
      if (String.length hdr =? 0)%nat
      then throw "empty parameter-table headers (e.g. []) aren't allowed"
      else if set_mem hdr (explicit_tables st)
      then throw ("the [" ++ hdr ++ "] header appears more than once")%string
      else if map_has hdr (entries_ st)
      then throw ("the [" ++ hdr ++ "] header collides with a parameter of the same name")%string
      else
        let '(msg, tables) := Process_Full_Name hdr (all_tables st) (entries_ st) in
        if negb (is_empty msg)
        then throw ("problem encountered while parsing [" ++ hdr ++ "] table header: "
                    ++ msg)%string
        else inr (mkState (entries_ st) (set_insert hdr (explicit_tables st))
                    (set_insert hdr tables) hdr)
  end.
Proof.
  unfold parse_table_header, heading_of.
  destruct (back (rstrip (c_str buff))) as [c |]; [| reflexivity].
  destruct c as [[] [] [] [] [] [] [] []]; reflexivity.
Qed.

(** A heading that is accepted stores nothing and becomes the current
    table. *)
Lemma parse_table_header_inr (st st' : ctor_state) (buff : string) :
  parse_table_header st buff = inr st' ->
  heading_of buff = Some (cur_table_header st') /\
  is_empty (cur_table_header st') = false /\
  entries_ st' = entries_ st.
Proof.
  rewrite parse_table_header_eq.
  destruct (heading_of buff) as [hdr |]; [| discriminate].
  destruct (String.length hdr =? 0)%nat eqn:Hl; [discriminate |].
  destruct (set_mem hdr (explicit_tables st)); [discriminate |].
  destruct (map_has hdr (entries_ st)); [discriminate |].
  destruct (Process_Full_Name hdr (all_tables st) (entries_ st)) as [msg tables].
  destruct (negb (is_empty msg)); [discriminate |].
  intros H. inversion H; subst. simpl. repeat split.
  destruct hdr; [discriminate | reflexivity].
Qed.

(** What a name/value line that is accepted and holds a pair stores. *)
Lemma parse_param_line_inr (st st' : ctor_state) (buff : string) :
  parse_param_line st buff = inr st' ->
  is_empty (key (Try_Extract_Key_Value_View buff)) = false ->
  let kv := Try_Extract_Key_Value_View buff in
  let full := ((if negb (is_empty (cur_table_header st))
                then cur_table_header st ++ "." else EmptyString) ++ key kv)%string in
  find "."%char (key kv) = None /\
  valid_key full = true /\
  entries_ st' = map_assign full (mkEntry (my_trim (value kv)) false) (entries_ st) /\
  cur_table_header st' = cur_table_header st.
Proof.
  unfold parse_param_line. intros H Hk. rewrite Hk in H.
  destruct (find "."%char (key (Try_Extract_Key_Value_View buff))); [discriminate |].
  match type of H with context [Process_Full_Name ?n ?t ?e] =>
    pose proof (accepted_name_is_valid n t e (is_empty_append _ _ Hk)) as Hv;
    destruct (Process_Full_Name n t e) as [msg tables] end.
  simpl in Hv. destruct (is_empty msg).
  - inversion H; subst. simpl. repeat split. now apply Hv.
  - destruct (is_empty (cur_table_header st)); discriminate.
Qed.

(** What a command-line token that is accepted and holds a pair stores. *)
Lemma parse_cli_arg_inr (st st' : ctor_state) (arg : string) :
  parse_cli_arg st arg = inr st' ->
  is_empty (key (Try_Extract_Key_Value_View arg)) = false ->
  let kv := Try_Extract_Key_Value_View arg in
  valid_key (key kv) = true /\
  entries_ st' = map_assign (key kv) (mkEntry (my_trim (value kv)) false) (entries_ st).
Proof.
  unfold parse_cli_arg. intros H Hk. rewrite Hk in H.
  match type of H with context [Process_Full_Name ?n ?t ?e] =>
    pose proof (accepted_name_is_valid n t e Hk) as Hv;
    destruct (Process_Full_Name n t e) as [msg tables] end.
  simpl in Hv. destruct (is_empty msg); simpl in H; [| discriminate].
  inversion H; subst. simpl. split; [now apply Hv | reflexivity].
Qed.

Lemma parse_line_ok (st st' : ctor_state) (buff : string) :
  parse_line st buff = inr st' -> state_ok st -> state_ok st'.
Proof.
  assert (Hparam : parse_param_line st buff = inr st' -> state_ok st -> state_ok st').
  { intros H Hok.
    destruct (is_empty (key (Try_Extract_Key_Value_View buff))) eqn:Hk.
    - unfold parse_param_line in H. rewrite Hk in H. now inversion H; subst.
    - destruct (parse_param_line_inr _ _ _ H Hk) as (_ & Hv & He & _).
      destruct st' as [e' x' a' c']. simpl in He. subst e'.
      now apply state_ok_assign. }
  unfold parse_line. destruct (front buff) as [c |]; [| exact Hparam].
  destruct (Ascii.eqb c (ascii_of_nat 10) || Ascii.eqb c "#" || Ascii.eqb c ";").
  - intros H. now inversion H; subst.
  - destruct (Ascii.eqb c "["); [| exact Hparam].
    intros H [Hall Hs]. apply parse_table_header_inr in H. destruct H as (_ & _ & He).
    unfold state_ok. rewrite He. now split.
Qed.

Lemma parse_cli_arg_ok (st st' : ctor_state) (arg : string) :
  parse_cli_arg st arg = inr st' -> state_ok st -> state_ok st'.
Proof.
  intros H Hok.
  destruct (is_empty (key (Try_Extract_Key_Value_View arg))) eqn:Hk.
  - unfold parse_cli_arg in H. rewrite Hk in H. now inversion H; subst.
  - destruct (parse_cli_arg_inr _ _ _ H Hk) as (Hv & He).
    destruct st' as [e' x' a' c']. simpl in He. subst e'.
    now apply state_ok_assign.
Qed.

Lemma run_all_preserves (P : ctor_state -> Prop)
    (step : ctor_state -> string -> exn + ctor_state) :
  (forall st st' x, step st x = inr st' -> P st -> P st') ->
  forall xs st st', run_all step st xs = inr st' -> P st -> P st'.
Proof.
  intros Hstep. induction xs as [| x xs IH]; intros st st'; simpl.
  - intros H. now inversion H; subst.
  - destruct (step st x) as [e | st1] eqn:Hx; [discriminate |].
    intros H HP. apply (IH st1 st' H). now apply (Hstep st st1 x).
Qed.

(** X4.  In every map the constructor builds, the keys increase strictly
    (so no key occurs twice), every key is non-empty, made of allowed
    characters only and does not end with a ['.'], and no entry is marked as
    accessed. *)
Theorem constructed_map_is_well_formed (buffers argv : list string) (m : entries_map) :
  ParameterMap_ctor buffers argv = inr m ->
  keys_sorted m /\
  Forall (fun kv => accessed (snd kv) = false /\ valid_key (fst kv) = true) m.
Proof.
  unfold ParameterMap_ctor.
  destruct (run_all parse_line initial_state buffers) as [e | st1] eqn:H1; [discriminate |].
  destruct (run_all parse_cli_arg st1 argv) as [e | st2] eqn:H2; [discriminate |].
  intros H. inversion H; subst.
  assert (H0 : state_ok initial_state).
  { split; simpl; constructor. }
  pose proof (run_all_preserves state_ok parse_line parse_line_ok _ _ _ H1 H0) as Hs1.
  pose proof (run_all_preserves state_ok parse_cli_arg parse_cli_arg_ok _ _ _ H2 Hs1)
    as [Hall Hs].
  split; assumption.
Qed.

(** The entries of a constructed map satisfy the invariant of the loops. *)
Lemma ctor_entries_ok (buffers argv : list string) (m : entries_map) :
  ParameterMap_ctor buffers argv = inr m -> Forall entry_ok m.
Proof.
  unfold ParameterMap_ctor. intros H.
  destruct (run_all parse_line initial_state buffers) as [e | st1] eqn:H1; [discriminate |].
  destruct (run_all parse_cli_arg st1 argv) as [e | st2] eqn:H2; [discriminate |].
  inversion H; subst. apply (run_all_preserves state_ok parse_cli_arg parse_cli_arg_ok _ _ _ H2).
  apply (run_all_preserves state_ok parse_line parse_line_ok _ _ _ H1).
  split; simpl; constructor.
Qed.

Lemma constructed_map_is_well_formed_witness :
  keys_sorted [("a.x", mkEntry "1" false); ("b", mkEntry "2" false)].
Proof.
  apply (constructed_map_is_well_formed
           [("[a]" ++ newline)%string; ("x=1" ++ newline)%string] ["b=2"]).
  reflexivity.
Defined.

(** X5.  A command-line token that holds a pair and comes last decides the
    value of its key: when the constructor succeeds, the map gives that key
    the trimmed value of the token, not yet accessed, whatever the file and
    the earlier tokens said. *)
Theorem last_token_overrides (buffers args : list string) (arg : string) (m : entries_map) :
  ParameterMap_ctor buffers (args ++ [arg]) = inr m ->
  is_empty (key (Try_Extract_Key_Value_View arg)) = false ->
  map_find (key (Try_Extract_Key_Value_View arg)) m
  = Some (mkEntry (my_trim (value (Try_Extract_Key_Value_View arg))) false).
Proof.
  unfold ParameterMap_ctor.
  destruct (run_all parse_line initial_state buffers) as [e | st1]; [discriminate |].
  rewrite run_all_app.
  destruct (run_all parse_cli_arg st1 args) as [e | st2]; [discriminate |].
  simpl. destruct (parse_cli_arg st2 arg) as [e | st3] eqn:H3; [discriminate |].
  intros H Hk. inversion H; subst.
  destruct (parse_cli_arg_inr _ _ _ H3 Hk) as (_ & ->).
  apply map_find_assign_same.
Qed.

Lemma last_token_overrides_witness :
  map_find "nx"
    [("nx", mkEntry "64" false); ("ny", mkEntry "8" false)]
  = Some (mkEntry "64" false).
Proof.
  apply (last_token_overrides [("nx=4" ++ newline)%string; ("ny=8" ++ newline)%string]
           [] "nx= 64 "); reflexivity.
Defined.

(** X6.  A heading that is accepted stores nothing; a pair accepted right
    after it is stored under the heading, a ['.'] and its key, with the
    trimmed value and not accessed, and no other key changes. *)
Theorem pair_is_stored_under_heading (st st1 st2 : ctor_state) (buff line : string) :
  parse_table_header st buff = inr st1 ->
  parse_param_line st1 line = inr st2 ->
  is_empty (key (Try_Extract_Key_Value_View line)) = false ->
  exists hdr,
    heading_of buff = Some hdr /\
    entries_ st1 = entries_ st /\
    let kv := Try_Extract_Key_Value_View line in
    let full := ((hdr ++ ".") ++ key kv)%string in
    map_find full (entries_ st2) = Some (mkEntry (my_trim (value kv)) false) /\
    (forall k, k <> full -> map_find k (entries_ st2) = map_find k (entries_ st)).
Proof.
  intros H1 H2 Hk. destruct (parse_table_header_inr _ _ _ H1) as (Hh & Hne & He).
  destruct (parse_param_line_inr _ _ _ H2 Hk) as (_ & _ & He2 & _).
  rewrite Hne in He2. simpl in He2.
  exists (cur_table_header st1). split; [exact Hh |]. split; [exact He |].
  cbv zeta. rewrite He2, He. split.
  - apply map_find_assign_same.
  - intros k Hne'. now apply map_find_assign_other.
Qed.

Lemma pair_is_stored_under_heading_witness :
  exists hdr,
    heading_of ("[grid]" ++ newline)%string = Some hdr /\
    map_find ((hdr ++ ".") ++ "nx")%string [("grid.nx", mkEntry "4" false)]
    = Some (mkEntry "4" false).
Proof.
  destruct (pair_is_stored_under_heading initial_state
              (mkState [] ["grid"] ["grid"] "grid")
              (mkState [("grid.nx", mkEntry "4" false)] ["grid"] ["grid"] "grid")
              ("[grid]" ++ newline)%string ("nx=4" ++ newline)%string
              eq_refl eq_refl eq_refl) as (hdr & Hh & _ & Hf & _).
  exists hdr. split; [exact Hh | exact Hf].
Defined.

(** X7.  A name/value line of the file whose key holds a ['.'] is never
    accepted: the step throws in every state, so no file that contains such a
    line can be constructed from. *)
Theorem dotted_key_in_file_throws (buffer : string) :
  is_pair_line buffer = true ->
  find "."%char (key (Try_Extract_Key_Value_View buffer)) <> None ->
  (forall st, exists e, parse_line st buffer = inl e) /\
  (forall pre post argv, exists e, ParameterMap_ctor (pre ++ buffer :: post) argv = inl e).
Proof.
  intros Hl Hdot.
  assert (Hstep : forall st, exists e, parse_line st buffer = inl e).
  { intros st. unfold parse_line. unfold is_pair_line in Hl.
    assert (Hp : exists e, parse_param_line st buffer = inl e).
    { unfold parse_param_line.
      destruct (is_empty (key (Try_Extract_Key_Value_View buffer))) eqn:Hk.
      - destruct (key (Try_Extract_Key_Value_View buffer)); [| discriminate].
        exfalso. now apply Hdot.
      - destruct (find "."%char (key (Try_Extract_Key_Value_View buffer)));
          [eexists; reflexivity | exfalso; now apply Hdot]. }
    destruct (front buffer) as [c |]; [| exact Hp].
    apply negb_true_iff in Hl. apply orb_false_iff in Hl. destruct Hl as [Hl1 Hl2].
    rewrite Hl1, Hl2. exact Hp. }
  split; [exact Hstep |].
  intros pre post argv. unfold ParameterMap_ctor. rewrite run_all_app.
  destruct (run_all parse_line initial_state pre) as [e | st]; [eexists; reflexivity |].
  simpl. destruct (Hstep st) as [e ->]. eexists; reflexivity.
Qed.

Lemma dotted_key_in_file_throws_witness :
  exists e, ParameterMap_ctor [("grid.nx=4" ++ newline)%string] [] = inl e.
Proof.
  apply (dotted_key_in_file_throws ("grid.nx=4" ++ newline)%string
           eq_refl ltac:(discriminate)) with (pre := []) (post := []).
Defined.

(** ** Reading the file buffer by buffer *)

Lemma append_nil_r (s : string) : (s ++ EmptyString)%string = s.
Proof. induction s as [| c s IH]; simpl; [reflexivity | now rewrite IH]. Qed.

Lemma append_assoc (a b c : string) : ((a ++ b) ++ c)%string = (a ++ (b ++ c))%string.
Proof. induction a as [| x a IH]; simpl; [reflexivity | now rewrite IH]. Qed.

Lemma length_append (a b : string) :
  String.length (a ++ b)%string = String.length a + String.length b.
Proof. induction a as [| x a IH]; simpl; [reflexivity | now rewrite IH]. Qed.

Lemma concat_cons (x : string) (l : list string) :
  String.concat EmptyString (x :: l) = (x ++ String.concat EmptyString l)%string.
Proof.
  destruct l as [| y l]; simpl; [now rewrite append_nil_r | reflexivity].
Qed.

Lemma fgets_buffers_concat :
  forall s cur room,
    String.concat EmptyString (fgets_buffers s cur room) = (cur ++ s)%string.
Proof.
  induction s as [| c s IH]; intros cur room.
  - simpl fgets_buffers. rewrite append_nil_r. destruct cur; reflexivity.
  - cbn [fgets_buffers].
    destruct (Ascii.eqb c (ascii_of_nat 10) || (room =? 1)%nat).
    + rewrite concat_cons, IH, append_assoc. reflexivity.
    + rewrite IH, append_assoc. reflexivity.
Qed.

Lemma find_append_last (ch c : ascii) :
  forall cur,
    find ch cur = None ->
    find ch (cur ++ String c EmptyString)%string
    = if Ascii.eqb c ch then Some (String.length cur) else None.
Proof.
  induction cur as [| x cur IH]; simpl; [reflexivity |].
  destruct (Ascii.eqb x ch); [discriminate |].
  destruct (find ch cur); [discriminate |]. intros _. rewrite (IH eq_refl).
  destruct (Ascii.eqb c ch); reflexivity.
Qed.

Lemma fgets_buffers_ok :
  forall s cur room,
    1 <= room -> String.length cur + room = 255 ->
    find (ascii_of_nat 10) cur = None ->
    Forall buffer_ok (fgets_buffers s cur room).
Proof.
  induction s as [| c s IH]; intros cur room Hroom Hlen Hnl.
  - simpl. destruct cur as [| x cur]; simpl; constructor; [| constructor].
    split; [simpl in *; lia |]. intros pos Hp. rewrite Hnl in Hp. discriminate.
  - cbn [fgets_buffers].
    pose proof (find_append_last (ascii_of_nat 10) c cur Hnl) as Hf.
    pose proof (length_append cur (String c EmptyString)) as Hla. simpl in Hla.
    destruct (Ascii.eqb c (ascii_of_nat 10)) eqn:Hc; simpl orb.
    + constructor; [| apply IH; simpl; auto; lia].
      split; [lia |]. intros pos Hp. rewrite Hf in Hp. inversion Hp. lia.
    + destruct (Nat.eqb_spec room 1) as [-> | Hne].
      * constructor; [| apply IH; simpl; auto; lia].
        split; [lia |]. intros pos Hp. rewrite Hf in Hp. discriminate.
      * apply IH; [lia | lia | exact Hf].
Qed.

(** The buffers the reading loop receives for a file cut it without loss:
    put together they are the content of the file; each holds between 1 and
    255 characters, and a newline only as its last character. *)
Lemma file_is_read_without_loss (content : string) :
  let buffers := fgets_buffers content EmptyString 255 in
  String.concat EmptyString buffers = content /\
  Forall buffer_ok buffers.
Proof.
  split.
  - apply fgets_buffers_concat.
  - apply (fgets_buffers_ok content EmptyString 255); simpl; auto; lia.
Qed.

(** A run of characters without newline that fills the room left in the
    buffer ends the buffer. *)
Lemma fgets_buffers_fill (rest : string) :
  forall head cur room,
    String.length head = room -> 1 <= room ->
    find (ascii_of_nat 10) head = None ->
    fgets_buffers (head ++ rest)%string cur room
    = (cur ++ head)%string :: fgets_buffers rest EmptyString 255.
Proof.
  induction head as [| c head IH]; intros cur room Hlen Hroom Hnl; [simpl in Hlen; lia |].
  simpl in Hnl. destruct (Ascii.eqb c (ascii_of_nat 10)) eqn:Hc; [discriminate |].
  destruct (find (ascii_of_nat 10) head) as [q |] eqn:Hf; [discriminate |].
  change ((String c head ++ rest)%string) with (String c (head ++ rest)%string).
  cbn [fgets_buffers]. rewrite Hc. simpl orb. simpl in Hlen.
  destruct (Nat.eqb_spec room 1) as [-> | Hne].
  - destruct head; [reflexivity | simpl in Hlen; lia].
  - rewrite (IH (cur ++ String c EmptyString)%string (room - 1)) by (auto; lia).
    now rewrite append_assoc.
Qed.

(** X8.  A physical line longer than the buffer is read in pieces, and every
    piece is treated as a line of its own: when the file starts with 255
    characters without newline of which the first is ['#'] or [';'], that
    piece is skipped as a comment and what follows it on the same line is
    parsed as a new line, so the constructor returns what it returns on the
    rest of the file alone. *)
Theorem overlong_comment_is_cut (head rest : string) (argv : list string) :
  String.length head = 255 ->
  find (ascii_of_nat 10) head = None ->
  front head = Some "#"%char \/ front head = Some ";"%char ->
  ParameterMap_of_file (head ++ rest) argv = ParameterMap_of_file rest argv.
Proof.
  intros Hlen Hnl Hfront. unfold ParameterMap_of_file.
  rewrite (fgets_buffers_fill rest head EmptyString 255 Hlen ltac:(lia) Hnl).
  change (EmptyString ++ head)%string with head.
  unfold ParameterMap_ctor. cbn [run_all].
  assert (Hskip : parse_line initial_state head = inr initial_state).
  { unfold parse_line. destruct Hfront as [-> | ->]; reflexivity. }
  rewrite Hskip. reflexivity.
Qed.

Lemma overlong_comment_is_cut_witness :
  ParameterMap_of_file
    (String "#"%char (repeat_char "a"%char 254) ++ "nx=4" ++ newline)%string []
  = inr [("nx", mkEntry "4" false)].
Proof.
  rewrite (overlong_comment_is_cut (String "#"%char (repeat_char "a"%char 254))).
  - reflexivity.
  - reflexivity.
  - reflexivity.
  - left. reflexivity.
Defined.

End ParamExtraProofs.

(** * Further properties of the value conversion and of the accessors *)

Module ConvertExtraProofs.

Import CStr ParamDetails ParameterMapModel ParameterMapAccess ParamSpec ParamNotions.
Import ConvertNotions ParamProofs ParamExtraProofs.
Local Open Scope string_scope.
Local Open Scope list_scope.

(** ** [try_int64_] *)

(** X9.  When [try_int64_] reports no error, the value it stores fits in 64
    bits; when it reports an error, it leaves [val] as it was. *)
Theorem try_int64_result_in_range (str : string) (val : Z) :
  (fst (try_int64_ str val) = none ->
   (LLONG_MIN <= snd (try_int64_ str val) <= LLONG_MAX)%Z) /\
  (fst (try_int64_ str val) <> none -> snd (try_int64_ str val) = val).
Proof.
  unfold try_int64_, strtoll.
  destruct (drop (span_space str) str) as [| c r] eqn:Hd.
  - simpl. destruct (negb (String.length str =? 0)%nat); simpl; split;
      intros H; try congruence; try discriminate; unfold LLONG_MIN, LLONG_MAX; lia.
  - set (sel := match String c r with
                | String "-"%char r0 => (true, r0, 1)
                | String "+"%char r0 => (false, r0, 1)
                | _ => (false, String c r, 0)
                end).
    destruct sel as [[neg body] sign_len].
    destruct (read_digits body 0) as [magnitude ndigits].
    destruct (ndigits =? 0)%nat.
    + simpl. destruct (negb (String.length str =? 0)%nat); simpl; split;
        intros H; try congruence; try discriminate; unfold LLONG_MIN, LLONG_MAX; lia.
    + destruct (Z.ltb_spec (if neg then (- magnitude)%Z else magnitude) LLONG_MIN)
        as [Hlo | Hlo];
        [simpl; split; intros H; [discriminate | reflexivity] |].
      destruct (Z.ltb_spec LLONG_MAX (if neg then (- magnitude)%Z else magnitude))
        as [Hhi | Hhi];
        [simpl; split; intros H; [discriminate | reflexivity] |].
      simpl.
      destruct (negb (String.length str =? span_space str + sign_len + ndigits)%nat);
        simpl; split; intros H; try congruence; try discriminate; lia.
Qed.

Lemma try_int64_result_in_range_witness :
  (LLONG_MIN <= snd (try_int64_ "-42" 0) <= LLONG_MAX)%Z /\
  snd (try_int64_ "4x2" 7) = 7%Z.
Proof.
  split.
  - apply (try_int64_result_in_range "-42" 0). reflexivity.
  - apply (try_int64_result_in_range "4x2" 7). discriminate.
Defined.

Lemma read_digits_digit (c : ascii) (s : string) (acc : Z) :
  isdigit c = true ->
  read_digits (String c s) acc =
  (fst (read_digits s (10 * acc + digit_val c)%Z),
   S (snd (read_digits s (10 * acc + digit_val c)%Z))).
Proof.
  intros Hc. cbn [read_digits]. rewrite Hc.
  destruct (read_digits s (10 * acc + digit_val c)%Z); reflexivity.
Qed.

Ltac digit_step IH :=
  cbn [DecimalString.NilEmpty.string_of_uint Pos.of_uint_acc Pos.of_uint String.length];
  rewrite read_digits_digit by reflexivity;
  match goal with
  | |- context [digit_val ?c] =>
      let d := eval vm_compute in (digit_val c) in change (digit_val c) with d
  end.

(** The digits of a decimal number read on top of a positive accumulator. *)
Lemma read_digits_uint_acc (u : Decimal.uint) :
  forall p : positive,
    read_digits (DecimalString.NilEmpty.string_of_uint u) (Z.pos p)
    = (Z.pos (Pos.of_uint_acc u p),
       String.length (DecimalString.NilEmpty.string_of_uint u)).
Proof.
  induction u as [| u IH | u IH | u IH | u IH | u IH | u IH | u IH | u IH | u IH | u IH];
    intros p; [reflexivity | ..]; digit_step IH;
    match goal with
    | |- context [read_digits _ ?a] =>
        match goal with
        | |- context [Pos.of_uint_acc u ?q] => replace a with (Z.pos q) by lia
        end
    end; rewrite IH; reflexivity.
Qed.

Lemma read_digits_uint (u : Decimal.uint) :
  read_digits (DecimalString.NilEmpty.string_of_uint u) 0
  = (Z.of_N (Pos.of_uint u), String.length (DecimalString.NilEmpty.string_of_uint u)).
Proof.
  induction u as [| u IH | u IH | u IH | u IH | u IH | u IH | u IH | u IH | u IH | u IH];
    [reflexivity | digit_step IH; simpl Z.add; simpl Z.mul; rewrite IH; reflexivity | ..];
    digit_step IH; simpl Z.add; rewrite read_digits_uint_acc; reflexivity.
Qed.

Lemma uint_string_nonempty (u : Decimal.uint) :
  u <> Decimal.Nil ->
  exists c r, DecimalString.NilEmpty.string_of_uint u = String c r /\
              isdigit c = true.
Proof.
  destruct u; [contradiction | ..]; intros _; eexists; eexists; split; reflexivity.
Qed.

Lemma strtoll_digit_first (c : ascii) (r : string) :
  isdigit c = true -> strtoll (String c r) = strtoll_finish false (String c r) 0.
Proof.
  destruct c as [[] [] [] [] [] [] [] []]; intros H; try discriminate H; reflexivity.
Qed.

Lemma strtoll_minus_first (body : string) :
  strtoll (String "-"%char body) = strtoll_finish true body 1.
Proof. reflexivity. Qed.

Lemma strtoll_finish_uint (neg : bool) (u : Decimal.uint) (consumed : nat) :
  u <> Decimal.Nil ->
  strtoll_finish neg (DecimalString.NilEmpty.string_of_uint u) consumed =
  let v := if neg then (- Z.of_N (Pos.of_uint u))%Z else Z.of_N (Pos.of_uint u) in
  let e := consumed + String.length (DecimalString.NilEmpty.string_of_uint u) in
  if (v <? LLONG_MIN)%Z then mk_strtoll LLONG_MIN e true
  else if (LLONG_MAX <? v)%Z then mk_strtoll LLONG_MAX e true
  else mk_strtoll v e false.
Proof.
  intros Hu. unfold strtoll_finish. rewrite read_digits_uint.
  destruct (uint_string_nonempty u Hu) as (c & r & -> & _). reflexivity.
Qed.

Lemma strtoll_decimal_pos (p : positive) :
  strtoll (DecimalString.NilEmpty.string_of_uint (Pos.to_uint p)) =
  let e := String.length (DecimalString.NilEmpty.string_of_uint (Pos.to_uint p)) in
  if (Z.pos p <=? LLONG_MAX)%Z then mk_strtoll (Z.pos p) e false
  else mk_strtoll LLONG_MAX e true.
Proof.
  pose proof (DecimalPos.Unsigned.to_uint_nonnil p) as Hn.
  destruct (uint_string_nonempty _ Hn) as (c & r & Hs & Hc).
  rewrite Hs at 1. rewrite (strtoll_digit_first c r Hc), <- Hs.
  rewrite strtoll_finish_uint by exact Hn. cbv zeta.
  rewrite DecimalPos.Unsigned.of_to. cbn [Z.of_N].
  replace (Z.pos p <? LLONG_MIN)%Z with false
    by (symmetry; apply Z.ltb_ge; unfold LLONG_MIN; lia).
  rewrite Z.ltb_antisym. destruct (Z.pos p <=? LLONG_MAX)%Z; reflexivity.
Qed.

Lemma strtoll_decimal_neg (p : positive) :
  strtoll (String "-"%char (DecimalString.NilEmpty.string_of_uint (Pos.to_uint p))) =
  let e := S (String.length (DecimalString.NilEmpty.string_of_uint (Pos.to_uint p))) in
  if (LLONG_MIN <=? Z.neg p)%Z then mk_strtoll (Z.neg p) e false
  else mk_strtoll LLONG_MIN e true.
Proof.
  pose proof (DecimalPos.Unsigned.to_uint_nonnil p) as Hn.
  rewrite strtoll_minus_first.
  rewrite strtoll_finish_uint by exact Hn. cbv zeta.
  rewrite DecimalPos.Unsigned.of_to. cbn [Z.of_N Z.opp].
  rewrite Z.ltb_antisym. destruct (LLONG_MIN <=? Z.neg p)%Z; [| reflexivity].
  replace (LLONG_MAX <? Z.neg p)%Z with false
    by (symmetry; apply Z.ltb_ge; unfold LLONG_MAX; lia).
  reflexivity.
Qed.

Lemma try_int64_reads_decimal_notation_aux (z val : Z) :
  (LLONG_MIN <= z <= LLONG_MAX)%Z -> try_int64_ (decimal z) val = (none, z).
Proof.
  intros [Hlo Hhi]. unfold try_int64_, decimal.
  destruct z as [| p | p]; [reflexivity | |]; cbn [Z.to_int DecimalString.NilEmpty.string_of_int].
  - rewrite strtoll_decimal_pos. cbv zeta.
    rewrite (proj2 (Z.leb_le _ _) Hhi). simpl. now rewrite Nat.eqb_refl.
  - rewrite strtoll_decimal_neg. cbv zeta.
    rewrite (proj2 (Z.leb_le _ _) Hlo). simpl. now rewrite Nat.eqb_refl.
Qed.

(** X10.  Printing and reading back: on the decimal notation of an integer
    [try_int64_] returns that integer when it fits in 64 bits, and reports
    [out_of_range], leaving [val] alone, when it does not. *)
Theorem try_int64_reads_decimal_notation (z val : Z) :
  try_int64_ (decimal z) val =
  if ((LLONG_MIN <=? z) && (z <=? LLONG_MAX))%Z then (none, z) else (out_of_range, val).
Proof.
  unfold try_int64_, decimal.
  destruct z as [| p | p]; [reflexivity | |]; cbn [Z.to_int DecimalString.NilEmpty.string_of_int].
  - rewrite strtoll_decimal_pos. cbv zeta.
    replace (LLONG_MIN <=? Z.pos p)%Z with true
      by (symmetry; apply Z.leb_le; unfold LLONG_MIN; lia).
    destruct (Z.pos p <=? LLONG_MAX)%Z; simpl; [| reflexivity].
    now rewrite Nat.eqb_refl.
  - rewrite strtoll_decimal_neg. cbv zeta.
    replace (Z.neg p <=? LLONG_MAX)%Z with true
      by (symmetry; apply Z.leb_le; unfold LLONG_MAX; lia).
    rewrite andb_true_r.
    destruct (LLONG_MIN <=? Z.neg p)%Z; simpl; [| reflexivity].
    now rewrite Nat.eqb_refl.
Qed.

(** ** The accessors *)

Section Reading.

Variable T : Type.
Variable convert : string -> option T * TypeErr.
Variable dtype_name : string.

(** A read that returns either found nothing and left the map alone, or
    marked the entry it found. *)
Lemma try_get_normal (m m' : entries_map) (k : string) (o : option T) :
  try_get_ convert dtype_name m k false = Normal o m' ->
  (map_find k m = None /\ m' = m /\ o = None) \/
  (exists e, map_find k m = Some e /\ m' = mark_accessed k m /\
             convert (param_str e) = (o, none)).
Proof.
  unfold try_get_. destruct (map_find k m) as [e |].
  - destruct (convert (param_str e)) as [out err] eqn:Hc.
    destruct err; intros H; inversion H; subst. right. exists e. auto.
  - intros H. inversion H; subst. left. auto.
Qed.

Lemma filter_all {A : Type} (p : A -> bool) (l : list A) :
  Forall (fun x => p x = true) l -> filter p l = l.
Proof.
  induction 1 as [| x l Hx Hl IH]; simpl; [reflexivity |]. now rewrite Hx, IH.
Qed.

Lemma key_lt_not_eqb (k : string) (e : ParamEntry) (kv : string * ParamEntry) :
  key_lt (k, e) kv -> negb (String.eqb k (fst kv)) = true.
Proof.
  unfold key_lt. simpl. intros H. apply negb_true_iff, compare_not_eq_eqb. congruence.
Qed.

(** Marking an entry removes it, and it alone, from the report. *)
Lemma unused_after_mark (k : string) (ign : string_set) (m : entries_map) :
  keys_sorted m ->
  unused_entries (mark_accessed k m) ign
  = filter (fun kv => negb (String.eqb k (fst kv))) (unused_entries m ign).
Proof.
  unfold keys_sorted, unused_entries. induction 1 as [| [k' e'] m Hs IH Hall]; [reflexivity |].
  cbn [mark_accessed]. destruct (String.eqb_spec k k') as [<- | Hne].
  - assert (Hrest : filter (fun kv => negb (String.eqb k (fst kv)))
                      (filter (is_unused ign) m) = filter (is_unused ign) m).
    { apply filter_all. apply Forall_forall. intros kv Hin.
      apply filter_In in Hin. destruct Hin as [Hin _].
      rewrite Forall_forall in Hall. apply (key_lt_not_eqb k e'). now apply Hall. }
    cbn [filter]. unfold is_unused at 1. cbn [snd accessed negb andb].
    destruct (is_unused ign (k, e')); cbn [filter fst];
      rewrite ?String.eqb_refl; cbn [negb]; now rewrite Hrest.
  - cbn [filter].
    destruct (is_unused ign (k', e')); cbn [filter fst].
    + rewrite (proj2 (String.eqb_neq k k') Hne). cbn [negb]. now rewrite IH.
    + exact IH.
Qed.

Lemma mark_accessed_keys (k : string) (m : entries_map) :
  map fst (mark_accessed k m) = map fst m /\
  map (fun kv => param_str (snd kv)) (mark_accessed k m)
  = map (fun kv => param_str (snd kv)) m.
Proof.
  induction m as [| [k' e'] m [IH1 IH2]]; simpl; [auto |].
  destruct (String.eqb k k'); simpl; [auto |]. now rewrite IH1, IH2.
Qed.

(** X11.  Reads are recorded.  When [value] or [value_or] returns on a map
    with distinct keys, the names and the strings of the parameters are what
    they were, the parameter asked for is no longer among those
    [warn_unused_parameters] reports, and every other parameter is reported
    exactly when it was before. *)
Theorem read_parameter_is_not_reported
    (m m' : entries_map) (k : string) (default_val v : T) (ign : string_set) :
  keys_sorted m ->
  value_ convert dtype_name m k = Normal v m' \/
  value_or convert dtype_name m k default_val = Normal v m' ->
  map fst m' = map fst m /\
  map (fun kv => param_str (snd kv)) m' = map (fun kv => param_str (snd kv)) m /\
  unused_entries m' ign
  = filter (fun kv => negb (String.eqb k (fst kv))) (unused_entries m ign) /\
  ~ In k (map fst (unused_entries m' ign)).
Proof.
  intros Hs Hread.
  assert (Hm : m' = mark_accessed k m).
  { assert (Hg : exists o, try_get_ convert dtype_name m k false = Normal o m').
    { destruct Hread as [H | H]; [unfold value_ in H | unfold value_or in H];
        destruct (try_get_ convert dtype_name m k false) as [[o |] m1 | msg];
        inversion H; subst; eexists; reflexivity. }
    destruct Hg as [o Hg]. apply try_get_normal in Hg.
    destruct Hg as [(Hn & -> & _) | (e & _ & -> & _)]; [| reflexivity].
    clear - Hn. induction m as [| [k' e'] m IH]; [reflexivity |].
    simpl in *. destruct (String.eqb k k'); [discriminate |]. now rewrite <- IH. }
  subst m'. destruct (mark_accessed_keys k m) as [Hk Hv].
  pose proof (unused_after_mark k ign m Hs) as Hu.
  repeat split; try assumption.
  rewrite Hu. intros Hin. apply in_map_iff in Hin. destruct Hin as ([k' e'] & Hfst & Hin).
  simpl in Hfst. subst k'. apply filter_In in Hin. destruct Hin as [_ Hin].
  simpl in Hin. rewrite String.eqb_refl in Hin. discriminate.
Qed.

End Reading.

Lemma read_parameter_is_not_reported_witness :
  unused_entries [("nx", mkEntry "4" true); ("ny", mkEntry "8" false)] []
  = [("ny", mkEntry "8" false)].
Proof.
  assert (Hs : keys_sorted [("nx", mkEntry "4" false); ("ny", mkEntry "8" false)]).
  { repeat constructor. }
  destruct (read_parameter_is_not_reported string (fun str => (Some str, none)) "string"
              [("nx", mkEntry "4" false); ("ny", mkEntry "8" false)]
              [("nx", mkEntry "4" true); ("ny", mkEntry "8" false)]
              "nx" EmptyString "4" [] Hs (or_introl eq_refl)) as (_ & _ & Hu & _).
  exact Hu.
Defined.

(** ** The report on a map nobody has read *)

(** X12.  Right after construction every parameter counts as unused: with an
    empty ignore set [warn_unused_parameters] returns the size of the map and
    prints one warning per entry, in key order (none when the messages are
    suppressed); with [abort_on_warning] it aborts on the first entry of a
    map that is not empty. *)
Theorem fresh_map_is_all_unused (buffers argv : list string) (m : entries_map) (sup : bool) :
  ParameterMap_ctor buffers argv = inr m ->
  warn_unused_parameters m [] false sup
  = (Returned (size m), if sup then [] else map warning_of m) /\
  warn_unused_parameters m [] true sup
  = match m with
    | [] => (Returned 0, [])
    | kv :: _ => (Aborted (pair_text (fst kv) (param_str (snd kv))), [])
    end.
Proof.
  intros Hc. pose proof (ctor_entries_ok buffers argv m Hc) as Hall.
  assert (Hu : unused_entries m [] = m).
  { unfold unused_entries. apply filter_all.
    eapply Forall_impl; [| exact Hall]. intros kv [Ha _].
    unfold is_unused. now rewrite Ha. }
  unfold warn_unused_parameters. rewrite warn_loop_no_abort, warn_loop_abort, Hu.
  split; reflexivity.
Qed.

Lemma fresh_map_is_all_unused_witness :
  warn_unused_parameters [("nx", mkEntry "4" false); ("ny", mkEntry "8" false)] [] false true
  = (Returned 2, []).
Proof.
  apply (fresh_map_is_all_unused [("nx=4" ++ newline)%string] ["ny=8"]). reflexivity.
Defined.

(** ** From a token to the integer *)

Lemma string_forallb_impl (p q : ascii -> bool) (s : string) :
  (forall c, p c = true -> q c = true) ->
  string_forallb p s = true -> string_forallb q s = true.
Proof.
  intros Hpq. induction s as [| c s IH]; simpl; [reflexivity |].
  intros H. apply andb_true_iff in H. destruct H as [Hc Hs].
  now rewrite (Hpq c Hc), (IH Hs).
Qed.

Lemma string_forallb_append (p : ascii -> bool) (a b : string) :
  string_forallb p (a ++ b)%string = string_forallb p a && string_forallb p b.
Proof.
  induction a as [| c a IH]; simpl; [reflexivity |]. now rewrite IH, andb_assoc.
Qed.

(** A string without NUL is its own C string. *)
Lemma c_str_fixed (s : string) :
  string_forallb (fun c => negb (Ascii.eqb c Ascii.zero)) s = true -> c_str s = s.
Proof.
  induction s as [| c s IH]; simpl; [reflexivity |].
  intros H. apply andb_true_iff in H. destruct H as [Hc Hs].
  apply negb_true_iff in Hc. now rewrite Hc, (IH Hs).
Qed.

Lemma find_append (ch : ascii) (b : string) :
  forall a, find ch a = None ->
            find ch (a ++ String ch b)%string = Some (String.length a).
Proof.
  induction a as [| c a IH]; simpl.
  - now rewrite Ascii.eqb_refl.
  - destruct (Ascii.eqb c ch); [discriminate |].
    destruct (find ch a); [discriminate |]. intros _. now rewrite (IH eq_refl).
Qed.

Lemma substring_append (a b : string) :
  substring 0 (String.length a) (a ++ b)%string = a.
Proof.
  induction a as [| c a IH]; simpl.
  - destruct b; reflexivity.
  - now rewrite IH.
Qed.

Lemma drop_append (ch : ascii) (a b : string) :
  drop (String.length a + 1) (a ++ String ch b)%string = b.
Proof. induction a as [| c a IH]; simpl; [reflexivity | exact IH]. Qed.

(** The pair extracted from a key, an ['='] and a value. *)
Lemma extract_key_value (k v : string) :
  is_empty k = false -> is_empty v = false ->
  find "="%char k = None ->
  string_forallb (fun c => negb (Ascii.eqb c Ascii.zero)) (k ++ "=" ++ v)%string = true ->
  Try_Extract_Key_Value_View (k ++ "=" ++ v)%string = mkKV k v.
Proof.
  intros Hk Hv Hf Hz. unfold Try_Extract_Key_Value_View.
  rewrite (c_str_fixed _ Hz). cbv zeta.
  change (k ++ "=" ++ v)%string with (k ++ String "="%char v)%string.
  rewrite (find_append "=" v k Hf), length_append, substring_append, drop_append.
  destruct k as [| c k]; [discriminate |]. destruct v as [| d v]; [discriminate |].
  replace (String.length (String c k) =? 0)%nat with false by reflexivity.
  replace (String.length (String c k) + 1
           =? String.length (String c k) + String.length (String "=" (String d v)))%nat
    with false by (symmetry; apply Nat.eqb_neq; simpl; lia).
  reflexivity.
Qed.

Lemma lstrip_append_space (l s : string) :
  string_forallb isspace l = true -> lstrip (l ++ s)%string = lstrip s.
Proof.
  induction l as [| c l IH]; simpl; [reflexivity |].
  intros H. apply andb_true_iff in H. destruct H as [Hc Hl]. now rewrite Hc, IH.
Qed.

Lemma rstrip_space (r : string) :
  string_forallb isspace r = true -> rstrip r = EmptyString.
Proof.
  induction r as [| c r IH]; simpl; [reflexivity |].
  intros H. apply andb_true_iff in H. destruct H as [Hc Hr]. now rewrite (IH Hr), Hc.
Qed.

Lemma rstrip_append_space (r : string) :
  string_forallb isspace r = true ->
  forall s, rstrip (s ++ r)%string = rstrip s.
Proof.
  intros Hr. induction s as [| c s IH]; simpl; [now apply rstrip_space |].
  now rewrite IH.
Qed.

Lemma is_empty_append_l (a b : string) :
  is_empty a = false -> is_empty (a ++ b)%string = false.
Proof. destruct a; simpl; [discriminate | reflexivity]. Qed.

Lemma lstrip_space (r : string) :
  string_forallb isspace r = true -> lstrip r = EmptyString.
Proof.
  induction r as [| c r IH]; simpl; [reflexivity |].
  intros H. apply andb_true_iff in H. destruct H as [Hc Hr]. now rewrite Hc, IH.
Qed.

(** [my_trim] returns what stands between two runs of whitespace when that
    neither starts nor ends with whitespace. *)
Lemma my_trim_padded (l s r : string) :
  string_forallb isspace l = true -> string_forallb isspace r = true ->
  match front s with Some c => isspace c = false | None => True end ->
  match back s with Some c => isspace c = false | None => True end ->
  my_trim (l ++ s ++ r)%string = s.
Proof.
  intros Hl Hr Hf Hb. unfold my_trim. rewrite (lstrip_append_space l _ Hl).
  destruct s as [| c s].
  - simpl. now rewrite (lstrip_space r Hr).
  - change (String c s ++ r)%string with (String c (s ++ r)%string).
    cbn [lstrip]. simpl in Hf. rewrite Hf.
    change (String c (s ++ r)%string) with (String c s ++ r)%string.
    rewrite (rstrip_append_space r Hr). now apply rstrip_fixed.
Qed.

(** The characters of the decimal notation. *)
Definition decimal_char (c : ascii) : bool := isdigit c || Ascii.eqb c "-"%char.

Lemma decimal_char_plain (c : ascii) :
  decimal_char c = true ->
  isspace c = false /\ negb (Ascii.eqb c Ascii.zero) = true.
Proof.
  destruct c as [[] [] [] [] [] [] [] []]; intros H; try discriminate H; split; reflexivity.
Qed.

Lemma uint_digits (u : Decimal.uint) :
  string_forallb decimal_char (DecimalString.NilEmpty.string_of_uint u) = true.
Proof. induction u; simpl; auto. Qed.

Lemma decimal_chars (z : Z) : string_forallb decimal_char (decimal z) = true.
Proof.
  unfold decimal. destruct z as [| p | p];
    cbn [Z.to_int DecimalString.NilEmpty.string_of_int]; [reflexivity | |].
  - apply uint_digits.
  - simpl. apply uint_digits.
Qed.

Lemma decimal_nonempty (z : Z) : is_empty (decimal z) = false.
Proof.
  unfold decimal. destruct z as [| p | p];
    cbn [Z.to_int DecimalString.NilEmpty.string_of_int]; [reflexivity | | reflexivity].
  destruct (uint_string_nonempty _ (DecimalPos.Unsigned.to_uint_nonnil p)) as (c & r & -> & _).
  reflexivity.
Qed.

Lemma forallb_front (p : ascii -> bool) (s : string) :
  string_forallb p s = true ->
  match front s with Some c => p c = true | None => True end.
Proof.
  destruct s as [| c s]; simpl; [auto |]. intros H. now apply andb_true_iff in H.
Qed.

Lemma forallb_back (p : ascii -> bool) (s : string) :
  string_forallb p s = true ->
  match back s with Some c => p c = true | None => True end.
Proof.
  induction s as [| c s IH]; [simpl; auto |].
  intros H. simpl in H. apply andb_true_iff in H. destruct H as [Hc Hs].
  destruct s as [| c' s']; [exact Hc | exact (IH Hs)].
Qed.

Lemma space_not_nul (c : ascii) :
  isspace c = true -> negb (Ascii.eqb c Ascii.zero) = true.
Proof.
  destruct c as [[] [] [] [] [] [] [] []]; intros H; try discriminate H; reflexivity.
Qed.

(** X13.  An integer written as a value is read back.  Take a key without
    ['='] and without NUL, an ['='], and the decimal notation of an integer
    that fits in 64 bits, with any whitespace around it: the extraction splits
    the text at the ['='], [my_trim] leaves the notation, and whenever the
    command-line loop or the file loop accepts the text, the entry it stores
    for the key is not yet accessed and [try_int64_] turns its string into
    that integer. *)
Theorem integer_value_is_read_back (st st' : ctor_state) (k l r : string) (z val : Z) :
  (LLONG_MIN <= z <= LLONG_MAX)%Z ->
  is_empty k = false -> find "="%char k = None ->
  string_forallb (fun c => negb (Ascii.eqb c Ascii.zero)) k = true ->
  string_forallb isspace l = true -> string_forallb isspace r = true ->
  let text := (k ++ "=" ++ l ++ decimal z ++ r)%string in
  let stored (name : string) :=
    exists e, map_find name (entries_ st') = Some e /\ accessed e = false /\
              try_int64_ (param_str e) val = (none, z) in
  Try_Extract_Key_Value_View text = mkKV k (l ++ decimal z ++ r)%string /\
  my_trim (l ++ decimal z ++ r)%string = decimal z /\
  (parse_cli_arg st text = inr st' -> stored k) /\
  (parse_param_line st text = inr st' ->
   stored ((if negb (is_empty (cur_table_header st))
            then cur_table_header st ++ "." else EmptyString) ++ k)%string).
Proof.
  intros Hz Hk Hf Hnul Hl Hr text stored.
  pose proof (decimal_chars z) as Hd.
  assert (Htrim : my_trim (l ++ decimal z ++ r)%string = decimal z).
  { apply my_trim_padded; auto.
    - pose proof (forallb_front _ _ Hd) as H. destruct (front (decimal z)); [| exact I].
      now apply decimal_char_plain.
    - pose proof (forallb_back _ _ Hd) as H. destruct (back (decimal z)); [| exact I].
      now apply decimal_char_plain. }
  assert (Hkv : Try_Extract_Key_Value_View text = mkKV k (l ++ decimal z ++ r)%string).
  { unfold text. apply extract_key_value; auto.
    - apply is_empty_append, is_empty_append_l. apply decimal_nonempty.
    - rewrite !string_forallb_append, Hnul. simpl.
      rewrite (string_forallb_impl _ _ l space_not_nul Hl).
      rewrite (string_forallb_impl _ _ r space_not_nul Hr).
      rewrite (string_forallb_impl decimal_char _ (decimal z)
                 (fun c H => proj2 (decimal_char_plain c H)) Hd).
      reflexivity. }
  assert (Hconv : try_int64_ (decimal z) val = (none, z))
    by (now apply try_int64_reads_decimal_notation_aux).
  split; [exact Hkv |]. split; [exact Htrim |]. split.
  - intros Hstep.
    assert (Hne : is_empty (key (Try_Extract_Key_Value_View text)) = false)
      by (rewrite Hkv; exact Hk).
    destruct (parse_cli_arg_inr _ _ _ Hstep Hne) as (_ & He).
    rewrite Hkv in He. cbn [key value] in He. rewrite Htrim in He.
    exists (mkEntry (decimal z) false). rewrite He, map_find_assign_same. auto.
  - intros Hstep.
    assert (Hne : is_empty (key (Try_Extract_Key_Value_View text)) = false)
      by (rewrite Hkv; exact Hk).
    destruct (parse_param_line_inr _ _ _ Hstep Hne) as (_ & _ & He & _).
    rewrite Hkv in He. cbn [key value] in He. rewrite Htrim in He.
    exists (mkEntry (decimal z) false). rewrite He, map_find_assign_same. auto.
Qed.

Lemma integer_value_is_read_back_witness :
  parse_cli_arg initial_state "nx= 64 "
  = inr (mkState [("nx", mkEntry "64" false)] [] [] EmptyString) /\
  exists e, map_find "nx" [("nx", mkEntry "64" false)] = Some e /\ accessed e = false /\
            try_int64_ (param_str e) 0 = (none, 64%Z).
Proof.
  split; [reflexivity |].
  destruct (integer_value_is_read_back initial_state
              (mkState [("nx", mkEntry "64" false)] [] [] EmptyString)
              "nx" " " " " 64 0) as (_ & _ & Hcli & _); try reflexivity.
  - unfold LLONG_MIN, LLONG_MAX. lia.
  - apply Hcli. reflexivity.
Defined.

End ConvertExtraProofs.

(** * Further properties of the round-off comparison *)

Module TestingExtraProofs.

Import TestingUtilities TestingProofs.
Local Open Scope Z_scope.

(** ** The distance *)

(** X14.  The ULP distance is never negative and never exceeds the largest
    [int64_t]: neither the subtraction nor the negation wraps around. *)
Theorem ulps_distance_in_range (a b : double) :
  0 <= ulpsDistanceDbl a b <= INT64_MAX.
Proof.
  unfold ulpsDistanceDbl, INT64_MAX.
  destruct (dbl_eq a b); [lia |].
  destruct (isnan a || isnan b); [lia |].
  destruct (isinf a || isinf b); [lia |].
  destruct (Bool.eqb (memcpy_int64 a <? 0) (memcpy_int64 b <? 0)) eqn:Hs;
    simpl negb; cbv iota zeta; [| lia].
  apply eqb_prop in Hs.
  pose proof (wrap64_range a) as Ha. pose proof (wrap64_range b) as Hb.
  rewrite (same_sign_distance (memcpy_int64 a) (memcpy_int64 b) Ha Hb Hs).
  unfold memcpy_int64 in *.
  destruct (Z.ltb_spec (wrap64 a) 0), (Z.ltb_spec (wrap64 b) 0); try discriminate; lia.
Qed.

Lemma SFcompare_refl (f : spec_float) :
  f <> S754_nan -> SFcompare f f = Some Eq.
Proof.
  destruct f as [s | s | | s m e]; intros H; try destruct s; simpl; try reflexivity;
    try contradiction; rewrite Z.compare_refl, Pos.compare_cont_refl; reflexivity.
Qed.

Lemma dbl_eq_refl (a : double) : isnan a = false -> dbl_eq a a = true.
Proof.
  unfold isnan, dbl_eq, SFeqb. intros H. rewrite SFcompare_refl; [reflexivity |].
  destruct (value_of a); congruence.
Qed.

Lemma wrap64_high (a : Z) : 2 ^ 63 <= a < 2 ^ 64 -> wrap64 a = a - 2 ^ 64.
Proof.
  intros Ha. unfold wrap64.
  rewrite <- (Z.mod_unique (a + 2 ^ 63) (2 ^ 64) 1 (a - 2 ^ 63)); lia.
Qed.

Lemma wrap64_inj (a b : double) :
  is_double a -> is_double b -> wrap64 a = wrap64 b -> a = b.
Proof.
  unfold is_double. intros Ha Hb.
  destruct (Z_lt_ge_dec a (2 ^ 63)), (Z_lt_ge_dec b (2 ^ 63));
    rewrite ?(wrap64_small a), ?(wrap64_small b), ?(wrap64_high a), ?(wrap64_high b) by lia;
    lia.
Qed.

(** X15.  The distance is 0 exactly for arguments that compare equal: two
    doubles that differ are at least one ULP apart. *)
Theorem ulps_distance_zero_iff_equal (a b : double) :
  is_double a -> is_double b ->
  (ulpsDistanceDbl a b = 0 <-> dbl_eq a b = true).
Proof.
  intros Ha Hb. split.
  - unfold ulpsDistanceDbl, INT64_MAX.
    destruct (dbl_eq a b) eqn:He; [reflexivity |].
    destruct (isnan a || isnan b) eqn:Hn; [lia |].
    apply orb_false_iff in Hn. destruct Hn as [Hna Hnb].
    destruct (isinf a || isinf b); [lia |].
    destruct (Bool.eqb (memcpy_int64 a <? 0) (memcpy_int64 b <? 0)) eqn:Hs;
      simpl negb; cbv iota zeta; [| lia].
    apply eqb_prop in Hs.
    rewrite (same_sign_distance (memcpy_int64 a) (memcpy_int64 b)
               (wrap64_range a) (wrap64_range b) Hs).
    intros Hd. assert (Hab : a = b) by (apply wrap64_inj; unfold memcpy_int64 in *; auto; lia).
    subst b. rewrite dbl_eq_refl in He by exact Hna. discriminate.
  - unfold ulpsDistanceDbl. now intros ->.
Qed.

Lemma ulps_distance_zero_iff_equal_witness :
  ulpsDistanceDbl dbl_pos_zero dbl_neg_zero = 0.
Proof.
  apply (ulps_distance_zero_iff_equal dbl_pos_zero dbl_neg_zero).
  - unfold is_double, dbl_pos_zero. lia.
  - unfold is_double, dbl_neg_zero. lia.
  - reflexivity.
Defined.

(** ** The comparison *)

Lemma isnan_value (a : double) : isnan a = true -> value_of a = S754_nan.
Proof. unfold isnan. destruct (value_of a); congruence. Qed.

(** X16.  A NaN is nearly equal to nothing, not even to itself, whatever the
    absolute tolerance and for every ULP tolerance below the largest
    [int64_t]. *)
Theorem nan_is_never_nearly_equal (a b fixedEpsilon : double) (ulpsEpsilon : Z) :
  isnan a = true \/ isnan b = true ->
  ulpsEpsilon < INT64_MAX ->
  fst (fst (nearlyEqualDbl a b fixedEpsilon ulpsEpsilon)) = false.
Proof.
  intros Hnan Heps.
  assert (Heq : dbl_eq a b = false).
  { unfold dbl_eq, SFeqb. destruct Hnan as [H | H]; apply isnan_value in H; rewrite H.
    - reflexivity.
    - destruct (value_of a); reflexivity. }
  assert (Hu : ulpsDistanceDbl a b = INT64_MAX).
  { unfold ulpsDistanceDbl. rewrite Heq.
    destruct Hnan as [-> | ->]; [reflexivity | now rewrite orb_true_r]. }
  assert (Hd : abs_diff a b = S754_nan).
  { unfold abs_diff. destruct Hnan as [H | H]; apply isnan_value in H; rewrite H.
    - reflexivity.
    - destruct (value_of a); reflexivity. }
  unfold nearlyEqualDbl. rewrite Hu, Hd.
  destruct (Z.leb_spec INT64_MAX ulpsEpsilon); [lia |]. reflexivity.
Qed.

Lemma nan_is_never_nearly_equal_witness :
  fst (fst (nearlyEqualDbl_default dbl_nan dbl_nan)) = false.
Proof.
  apply (nan_is_never_nearly_equal dbl_nan dbl_nan default_fixedEpsilon default_ulpsEpsilon).
  - left. reflexivity.
  - reflexivity.
Defined.

Lemma SFabs_binary_round (sx : bool) (m : positive) (e : Z) :
  SFabs (binary_round prec emax sx m e) = SFabs (binary_round prec emax false m e).
Proof.
  unfold binary_round, binary_round_aux.
  destruct (shl_align m e _) as [mz ez].
  destruct (shr_fexp prec emax (Z.pos mz) ez loc_Exact) as [mrs' e'].
  destruct (shr_fexp prec emax _ e' loc_Exact) as [mrs'' e''].
  destruct (shr_m mrs''); try reflexivity.
  destruct (e'' <=? emax - prec); reflexivity.
Qed.

Lemma SFabs_binary_normalize_opp (m e : Z) (szero : bool) :
  SFabs (binary_normalize prec emax (- m) e szero)
  = SFabs (binary_normalize prec emax m e szero).
Proof.
  destruct m as [| p | p]; simpl; [reflexivity | |];
    rewrite (SFabs_binary_round true); reflexivity.
Qed.

(** [|a - b|] and [|b - a|] are the same double. *)
Lemma SFabs_SFsub_sym (x y : spec_float) :
  SFabs (SFsub prec emax x y) = SFabs (SFsub prec emax y x).
Proof.
  destruct x as [sx | sx | | sx mx ex], y as [sy | sy | | sy my ey];
    try destruct sx; try destruct sy; try reflexivity;
    unfold SFsub; rewrite (Z.min_comm ey ex);
    match goal with
    | |- SFabs (binary_normalize _ _ (?u - ?v) _ _) = _ =>
        replace (v - u) with (- (u - v)) by lia
    end; symmetry; apply SFabs_binary_normalize_opp.
Qed.

(** X17.  The comparison does not depend on the order of its two arguments:
    the flag, the absolute difference and the ULP distance it hands back are
    the same for [(a, b)] and for [(b, a)]. *)
Theorem nearlyEqualDbl_is_symmetric (a b fixedEpsilon : double) (ulpsEpsilon : Z) :
  nearlyEqualDbl a b fixedEpsilon ulpsEpsilon = nearlyEqualDbl b a fixedEpsilon ulpsEpsilon.
Proof.
  unfold nearlyEqualDbl, abs_diff.
  rewrite (ulpsDistanceDbl_sym b a), (SFabs_SFsub_sym (value_of b) (value_of a)).
  reflexivity.
Qed.

(** X18.  Every double that is not a NaN is nearly equal to itself, at
    distance 0, for every non-negative ULP tolerance. *)
Theorem nearlyEqualDbl_is_reflexive (a fixedEpsilon : double) (ulpsEpsilon : Z) :
  isnan a = false -> 0 <= ulpsEpsilon ->
  fst (fst (nearlyEqualDbl a a fixedEpsilon ulpsEpsilon)) = true /\
  snd (nearlyEqualDbl a a fixedEpsilon ulpsEpsilon) = 0.
Proof.
  intros Hn He. unfold nearlyEqualDbl, ulpsDistanceDbl. rewrite dbl_eq_refl by exact Hn.
  destruct (Z.leb_spec 0 ulpsEpsilon); [split; reflexivity | lia].
Qed.

Lemma nearlyEqualDbl_is_reflexive_witness :
  fst (fst (nearlyEqualDbl_default dbl_pos_inf dbl_pos_inf)) = true.
Proof.
  apply (nearlyEqualDbl_is_reflexive dbl_pos_inf default_fixedEpsilon default_ulpsEpsilon).
  - reflexivity.
  - unfold default_ulpsEpsilon. lia.
Defined.

End TestingExtraProofs.

(** * Further properties of the exact Riemann solver *)

Module ExactExtraProofs.

Import Exact ExactSpec ExactProofs.
Local Open Scope R_scope.

(** ** The pressure function *)

Lemma Rpower_pos (x y : R) : 0 < Rpower x y.
Proof. unfold Rpower. apply exp_pos. Qed.

(** X19.  For a positive pressure and a physical state (positive density,
    pressure and sound speed, [gamma > 1]) the derivative returned by
    [prefun] is positive, and the function is negative below the pressure of
    the state, zero at it and positive above. *)
Theorem prefun_sign (p dk pk ck gamma : R) :
  0 < p -> 0 < dk -> 0 < pk -> 0 < ck -> 1 < gamma ->
  let '(f, fd) := prefun p dk pk ck gamma in
  0 < fd /\ (p < pk -> f < 0) /\ (p = pk -> f = 0) /\ (pk < p -> 0 < f).
Proof.
  intros Hp Hd Hpk Hc Hg. unfold prefun. norm_lits.
  destruct (Rle_dec p pk) as [Hle | Hgt].
  - assert (Hr : 0 < p / pk) by (apply Rdiv_lt_0_compat; lra).
    rewrite !pow_pos_base by exact Hr.
    assert (Hk : 0 < 2 / (gamma - 1) * ck).
    { apply Rmult_lt_0_compat; [apply Rdiv_lt_0_compat; lra | lra]. }
    assert (Hi : 0 < 1 / (dk * ck)).
    { apply Rdiv_lt_0_compat; [lra |]. apply Rmult_lt_0_compat; lra. }
    split; [apply Rmult_lt_0_compat; [exact Hi | apply Rpower_pos] |].
    split; [| split].
    + intros Hlt.
      assert (Hr1 : p / pk < 1).
      { apply Rmult_lt_reg_r with pk; [lra |].
        replace (p / pk * pk) with p by (field; lra). lra. }
      assert (Ha : 0 < (gamma - 1) / (2 * gamma)) by (apply Rdiv_lt_0_compat; lra).
      destruct (Rpower_below_one (p / pk) _ (conj Hr Hr1) Ha) as [_ Hb].
      replace 0 with (2 / (gamma - 1) * ck * 0) by ring.
      apply Rmult_lt_compat_l; [exact Hk | lra].
    + intros ->. replace (pk / pk) with 1 by (field; lra).
      unfold Rpower. rewrite ln_1, Rmult_0_r, exp_0. ring.
    + intros Hlt. lra.
  - assert (Hlt : pk < p) by lra.
    assert (Hb : 0 < (gamma - 1) / (gamma + 1) * pk).
    { apply Rmult_lt_0_compat; [apply Rdiv_lt_0_compat; lra | lra]. }
    set (bk := (gamma - 1) / (gamma + 1) * pk) in *.
    assert (Hq : 0 < sqrt (2 / (gamma + 1) / dk / (bk + p))).
    { apply sqrt_lt_R0. apply Rdiv_lt_0_compat; [| lra].
      apply Rdiv_lt_0_compat; [apply Rdiv_lt_0_compat; lra | lra]. }
    assert (Hfrac : / 2 * (p - pk) / (bk + p) < 1).
    { apply Rmult_lt_reg_r with (bk + p); [lra |].
      replace (/ 2 * (p - pk) / (bk + p) * (bk + p)) with (/ 2 * (p - pk)) by (field; lra).
      lra. }
    split; [apply Rmult_lt_0_compat; lra |].
    split; [intros; lra |]. split; [intros; lra |].
    intros _. apply Rmult_lt_0_compat; lra.
Qed.

Lemma prefun_sign_witness :
  let '(f, fd) := prefun 1 1 1 1 2 in 0 < fd.
Proof.
  pose proof (prefun_sign 1 1 1 1 2 ltac:(lra) ltac:(lra) ltac:(lra) ltac:(lra) ltac:(lra)) as H.
  destruct (prefun 1 1 1 1 2) as [f fd]. apply H.
Defined.

(** ** The passes of the Newton loop *)

Lemma newton_loop_no_break (dl vxl pl cl dr vxr pr cr gamma : R) :
  forall more done pold,
    nr_break (newton_loop dl vxl pl cl dr vxr pr cr gamma more done pold) = false ->
    nr_iterations (newton_loop dl vxl pl cl dr vxr pr cr gamma more done pold)
    = S (done + more).
Proof.
  induction more as [| more IH]; intros done pold; rewrite newton_loop_eq;
    destruct (prefun pold dl pl cl gamma) as [fl fld];
    destruct (prefun pold dr pr cr gamma) as [fr frd]; cbv zeta;
    destruct (Rle_dec _ TOL); cbn [nr_break nr_iterations]; try discriminate.
  - intros _. f_equal. lia.
  - intros H. rewrite (IH _ _ H). lia.
Qed.

(** X20.  For every input the body of the loop of [starpu] runs at least
    once and at most [nriter + 1 = 21] times, and a loop that was not left
    through the tolerance test made all 21 passes. *)
Theorem starpu_loop_passes (dl vxl pl cl dr vxr pr cr gamma : R) :
  let r := starpu_loop dl vxl pl cl dr vxr pr cr gamma in
  (1 <= nr_iterations r <= nriter + 1)%nat /\
  (nr_break r = false -> nr_iterations r = (nriter + 1)%nat).
Proof.
  intros r. unfold r, starpu_loop.
  generalize (guessp dl vxl pl cl dr vxr pr cr gamma) as pold.
  generalize nriter as more. intros more pold. split.
  - pose proof (newton_loop_iterations dl vxl pl cl dr vxr pr cr gamma more 0 pold). lia.
  - intros H. rewrite (newton_loop_no_break _ _ _ _ _ _ _ _ _ _ _ _ H). lia.
Qed.

Lemma starpu_loop_passes_witness :
  nr_iterations (starpu_loop 1 (-4) 3 3 1 20 3 3 3) = (nriter + 1)%nat.
Proof.
  apply (starpu_loop_passes 1 (-4) 3 3 1 20 3 3 3).
  rewrite starpu_loop_vacuum. reflexivity.
Defined.

(** ** Symmetries of the star region *)

Lemma guessp_mirror (dl vxl pl cl dr vxr pr cr gamma : R) :
  guessp dr (- vxr) pr cr dl (- vxl) pl cl gamma = guessp dl vxl pl cl dr vxr pr cr gamma.
Proof.
  rewrite !guessp_unfold.
  assert (Hp : pvrs_pressure dr (- vxr) pr cr dl (- vxl) pl cl
               = pvrs_pressure dl vxl pl cl dr vxr pr cr).
  { unfold pvrs_pressure. ring. }
  rewrite Hp.
  assert (Ht : forall e, two_shock_pressure e dr (- vxr) pr dl (- vxl) pl gamma
                         = two_shock_pressure e dl vxl pl dr vxr pr gamma).
  { intros e. unfold two_shock_pressure. cbv zeta. apply (f_equal2 Rdiv); ring. }
  cbv zeta. rewrite Ht. reflexivity.
Qed.

Lemma guessp_shift (a dl vxl pl cl dr vxr pr cr gamma : R) :
  guessp dl (vxl + a) pl cl dr (vxr + a) pr cr gamma = guessp dl vxl pl cl dr vxr pr cr gamma.
Proof.
  rewrite !guessp_unfold.
  assert (Hp : pvrs_pressure dl (vxl + a) pl cl dr (vxr + a) pr cr
               = pvrs_pressure dl vxl pl cl dr vxr pr cr).
  { unfold pvrs_pressure. ring. }
  rewrite Hp.
  assert (Ht : forall e, two_shock_pressure e dl (vxl + a) pl dr (vxr + a) pr gamma
                         = two_shock_pressure e dl vxl pl dr vxr pr gamma).
  { intros e. unfold two_shock_pressure. cbv zeta. apply (f_equal2 Rdiv); ring. }
  cbv zeta. rewrite Ht. reflexivity.
Qed.

(** The loop on the mirrored problem makes the same passes, with the two
    pressure functions exchanged. *)
Lemma newton_loop_mirror (dl vxl pl cl dr vxr pr cr gamma : R) :
  forall more done pold,
    newton_loop dr (- vxr) pr cr dl (- vxl) pl cl gamma more done pold =
    let r := newton_loop dl vxl pl cl dr vxr pr cr gamma more done pold in
    mkNewton (nr_p r) (nr_fr r) (nr_fl r) (nr_iterations r) (nr_break r).
Proof.
  induction more as [| more IH]; intros done pold;
    rewrite (newton_loop_eq dr), (newton_loop_eq dl);
    destruct (prefun pold dl pl cl gamma) as [fl fld];
    destruct (prefun pold dr pr cr gamma) as [fr frd]; cbv zeta;
    replace (pold - (fr + fl + - vxl - - vxr) / (frd + fld))
      with (pold - (fl + fr + vxr - vxl) / (fld + frd))
      by (apply (f_equal2 Rminus); [reflexivity | apply (f_equal2 Rdiv); ring]);
    destruct (Rle_dec _ TOL); try reflexivity.
  rewrite IH. reflexivity.
Qed.

Lemma newton_loop_shift (a dl vxl pl cl dr vxr pr cr gamma : R) :
  forall more done pold,
    newton_loop dl (vxl + a) pl cl dr (vxr + a) pr cr gamma more done pold =
    newton_loop dl vxl pl cl dr vxr pr cr gamma more done pold.
Proof.
  induction more as [| more IH]; intros done pold;
    rewrite (newton_loop_eq dl (vxl + a)), (newton_loop_eq dl vxl);
    destruct (prefun pold dl pl cl gamma) as [fl fld];
    destruct (prefun pold dr pr cr gamma) as [fr frd]; cbv zeta;
    replace (fl + fr + (vxr + a) - (vxl + a)) with (fl + fr + vxr - vxl) by ring;
    destruct (Rle_dec _ TOL); try reflexivity.
  apply IH.
Qed.

Lemma starpu_loop_mirror (dl vxl pl cl dr vxr pr cr gamma : R) :
  starpu_loop dr (- vxr) pr cr dl (- vxl) pl cl gamma =
  let r := starpu_loop dl vxl pl cl dr vxr pr cr gamma in
  mkNewton (nr_p r) (nr_fr r) (nr_fl r) (nr_iterations r) (nr_break r).
Proof. unfold starpu_loop. rewrite guessp_mirror. apply newton_loop_mirror. Qed.

Lemma starpu_loop_shift (a dl vxl pl cl dr vxr pr cr gamma : R) :
  starpu_loop dl (vxl + a) pl cl dr (vxr + a) pr cr gamma =
  starpu_loop dl vxl pl cl dr vxr pr cr gamma.
Proof. unfold starpu_loop. rewrite guessp_shift. apply newton_loop_shift. Qed.

(** X21.  Mirror symmetry: exchanging the two states and reversing their
    velocities leaves the star pressure unchanged and reverses the star
    velocity. *)
Theorem starpu_mirror (dl vxl pl cl dr vxr pr cr gamma : R) :
  starpu dr (- vxr) pr cr dl (- vxl) pl cl gamma =
  (fst (starpu dl vxl pl cl dr vxr pr cr gamma),
   - snd (starpu dl vxl pl cl dr vxr pr cr gamma)).
Proof.
  unfold starpu. rewrite starpu_loop_mirror.
  destruct (starpu_loop dl vxl pl cl dr vxr pr cr gamma) as [p fl fr n b].
  cbn [nr_p nr_fl nr_fr fst snd]. apply f_equal. norm_lits. lra.
Qed.

(** X22.  Galilean invariance: adding the same velocity to both states
    leaves the star pressure unchanged and adds that velocity to the star
    velocity. *)
Theorem starpu_galilean (a dl vxl pl cl dr vxr pr cr gamma : R) :
  starpu dl (vxl + a) pl cl dr (vxr + a) pr cr gamma =
  (fst (starpu dl vxl pl cl dr vxr pr cr gamma),
   snd (starpu dl vxl pl cl dr vxr pr cr gamma) + a).
Proof.
  unfold starpu. rewrite starpu_loop_shift.
  destruct (starpu_loop dl vxl pl cl dr vxr pr cr gamma) as [p fl fr n b].
  cbn [nr_p nr_fl nr_fr fst snd]. apply f_equal. norm_lits. lra.
Qed.

(** ** Positivity of the sample *)

Lemma pow_pos (x y : R) : 0 < x -> 0 < pow x y.
Proof. intros Hx. rewrite pow_pos_base by exact Hx. apply Rpower_pos. Qed.

(** X23.  For physical states (positive densities, pressures and sound
    speeds, [gamma > 1]), a positive star pressure and no vacuum inside the
    fans ([cl + (gamma-1)/2 vxl > 0] and [cr - (gamma-1)/2 vxr > 0]), the
    density and the pressure [sample] returns are positive, whatever the
    star velocity. *)
Theorem sample_is_positive (pm vm dl vxl pl cl dr vxr pr cr gamma : R) :
  0 < dl -> 0 < dr -> 0 < pl -> 0 < pr -> 0 < cl -> 0 < cr -> 1 < gamma -> 0 < pm ->
  0 < cl + (gamma - 1) / 2 * vxl -> 0 < cr - (gamma - 1) / 2 * vxr ->
  let '(d, u, p) := sample pm vm dl vxl pl cl dr vxr pr cr gamma in
  0 < d /\ 0 < p.
Proof.
  intros Hdl Hdr Hpl Hpr Hcl Hcr Hg Hpm Hfl Hfr. unfold sample. norm_lits.
  assert (Hk : 0 < 2 / (gamma + 1)) by (apply Rdiv_lt_0_compat; lra).
  assert (HA : 0 < (gamma - 1) / (gamma + 1)) by (apply Rdiv_lt_0_compat; lra).
  assert (Hshock : forall d pk, 0 < d -> 0 < pk ->
            0 < d * (pm / pk + (gamma - 1) / (gamma + 1))
                / (pm / pk * ((gamma - 1) / (gamma + 1)) + 1)).
  { intros d pk Hd Hp. assert (0 < pm / pk) by (apply Rdiv_lt_0_compat; lra).
    apply Rdiv_lt_0_compat.
    - apply Rmult_lt_0_compat; lra.
    - assert (0 < pm / pk * ((gamma - 1) / (gamma + 1))) by (apply Rmult_lt_0_compat; lra).
      lra. }
  assert (Hstar : forall d pk y, 0 < d -> 0 < pk -> 0 < d * pow (pm / pk) y).
  { intros d pk y Hd Hp. apply Rmult_lt_0_compat; [lra |].
    apply pow_pos. apply Rdiv_lt_0_compat; lra. }
  assert (Hfan : forall d c ck y, 0 < d -> 0 < c -> 0 < ck -> 0 < d * pow (c / ck) y).
  { intros d c ck y Hd Hc Hck. apply Rmult_lt_0_compat; [lra |].
    apply pow_pos. apply Rdiv_lt_0_compat; lra. }
  assert (Hcfl : 0 < 2 / (gamma + 1) * (cl + (gamma - 1) / 2 * vxl))
    by (apply Rmult_lt_0_compat; lra).
  assert (Hcfr : 0 < 2 / (gamma + 1) * (cr - (gamma - 1) / 2 * vxr))
    by (apply Rmult_lt_0_compat; lra).
  destruct (Rge_dec vm 0).
  - destruct (Rle_dec pm pl).
    + destruct (Rge_dec (vxl - cl) 0); [split; lra |].
      destruct (Rlt_dec _ 0); split; auto.
    + destruct (Rge_dec _ 0); [split; lra |]. split; auto.
  - destruct (Rgt_dec pm pr).
    + destruct (Rle_dec _ 0); [split; lra |]. split; auto.
    + destruct (Rle_dec (vxr + cr) 0); [split; lra |].
      destruct (Rge_dec _ 0); split; auto.
Qed.

Lemma sample_is_positive_witness :
  let '(d, u, p) := sample 1 0 1 0 1 1 1 0 1 1 2 in 0 < d /\ 0 < p.
Proof.
  apply (sample_is_positive 1 0 1 0 1 1 1 0 1 1 2); lra.
Defined.

(** ** Contact discontinuities *)

Lemma guessp_contact (dl dr v p cl cr gamma : R) :
  0 < dl -> 0 < dr -> 0 < p -> 1 < gamma ->
  guessp dl v p cl dr v p cr gamma = p.
Proof.
  intros Hdl Hdr Hp Hg. rewrite guessp_unfold. unfold two_shock_pressure, pvrs_pressure.
  replace (/ 2 * (p + p) + / 8 * (v - v) * (dl + dr) * (cl + cr)) with p by lra.
  rewrite Rmax_right by lra.
  assert (Hpos : forall d, 0 < d ->
            0 < sqrt (2 / ((gamma + 1) * d) / ((gamma - 1) / (gamma + 1) * p + p))).
  { intros d Hd. apply sqrt_lt_R0. apply Rdiv_lt_0_compat.
    - apply Rdiv_lt_0_compat; [lra |]. apply Rmult_lt_0_compat; lra.
    - assert (0 < (gamma - 1) / (gamma + 1)) by (apply Rdiv_lt_0_compat; lra).
      assert (0 < (gamma - 1) / (gamma + 1) * p) by (apply Rmult_lt_0_compat; lra).
      lra. }
  pose proof (Hpos dl Hdl) as Hgl. pose proof (Hpos dr Hdr) as Hgr.
  set (gl := sqrt (2 / ((gamma + 1) * dl) / ((gamma - 1) / (gamma + 1) * p + p))) in *.
  set (gr := sqrt (2 / ((gamma + 1) * dr) / ((gamma - 1) / (gamma + 1) * p + p))) in *.
  cbv zeta.
  replace ((gl * p + gr * p - (v - v)) / (gl + gr)) with p by (field; lra).
  destruct (Rlt_dec p 0); lra.
Qed.

Lemma starpu_contact (dl dr v p cl cr gamma : R) :
  0 < dl -> 0 < dr -> 0 < p -> 1 < gamma ->
  starpu dl v p cl dr v p cr gamma = (p, v).
Proof.
  intros Hdl Hdr Hp Hg. unfold starpu, starpu_loop.
  rewrite guessp_contact by assumption.
  rewrite newton_loop_eq. rewrite !prefun_at_pk by assumption. cbv zeta.
  replace (p - (0 + 0 + v - v) / (1 / (dl * cl) + 1 / (dr * cr))) with p
    by (unfold Rdiv; ring).
  replace ((p - p) / (p + p)) with 0 by (unfold Rdiv; ring).
  unfold fabs. rewrite Rabs_R0, Rmult_0_r.
  destruct (Rle_dec 0 TOL) as [_ | H]; [| exfalso; apply H; pose proof TOL_pos; lra].
  cbn [nr_p nr_fl nr_fr]. f_equal. norm_lits. lra.
Qed.

Lemma sample_contact (dl dr v p cl cr gamma : R) :
  0 < p ->
  sample p v dl v p cl dr v p cr gamma
  = (if Rge_dec v 0 then dl else dr, v, p).
Proof.
  intros Hp. unfold sample.
  replace (p / p) with 1 by (field; lra). rewrite !pow_one_base, !Rmult_1_r.
  destruct (Rge_dec v 0).
  - destruct (Rle_dec p p) as [_ | H]; [| exfalso; apply H; lra].
    destruct (Rge_dec (v - cl) 0); [reflexivity |].
    destruct (Rlt_dec (v - cl) 0) as [_ | H]; [reflexivity | exfalso; lra].
  - destruct (Rgt_dec p p) as [H | _]; [exfalso; lra |].
    destruct (Rle_dec (v + cr) 0); [reflexivity |].
    destruct (Rge_dec (v + cr) 0) as [_ | H]; [reflexivity | exfalso; lra].
Qed.

(** X24.  A contact discontinuity is resolved without dissipation: when
    the two cells have the same normal velocity and the same (floored)
    pressure, with positive densities and [gamma > 1], whatever their
    densities, tangential velocities and internal energies, the star region
    is that velocity and pressure, and the flux is the analytic flux of the
    upwind cell: the left one when the velocity is non-negative, the right
    one otherwise. *)
Theorem contact_discontinuity_is_upwinded (TINY_NUMBER : R) (cW : list R) (gamma : R) :
  let w := primitives_of TINY_NUMBER cW gamma in
  0 < dl w -> 0 < dr w -> 0 < pl w -> pr w = pl w -> vxr w = vxl w -> 1 < gamma ->
  let v := vxl w in
  let p := pl w in
  let d := if Rge_dec v 0 then dl w else dr w in
  let vy := if Rge_dec v 0 then vyl w else vyr w in
  let vz := if Rge_dec v 0 then vzl w else vzr w in
  let ge := if Rge_dec v 0 then gel w else ger w in
  star_region TINY_NUMBER cW gamma = (p, v) /\
  interface_state TINY_NUMBER cW gamma = (d, v, p) /\
  Calculate_Exact_Fluxes TINY_NUMBER cW gamma =
  [d * v; d * v * v + p; d * v * vy; d * v * vz;
   (total_energy d v vy vz p gamma + p) * v; d * v * ge].
Proof.
  intros w Hdl Hdr Hp Hpr Hv Hg v p d vy vz ge.
  assert (Hs : star_region TINY_NUMBER cW gamma = (p, v)).
  { unfold star_region. fold w. rewrite Hpr, Hv. now apply starpu_contact. }
  assert (Hi : interface_state TINY_NUMBER cW gamma = (d, v, p)).
  { unfold interface_state. rewrite Hs. fold w. rewrite Hpr, Hv. now apply sample_contact. }
  split; [exact Hs |]. split; [exact Hi |].
  unfold Calculate_Exact_Fluxes. rewrite Hi. fold w. unfold total_energy.
  unfold d, vy, vz, ge. norm_lits. destruct (Rge_dec v 0); reflexivity.
Qed.

(** A contact at rest in the frame moving with the speed 1: densities 1 and
    2, pressure 1, [gamma = 2]. *)
Lemma contact_primitives :
  primitives_of 1.0e-20 [1; 2; 1; 2; 0; 0; 0; 0; 3 / 2; 2; 0; 0] 2
  = mkPrim 1 1 0 0 1 (sqrt 2) 0 2 1 0 0 1 1 0.
Proof.
  unfold primitives_of, at_. simpl nth. norm_lits.
  replace ((3 / 2 - / 2 * 1 * (1 / 1 * (1 / 1) + 0 / 1 * (0 / 1) + 0 / 1 * (0 / 1)))
           * (2 - 1)) with 1 by lra.
  replace ((2 - / 2 * 2 * (2 / 2 * (2 / 2) + 0 / 2 * (0 / 2) + 0 / 2 * (0 / 2)))
           * (2 - 1)) with 1 by lra.
  unfold fmax. rewrite Rmax_left by (lits; lra).
  replace (2 * 1 / 1) with 2 by lra. replace (2 * 1 / 2) with 1 by lra.
  rewrite sqrt_1. f_equal; lra.
Qed.

Lemma contact_discontinuity_is_upwinded_witness :
  star_region 1.0e-20 [1; 2; 1; 2; 0; 0; 0; 0; 3 / 2; 2; 0; 0] 2 = (1, 1).
Proof.
  pose proof (contact_discontinuity_is_upwinded 1.0e-20
                [1; 2; 1; 2; 0; 0; 0; 0; 3 / 2; 2; 0; 0] 2) as H.
  cbv zeta in H. rewrite contact_primitives in H.
  cbn [dl dr pl pr vxl vxr vyl vyr vzl vzr gel ger] in H.
  apply H; try lra; reflexivity.
Defined.

(** ** Upwinding and the contact wave *)

(** For physical states, a positive star pressure and no vacuum inside the
    fans, the velocity [sample] returns has the sign of the star velocity it
    was given: the test on the sampled velocity is a test on the side of the
    contact wave. *)
Lemma sampled_velocity_sign (pm vm dl vxl pl cl dr vxr pr cr gamma : R) :
  0 < pl -> 0 < pr -> 0 < cl -> 0 < cr -> 1 < gamma -> 0 < pm ->
  0 < cl + (gamma - 1) / 2 * vxl -> 0 < cr - (gamma - 1) / 2 * vxr ->
  let '(d, u, p) := sample pm vm dl vxl pl cl dr vxr pr cr gamma in
  (vm >= 0 -> u >= 0) /\ (~ vm >= 0 -> ~ u >= 0).
Proof.
  intros Hpl Hpr Hcl Hcr Hg Hpm Hfl Hfr. unfold sample. norm_lits.
  assert (Hk : 0 < 2 / (gamma + 1)) by (apply Rdiv_lt_0_compat; lra).
  assert (Hcfl : 0 < 2 / (gamma + 1) * (cl + (gamma - 1) / 2 * vxl))
    by (apply Rmult_lt_0_compat; lra).
  assert (Hcfr : 0 < 2 / (gamma + 1) * (cr - (gamma - 1) / 2 * vxr))
    by (apply Rmult_lt_0_compat; lra).
  assert (Hcfr' : 2 / (gamma + 1) * (- cr + (gamma - 1) / 2 * vxr)
                  = - (2 / (gamma + 1) * (cr - (gamma - 1) / 2 * vxr))) by ring.
  assert (Hsq : forall pk, 0 < pk ->
            0 < sqrt ((gamma + 1) / (2 * gamma) * (pm / pk) + (gamma - 1) / (2 * gamma))).
  { intros pk Hpk. apply sqrt_lt_R0.
    assert (0 < pm / pk) by (apply Rdiv_lt_0_compat; lra).
    assert (0 < (gamma + 1) / (2 * gamma)) by (apply Rdiv_lt_0_compat; lra).
    assert (0 < (gamma - 1) / (2 * gamma)) by (apply Rdiv_lt_0_compat; lra).
    assert (0 < (gamma + 1) / (2 * gamma) * (pm / pk)) by (apply Rmult_lt_0_compat; lra).
    lra. }
  pose proof (Rmult_lt_0_compat _ _ Hcl (Hsq pl Hpl)) as Hsl.
  pose proof (Rmult_lt_0_compat _ _ Hcr (Hsq pr Hpr)) as Hsr.
  destruct (Rge_dec vm 0) as [Hv | Hv].
  - destruct (Rle_dec pm pl).
    + destruct (Rge_dec (vxl - cl) 0); [split; intros; lra |].
      destruct (Rlt_dec _ 0); split; intros; lra.
    + destruct (Rge_dec _ 0); split; intros; lra.
  - destruct (Rgt_dec pm pr).
    + destruct (Rle_dec _ 0); split; intros; lra.
    + destruct (Rle_dec (vxr + cr) 0); [split; intros; lra |].
      destruct (Rge_dec _ 0); split; intros; lra.
Qed.

Lemma floored_pressures_positive (TINY_NUMBER : R) (cW : list R) (gamma : R) :
  0 < TINY_NUMBER ->
  0 < pl (primitives_of TINY_NUMBER cW gamma) /\
  0 < pr (primitives_of TINY_NUMBER cW gamma).
Proof.
  intros Ht. destruct (pressure_floor_applied TINY_NUMBER cW gamma). lra.
Qed.

Lemma sound_speeds_positive (TINY_NUMBER : R) (cW : list R) (gamma : R) :
  let w := primitives_of TINY_NUMBER cW gamma in
  0 < TINY_NUMBER -> 0 < dl w -> 0 < dr w -> 1 < gamma -> 0 < cl w /\ 0 < cr w.
Proof.
  intros w Ht Hdl Hdr Hg.
  destruct (floored_pressures_positive TINY_NUMBER cW gamma Ht) as [Hpl Hpr].
  fold w in Hpl, Hpr.
  assert (Hcl : cl w = sqrt (gamma * pl w / dl w)) by reflexivity.
  assert (Hcr : cr w = sqrt (gamma * pr w / dr w)) by reflexivity.
  rewrite Hcl, Hcr.
  split; apply sqrt_lt_R0; (apply Rdiv_lt_0_compat; [apply Rmult_lt_0_compat; lra | lra]).
Qed.

(** X25.  Away from vacuum the fluxes are upwinded with the contact wave:
    for a positive pressure floor, positive densities, [gamma > 1], a
    positive star pressure and no vacuum inside the fans, the flux of the
    dual-energy variable and the two tangential momentum fluxes are the
    density flux times the values of the left cell when the star velocity is
    non-negative, and times the values of the right cell otherwise. *)
Theorem fluxes_upwinded_with_contact_wave (TINY_NUMBER : R) (cW : list R) (gamma : R) :
  let w := primitives_of TINY_NUMBER cW gamma in
  let fluxes := Calculate_Exact_Fluxes TINY_NUMBER cW gamma in
  let pm := fst (star_region TINY_NUMBER cW gamma) in
  let um := snd (star_region TINY_NUMBER cW gamma) in
  0 < TINY_NUMBER -> 0 < dl w -> 0 < dr w -> 1 < gamma -> 0 < pm ->
  0 < cl w + (gamma - 1) / 2 * vxl w -> 0 < cr w - (gamma - 1) / 2 * vxr w ->
  at_ fluxes 5 = at_ fluxes 0 * (if Rge_dec um 0 then gel w else ger w) /\
  at_ fluxes 2 = at_ fluxes 0 * (if Rge_dec um 0 then vyl w else vyr w) /\
  at_ fluxes 3 = at_ fluxes 0 * (if Rge_dec um 0 then vzl w else vzr w).
Proof.
  intros w fluxes pm um Ht Hdl Hdr Hg Hpm Hfl Hfr.
  destruct (floored_pressures_positive TINY_NUMBER cW gamma Ht) as [Hpl Hpr].
  destruct (sound_speeds_positive TINY_NUMBER cW gamma Ht Hdl Hdr Hg) as [Hcl Hcr].
  fold w in Hpl, Hpr, Hcl, Hcr.
  pose proof (fluxes_follow_sampled_velocity TINY_NUMBER cW gamma) as Hf.
  cbv zeta in Hf. fold w in Hf. fold fluxes in Hf.
  pose proof (sampled_velocity_sign pm um (dl w) (vxl w) (pl w) (cl w)
                (dr w) (vxr w) (pr w) (cr w) gamma
                Hpl Hpr Hcl Hcr Hg Hpm Hfl Hfr) as Hs.
  assert (Hi : interface_state TINY_NUMBER cW gamma
               = sample pm um (dl w) (vxl w) (pl w) (cl w)
                   (dr w) (vxr w) (pr w) (cr w) gamma).
  { unfold interface_state, pm, um. fold w.
    destruct (star_region TINY_NUMBER cW gamma) as [a b]. reflexivity. }
  rewrite <- Hi in Hs.
  destruct (interface_state TINY_NUMBER cW gamma) as [[ds us] ps].
  destruct Hf as (_ & _ & _ & _ & _ & _ & _ & H5 & H2 & H3).
  destruct Hs as [Hge Hlt].
  destruct (Rge_dec um 0) as [Hu | Hu].
  - specialize (Hge Hu). destruct (Rge_dec us 0); [| contradiction].
    split; [exact H5 |]. split; [exact H2 | exact H3].
  - specialize (Hlt Hu). destruct (Rge_dec us 0); [contradiction |].
    split; [exact H5 |]. split; [exact H2 | exact H3].
Qed.

Lemma contact_star_region :
  star_region 1.0e-20 [1; 2; 1; 2; 0; 0; 0; 0; 3 / 2; 2; 0; 0] 2 = (1, 1).
Proof.
  unfold star_region. rewrite contact_primitives.
  cbn [dl vxl pl cl dr vxr pr cr]. apply starpu_contact; lra.
Qed.

Lemma fluxes_upwinded_with_contact_wave_witness :
  let cW := [1; 2; 1; 2; 0; 0; 0; 0; 3 / 2; 2; 0; 0] in
  at_ (Calculate_Exact_Fluxes 1.0e-20 cW 2) 5
  = at_ (Calculate_Exact_Fluxes 1.0e-20 cW 2) 0 * gel (primitives_of 1.0e-20 cW 2).
Proof.
  intros cW.
  pose proof (fluxes_upwinded_with_contact_wave 1.0e-20 cW 2) as H.
  cbv zeta in H. unfold cW in *. rewrite contact_star_region, contact_primitives in H.
  cbn [dl dr pl pr cl cr vxl vxr vyl vyr vzl vzr gel ger fst snd] in H.
  rewrite contact_primitives. cbn [gel].
  pose proof (sqrt_pos 2) as Hsq.
  destruct (Rge_dec 1 0) as [_ | Hn]; [| exfalso; lra].
  apply H; lra.
Defined.

End ExactExtraProofs.

(** * Properties of the disk-galaxy model *)

Module DiskGalaxyProofs.

Import Exact ExactProofs ExactExtraProofs DiskGalaxyModel.
Local Open Scope R_scope.

(** ** The function of the NFW profile *)





(** ** The two potentials *)

Section Potentials.

Variable GN : R.
Variable g : DiskGalaxy.


(** X28.  For a positive disk mass and scale length, the Miyamoto-Nagai
    potential is negative everywhere and is deepest at the centre of the
    disk. *)
Theorem disk_potential_is_deepest_at_centre (r z : R) :
  0 < GN * M_d g -> 0 < R_d g ->
  phi_disk_D3D GN g 0 0 <= phi_disk_D3D GN g r z < 0.
Proof.
  intros HM HR. unfold phi_disk_D3D. cbv zeta.
  set (B0 := R_d g + sqrt (0 * 0 + Z_d g * Z_d g)).
  set (B := R_d g + sqrt (z * z + Z_d g * Z_d g)).
  assert (HB0 : 0 < B0).
  { unfold B0. pose proof (sqrt_pos (0 * 0 + Z_d g * Z_d g)). lra. }
  assert (HB : B0 <= B).
  { unfold B0, B. apply Rplus_le_compat_l. apply sqrt_le_1_alt. nra. }
  assert (HC0 : 0 < sqrt (0 * 0 + B0 * B0)).
  { apply sqrt_lt_R0. nra. }
  assert (HC : sqrt (0 * 0 + B0 * B0) <= sqrt (r * r + B * B)).
  { apply sqrt_le_1_alt. nra. }
  set (C0 := sqrt (0 * 0 + B0 * B0)) in *. set (C := sqrt (r * r + B * B)) in *.
  replace (- GN * M_d g / C0) with (- (GN * M_d g * / C0)) by (field; lra).
  replace (- GN * M_d g / C) with (- (GN * M_d g * / C)) by (field; lra).
  assert (Hinv : / C <= / C0) by (apply Rinv_le_contravar; lra).
  assert (HinvC : 0 < / C) by (apply Rinv_0_lt_compat; lra).
  assert (0 < GN * M_d g * / C) by (apply Rmult_lt_0_compat; lra).
  assert (GN * M_d g * / C <= GN * M_d g * / C0) by (apply Rmult_le_compat_l; lra).
  lra.
Qed.


(** X30.  The model is symmetric about the plane of the disk and about its
    axis: the potentials do not change when [z] or [r] changes sign, the
    radial accelerations do not change with the sign of [z] and change sign
    with [r]. *)
Theorem galaxy_model_is_symmetric (r z : R) :
  phi_total_D3D GN g r (- z) = phi_total_D3D GN g r z /\
  phi_total_D3D GN g (- r) z = phi_total_D3D GN g r z /\
  gr_total_D3D GN g r (- z) = gr_total_D3D GN g r z /\
  gr_total_D3D GN g (- r) z = - gr_total_D3D GN g r z.
Proof.
  unfold phi_total_D3D, gr_total_D3D, phi_halo_D3D, phi_disk_D3D, gr_halo_D3D, gr_disk_D3D.
  cbv zeta.
  replace (- z * - z) with (z * z) by ring.
  replace (- r * - r) with (r * r) by ring.
  repeat split; try reflexivity. unfold Rdiv. ring.
Qed.

End Potentials.


Lemma disk_potential_is_deepest_at_centre_witness :
  phi_disk_D3D 1 (make 1 1 1 2 1 1 1) 0 0 <= phi_disk_D3D 1 (make 1 1 1 2 1 1 1) 3 4.
Proof.
  apply (disk_potential_is_deepest_at_centre 1 (make 1 1 1 2 1 1 1) 3 4); unfold make; cbn [M_h M_d R_d R_h c_vir]; lra.
Defined.


End DiskGalaxyProofs.
